(** * docker-hub-cleaner: retention pipeline and Docker Hub transport

    A shallow embedding of the Go packages [internal/api], [internal/filter],
    [internal/sort], [internal/policy] and [internal/cleaner] (Part I), the
    vocabulary in which their properties are stated (Part II), and the
    properties themselves (Part III).

    Conventions.
    - Go [int] and [int64] values are [Z]; arithmetic that the program does
      on [int64] is written with [Int64.add] / [Int64.mul], which wrap.
    - A Go interface with a closed set of implementations in the repository
      is an inductive type with one constructor per implementation; a nil
      interface value is [None].
    - Library objects the repository only calls (a compiled regular
      expression, the semver package, [sort.Slice], the JSON decoder, the
      HTTP round trip, the limiter's [Wait], the wall clock) are records of
      the functions the code calls on them.
    - Calls that touch the outside world run in the monad [M]: a state
      monad over [World] whose results are [Done], [Fail] (a Go error) or
      [OutOfFuel] (the unbounded paging loop was cut off by the model). *)

From Stdlib Require Import ZArith List String Ascii DecimalString QArith.
From Stdlib Require Import Permutation Sorted Lia OrdersEx.
From stdpp Require Import gmap strings list.

Local Open Scope Z_scope.
Set Warnings "-register-all".

(* ================================================================== *)
(** * Part I: the program                                              *)
(* ================================================================== *)

(** ** Machine integers *)

Module Int64.
Definition half_modulus : Z := 2 ^ 63.
Definition modulus : Z := 2 ^ 64.
Definition min_signed : Z := - half_modulus.
Definition max_signed : Z := half_modulus - 1.

Definition in_range (z : Z) : Prop := min_signed <= z <= max_signed.

(** Two's complement reduction of an unbounded integer. *)
Definition wrap (z : Z) : Z := (z + half_modulus) mod modulus - half_modulus.

Definition add (a b : Z) : Z := wrap (a + b).
Definition mul (a b : Z) : Z := wrap (a * b).
Definition shl (a : Z) (n : Z) : Z := wrap (Z.shiftl a n).
End Int64.

(** ** [time]: durations are int64 nanoseconds, instants are nanoseconds
    since the epoch. *)

Module time.
Definition Duration := Z.
Definition Time := Z.
Definition Second : Duration := 1000000000.
Definition Day : Duration := 24 * 3600 * Second.

(** [t.After(u)]. *)
Definition After (t u : Time) : bool := u <? t.

(** [t.AddDate(0, 0, days)], on a calendar whose days all have 24 hours. *)
Definition AddDays (t : Time) (days : Z) : Time := t + days * Day.
End time.

(** ** [internal/api]: models *)

Record Image := mkImage {
  Architecture : string;
  OS : string;
  Size : Z
}.

Record Tag := mkTag {
  Name : string;
  LastUpdated : time.Time;
  FullSize : Z;
  Images : list Image
}.

Record LoginRequest := mkLoginRequest {
  Username : string;
  Password : string
}.

Record LoginResponse := mkLoginResponse {
  Token : string
}.

Record TagsResponse := mkTagsResponse {
  Count : Z;
  Next : option string;
  Previous : option string;
  Results : list Tag
}.

Record Repository := mkRepository {
  User : string;
  RepoName : string;
  Namespace : string;
  Description : string
}.

(** ** [internal/api]: errors *)

Inductive Error : Type :=
| ErrUnauthorized
| ErrNotFound
| ErrRateLimited
| ErrNetworkError
| ErrInvalidResponse
| APIError (StatusCode : Z) (Message : string) (Endpoint : string)
  (** [fmt.Errorf("<msg>: %w", err)] *)
| Errorf (msg : string) (err : Error)
  (** [fmt.Errorf("%w: %s", ErrNetworkError, err)] *)
| NetworkErrorf (detail : string)
  (** an error value produced by a library (context, JSON decoder) *)
| LibraryError (detail : string).

Definition NewAPIError (statusCode : Z) (endpoint message : string) : Error :=
  APIError statusCode message endpoint.

(** ** [internal/policy] *)

Definition PolicyMode := Z.
Definition PolicyModeOR : PolicyMode := 0.
Definition PolicyModeAND : PolicyMode := 1.

(** The three implementations of the [RetentionPolicy] interface. *)
Inductive RetentionPolicy : Type :=
| CountRetentionPolicy (keepSet : gmap string bool)
| DaysRetentionPolicy (days : Z)
| CompositePolicy (policies : list RetentionPolicy) (mode : PolicyMode).

Definition NewCompositePolicy (mode : PolicyMode) (policies : list RetentionPolicy)
  : RetentionPolicy :=
  CompositePolicy policies mode.

Definition NewDaysRetentionPolicy (days : Z) : RetentionPolicy :=
  DaysRetentionPolicy days.

(** [min] of count.go. *)
Definition min (a b : Z) : Z := if a <? b then a else b.

(** The loop [for i := 0; i < min(count, len(sorted)); i++] of
    [NewCountRetentionPolicy]: [i] is the loop counter, [n] the bound. *)
Fixpoint keepSet_loop (steps : nat) (i n : Z) (sorted : list Tag)
    (keepSet : gmap string bool) : gmap string bool :=
  match steps with
  | O => keepSet
  | S steps' =>
      if i <? n then
        match sorted !! Z.to_nat i with
        | Some t => keepSet_loop steps' (i + 1) n sorted (<[Name t := true]> keepSet)
        | None => keepSet (* index out of range: unreachable, [i < len(sorted)] *)
        end
      else keepSet
  end.

Definition NewCountRetentionPolicy (count : Z) (sorted : list Tag) : RetentionPolicy :=
  let keepSet : gmap string bool := ∅ in
  let n := min count (Z.of_nat (length sorted)) in
  CountRetentionPolicy (keepSet_loop (length sorted) 0 n sorted keepSet).

(** [ShouldKeep]; [now] is the value of [time.Now()] read by the call. *)
Fixpoint ShouldKeep (now : time.Time) (p : RetentionPolicy) (tag : Tag) {struct p} : bool :=
  match p with
  | CountRetentionPolicy keepSet =>
      (* a missing key reads as the zero value *)
      default false (keepSet !! Name tag)
  | DaysRetentionPolicy days =>
      let cutoff := time.AddDays now (- days) in
      time.After (LastUpdated tag) cutoff
  | CompositePolicy policies mode =>
      match policies with
      | [] => true
      | _ =>
          if mode =? PolicyModeOR then
            existsb (fun policy => ShouldKeep now policy tag) policies
          else if mode =? PolicyModeAND then
            forallb (fun policy => ShouldKeep now policy tag) policies
          else false
      end
  end.

(** [strings.Join]. *)
Fixpoint strings_Join (elems : list string) (sep : string) : string :=
  match elems with
  | [] => ""
  | [e] => e
  | e :: rest => e +:+ sep +:+ strings_Join rest sep
  end.

Fixpoint PolicyName (p : RetentionPolicy) : string :=
  match p with
  | CountRetentionPolicy _ => "count"
  | DaysRetentionPolicy _ => "days"
  | CompositePolicy policies mode =>
      let names := map PolicyName policies in
      let mode := if mode =? PolicyModeAND then "AND" else "OR" in
      strings_Join names (" " +:+ mode +:+ " ")
  end.

(** ** [internal/filter] *)

(** A compiled [*regexp.Regexp], as the two methods the program calls. *)
Record Regexp := mkRegexp {
  MatchString : string -> bool;
  ReplaceAllString : string -> string -> string
}.

(** The three implementations of the [TagFilter] interface. *)
Inductive TagFilter : Type :=
| RegexFilter (pattern : Regexp) (invert : bool)
| CompositeFilter (filters : list TagFilter)
| AlwaysMatchFilter.

Fixpoint Matches (f : TagFilter) (tag : string) {struct f} : bool :=
  match f with
  | RegexFilter pattern invert =>
      let matches := MatchString pattern tag in
      if invert then negb matches else matches
  | CompositeFilter filters =>
      forallb (fun filter => Matches filter tag) filters
  | AlwaysMatchFilter => true
  end.

Definition FilterTags (tags : list Tag) (filter : option TagFilter) : list Tag :=
  match filter with
  | None => tags
  | Some f => List.filter (fun tag => Matches f (Name tag)) tags
  end.

(** ** [internal/sort] *)

(** The library functions the sorters call: [sort.Slice] (on a slice of
    tags, with [less] given on elements rather than on indices), and
    [semver.IsValid] / [semver.Compare] of golang.org/x/mod. *)
Record GoLib := mkGoLib {
  sort_Slice : (Tag -> Tag -> bool) -> list Tag -> list Tag;
  semver_IsValid : string -> bool;
  semver_Compare : string -> string -> Z
}.

(** The two implementations of the [TagSorter] interface. *)
Inductive TagSorter : Type :=
| LexicographicalSorter
| SemverSorter (stripPrefixPattern : option Regexp).

Definition stripPrefix (stripPrefixPattern : option Regexp) (v : string) : string :=
  match stripPrefixPattern with
  | Some re => ReplaceAllString re v ""
  | None => v
  end.

Definition normalizeVersion (v : string) : string :=
  if negb (String.prefix "v" v) then "v" +:+ v else v.

(** [less] of the lexicographical sorter: [sorted[i].Name > sorted[j].Name]. *)
Definition lexLess (a b : Tag) : bool := String.ltb (Name b) (Name a).

(** The normalized version string the semver sorter compares. *)
Definition semverKey (pat : option Regexp) (t : Tag) : string :=
  normalizeVersion (stripPrefix pat (Name t)).

(** [less] of the semver sorter: [semver.Compare(v1, v2) > 0]. *)
Definition semverLess (L : GoLib) (pat : option Regexp) (a b : Tag) : bool :=
  let v1 := semverKey pat a in
  let v2 := semverKey pat b in
  semver_Compare L v1 v2 >? 0.

(** The first loop of [SemverSorter.Sort]. *)
Fixpoint semverSplit (L : GoLib) (pat : option Regexp) (tags : list Tag)
    (semverTags nonSemverTags : list Tag) : list Tag * list Tag :=
  match tags with
  | [] => (semverTags, nonSemverTags)
  | tag :: rest =>
      let stripped := stripPrefix pat (Name tag) in
      let normalized := normalizeVersion stripped in
      if semver_IsValid L normalized
      then semverSplit L pat rest (semverTags ++ [tag]) nonSemverTags
      else semverSplit L pat rest semverTags (nonSemverTags ++ [tag])
  end.

Definition Sort (L : GoLib) (s : TagSorter) (tags : list Tag) : list Tag :=
  match s with
  | LexicographicalSorter =>
      let sorted := tags in (* make + copy *)
      sort_Slice L lexLess sorted
  | SemverSorter pat =>
      let '(semverTags, nonSemverTags) := semverSplit L pat tags [] [] in
      let semverTags := sort_Slice L (semverLess L pat) semverTags in
      let nonSemverTags := sort_Slice L lexLess nonSemverTags in
      semverTags ++ nonSemverTags
  end.

(** ** [golang.org/x/time/rate], as far as [NewClient] configures it *)

Module rate.
(** Events per second; [Inf] allows every event. *)
Inductive Limit : Type :=
| Inf
| PerSecond (events : Q).

(** [rate.Every]: the limit that spaces events [interval] apart. *)
Definition Every (interval : time.Duration) : Limit :=
  if interval <=? 0 then Inf
  else PerSecond (Qinv (Qmake interval (Z.to_pos time.Second))).

(** A token bucket of size [burst], refilled at [limit] tokens per second. *)
Record Limiter := mkLimiter {
  limit : Limit;
  burst : Z
}.

Definition NewLimiter (r : Limit) (b : Z) : Limiter := mkLimiter r b.
End rate.

(** ** [net/http] *)

Module http.
Definition StatusOK : Z := 200.
Definition StatusNoContent : Z := 204.
Definition StatusUnauthorized : Z := 401.
Definition StatusNotFound : Z := 404.
Definition StatusTooManyRequests : Z := 429.
End http.

Record Request := mkRequest {
  Method : string;
  URL : string;
  Header : gmap string string;
  RequestBody : option string
}.

Record Response := mkResponse {
  StatusCode : Z;
  Body : string
}.

(** What [httpClient.Do] returns: a response, or a connection-level error. *)
Inductive RoundTrip : Type :=
| Reply (resp : Response)
| ConnError (err : string).

Definition NewRequest (method url : string) (body : option string) : Request :=
  mkRequest method url ∅ body.

Definition Header_Set (req : Request) (key value : string) : Request :=
  mkRequest (Method req) (URL req) (<[key := value]> (Header req)) (RequestBody req).

(** ** The outside world *)

(** What the client does to the outside world, in program order. *)
Inductive Event : Type :=
| EvWait                       (* limiter.Wait *)
| EvDo (req : Request)         (* httpClient.Do *)
| EvSleep (d : time.Duration). (* time.Sleep *)

(** The environment of one run.  The client is sequential and
    deterministic, so the environment is given by what it answers to the
    successive calls: [roundTrip n] is the outcome of the [n]-th call of
    [httpClient.Do] (counted from 0), [permit n] the outcome of the [n]-th
    [limiter.Wait] ([None]: permit acquired; [Some e]: the context ended
    first), [clock i] the value of [time.Now()] while the [i]-th tag of the
    classification loop is examined.  The requests themselves are kept
    in the log of the [World].  The JSON codec and the URL parser are part
    of the environment: [url_Parse u] is the error of [net/url] on [u], if
    any. *)
Record Env := mkEnv {
  roundTrip : nat -> RoundTrip;
  permit : nat -> option string;
  clock : nat -> time.Time;
  url_Parse : string -> option string;
  json_MarshalLogin : LoginRequest -> string;
  json_DecodeLogin : string -> option LoginResponse;
  json_DecodeTags : string -> option TagsResponse;
  json_DecodeRepository : string -> option Repository
}.

Record World := mkWorld {
  sent : nat;          (* calls of httpClient.Do so far *)
  waited : nat;        (* calls of limiter.Wait so far *)
  log : list Event
}.

Definition initial : World := mkWorld 0 0 [].

(** ** The monad of effectful calls *)

Inductive Result (A : Type) : Type :=
| Done (a : A)
| Fail (e : Error)
| OutOfFuel.
Arguments Done {A} a.
Arguments Fail {A} e.
Arguments OutOfFuel {A}.

Definition M (A : Type) : Type := World -> Result A * World.

Definition ret {A} (a : A) : M A := fun w => (Done a, w).
Definition fail {A} (e : Error) : M A := fun w => (Fail e, w).
Definition bind {A B} (m : M A) (k : A -> M B) : M B :=
  fun w =>
    match m w with
    | (Done a, w') => k a w'
    | (Fail e, w') => (Fail e, w')
    | (OutOfFuel, w') => (OutOfFuel, w')
    end.

Declare Scope go_scope.
Delimit Scope go_scope with go.
Notation "x <- m ;; k" := (bind m (fun x => k))
  (at level 100, m at next level, right associativity) : go_scope.
Notation "m ;;; k" := (bind m (fun _ => k))
  (at level 100, right associativity) : go_scope.

Definition emit (e : Event) (w : World) : World :=
  mkWorld (sent w) (waited w) (log w ++ [e]).

(** [c.limiter.Wait(ctx)]. *)
Definition limiter_Wait (E : Env) : M unit :=
  fun w =>
    let w' := mkWorld (sent w) (S (waited w)) (log w ++ [EvWait]) in
    match permit E (waited w) with
    | None => (Done tt, w')
    | Some e => (Fail (LibraryError e), w')
    end.

(** [c.httpClient.Do(req)]. *)
Definition httpClient_Do (E : Env) (req : Request) : M RoundTrip :=
  fun w =>
    (Done (roundTrip E (sent w)),
     mkWorld (S (sent w)) (waited w) (log w ++ [EvDo req])).

(** [time.Sleep(d)]. *)
Definition time_Sleep (d : time.Duration) : M unit :=
  fun w => (Done tt, emit (EvSleep d) w).

(** [http.NewRequestWithContext(ctx, method, url, body)] for one of the
    methods GET, POST and DELETE: it fails when the URL does not parse. *)
Definition http_NewRequestWithContext (E : Env) (method url : string)
    (body : option string) : Error + Request :=
  match url_Parse E url with
  | Some err => inl (LibraryError err)
  | None => inr (NewRequest method url body)
  end.

(** ** [internal/api]: the client *)

Local Open Scope go_scope.

Definition DefaultBaseURL : string := "https://hub.docker.com/v2".
Definition DefaultPageSize : Z := 100.

Record Client := mkClient {
  baseURL : string;
  httpTimeout : time.Duration;
  token : string;
  username : string;
  limiter : rate.Limiter
}.

Definition NewClient : Client :=
  {| baseURL := DefaultBaseURL;
     httpTimeout := Int64.mul 30 time.Second;
     token := "";
     username := "";
     limiter := rate.NewLimiter (rate.Every time.Second) 5 |}.

Definition AuthenticateWithToken (c : Client) (token : string) : Client :=
  mkClient (baseURL c) (httpTimeout c) token (username c) (limiter c).

(** [%d] of [fmt]. *)
Definition fmt_d (z : Z) : string := NilZero.string_of_int (Z.to_int z).

(** The backoff loop of [doRequest], entered after a first throttled
    response: [i] is the loop counter, [n] the iterations left ([i + n = 5]). *)
Fixpoint doRequest_backoff (E : Env) (req : Request) (i : Z) (n : nat) : M Response :=
  match n with
  | O => fail ErrRateLimited
  | S n' =>
      let wait := Int64.mul (Int64.shl 1 i) time.Second in
      time_Sleep wait ;;;
      r <- httpClient_Do E req ;;
      match r with
      | ConnError err => fail (NetworkErrorf err)
      | Reply resp =>
          if negb (StatusCode resp =? http.StatusTooManyRequests)
          then ret resp
          else doRequest_backoff E req (i + 1) n'
      end
  end.

(** The request as [doRequest] sends it: with the authorization header
    when the client holds a token. *)
Definition withAuthorization (c : Client) (req : Request) : Request :=
  if negb (String.eqb (token c) "")
  then Header_Set req "Authorization" ("JWT " +:+ token c)
  else req.

Definition doRequest (E : Env) (c : Client) (req : Request) : M Response :=
  fun w =>
    match limiter_Wait E w with
    | (Fail err, w') => (Fail (Errorf "rate limiter error" err), w')
    | (OutOfFuel, w') => (OutOfFuel, w')
    | (Done _, w') =>
        let req := withAuthorization c req in
        (r <- httpClient_Do E req ;;
         match r with
         | ConnError err => fail (NetworkErrorf err)
         | Reply resp =>
             if StatusCode resp =? http.StatusTooManyRequests
             then doRequest_backoff E req 0 5
             else ret resp
         end) w'
    end.

(** [json.Marshal] does not fail on a struct of two strings: its error
    branch is left out. *)
Definition Authenticate (E : Env) (c : Client) (username password : string) : M Client :=
  let loginReq := mkLoginRequest username password in
  let body := json_MarshalLogin E loginReq in
  match http_NewRequestWithContext E "POST" (baseURL c +:+ "/users/login/") (Some body) with
  | inl err => fail (Errorf "failed to create request" err)
  | inr req =>
      let req := Header_Set req "Content-Type" "application/json" in
      resp <- doRequest E c req ;;
      if negb (StatusCode resp =? http.StatusOK) then
        fail (NewAPIError (StatusCode resp) "/users/login/" (Body resp))
      else
        match json_DecodeLogin E (Body resp) with
        | None => fail (Errorf "failed to decode login response" (LibraryError "json"))
        | Some loginResp =>
            ret (mkClient (baseURL c) (httpTimeout c) (Token loginResp) username (limiter c))
        end
  end.

Definition ListTags_url (c : Client) (repo : string) (page : Z) : string :=
  baseURL c +:+ "/repositories/" +:+ repo +:+ "/tags/?page=" +:+ fmt_d page
    +:+ "&page_size=" +:+ fmt_d DefaultPageSize.

(** One iteration of the [for] loop of [ListTags], up to the decoded page. *)
Definition ListTags_page (E : Env) (c : Client) (repo : string) (page : Z)
  : M TagsResponse :=
  let url := ListTags_url c repo page in
  match http_NewRequestWithContext E "GET" url None with
  | inl err => fail (Errorf "failed to create request" err)
  | inr req =>
      resp <- doRequest E c req ;;
      if StatusCode resp =? http.StatusNotFound then fail ErrNotFound
      else if StatusCode resp =? http.StatusUnauthorized then fail ErrUnauthorized
      else if negb (StatusCode resp =? http.StatusOK) then
        fail (NewAPIError (StatusCode resp) url (Body resp))
      else
        match json_DecodeTags E (Body resp) with
        | None => fail (Errorf "failed to decode tags response" (LibraryError "json"))
        | Some tagsResp => ret tagsResp
        end
  end.

(** The [for] loop of [ListTags]; it has no bound of its own, [fuel]
    bounds the number of iterations the model follows. *)
Fixpoint ListTags_loop (fuel : nat) (E : Env) (c : Client) (repo : string)
    (allTags : list Tag) (page : Z) : M (list Tag) :=
  match fuel with
  | O => fun w => (OutOfFuel, w)
  | S fuel' =>
      tagsResp <- ListTags_page E c repo page ;;
      let allTags := allTags ++ Results tagsResp in
      (* check if there are more pages *)
      match Next tagsResp with
      | None => ret allTags
      | Some next =>
          if String.eqb next "" then ret allTags
          else ListTags_loop fuel' E c repo allTags (Int64.add page 1)
      end
  end.

Definition ListTags (fuel : nat) (E : Env) (c : Client) (repo : string) : M (list Tag) :=
  ListTags_loop fuel E c repo [] 1.

Definition DeleteTag_url (c : Client) (repo tag : string) : string :=
  baseURL c +:+ "/repositories/" +:+ repo +:+ "/tags/" +:+ tag +:+ "/".

Definition DeleteTag (E : Env) (c : Client) (repo tag : string) : M unit :=
  let url := DeleteTag_url c repo tag in
  match http_NewRequestWithContext E "DELETE" url None with
  | inl err => fail (Errorf "failed to create request" err)
  | inr req =>
      resp <- doRequest E c req ;;
      if StatusCode resp =? http.StatusNotFound then fail ErrNotFound
      else if StatusCode resp =? http.StatusUnauthorized then fail ErrUnauthorized
      else if negb (StatusCode resp =? http.StatusNoContent)
              && negb (StatusCode resp =? http.StatusOK) then
        fail (NewAPIError (StatusCode resp) url (Body resp))
      else ret tt
  end.

Definition GetRepository_url (c : Client) (repo : string) : string :=
  baseURL c +:+ "/repositories/" +:+ repo +:+ "/".

Definition GetRepository (E : Env) (c : Client) (repo : string) : M Repository :=
  let url := GetRepository_url c repo in
  match http_NewRequestWithContext E "GET" url None with
  | inl err => fail (Errorf "failed to create request" err)
  | inr req =>
      resp <- doRequest E c req ;;
      if StatusCode resp =? http.StatusNotFound then fail ErrNotFound
      else if StatusCode resp =? http.StatusUnauthorized then fail ErrUnauthorized
      else if negb (StatusCode resp =? http.StatusOK) then
        fail (NewAPIError (StatusCode resp) url (Body resp))
      else
        match json_DecodeRepository E (Body resp) with
        | None => fail (Errorf "failed to decode repository response" (LibraryError "json"))
        | Some repository => ret repository
        end
  end.

(** ** [internal/cleaner] *)

(** The logger is left out: it has no effect on the result or on the
    transport. *)
Record Cleaner := mkCleaner {
  client : Client;
  filter : option TagFilter;
  policy : option RetentionPolicy;
  sorter : option TagSorter;
  dryRun : bool;
  verbose : bool
}.

Record CleanResult := mkCleanResult {
  TotalTags : Z;
  FilteredTags : Z;
  KeptTags : Z;
  DeletedTags : list string;
  Errors : list Error;
  TotalSize : Z;
  ReclaimedSize : Z
}.

Definition len {A} (l : list A) : Z := Z.of_nat (length l).

(** [for _, tag := range tags { acc += tag.FullSize }] on int64. *)
Fixpoint addSizes (tags : list Tag) (acc : Z) : Z :=
  match tags with
  | [] => acc
  | tag :: rest => addSizes rest (Int64.add acc (FullSize tag))
  end.

(** Step 4 of [Clean]: the loop that fills [tagsToKeep] and [tagsToDelete];
    [i] counts the tags examined so far. *)
Fixpoint classify (E : Env) (policy : option RetentionPolicy) (i : nat)
    (tags : list Tag) (tagsToKeep tagsToDelete : list Tag) : list Tag * list Tag :=
  match tags with
  | [] => (tagsToKeep, tagsToDelete)
  | tag :: rest =>
      if match policy with
         | None => false
         | Some p => ShouldKeep (clock E i) p tag
         end
      then classify E policy (S i) rest (tagsToKeep ++ [tag]) tagsToDelete
      else classify E policy (S i) rest tagsToKeep (tagsToDelete ++ [tag])
  end.

(** Steps 2 to 4 of [Clean] on a fetched tag list: the tags after the
    filter, and the keep-list and delete-list of the sorted tags. *)
Definition filtered (c : Cleaner) (tags : list Tag) : list Tag :=
  match filter c with
  | Some f => FilterTags tags (Some f)
  | None => tags
  end.

Definition sorted (L : GoLib) (c : Cleaner) (tags : list Tag) : list Tag :=
  match sorter c with
  | Some s => Sort L s tags
  | None => tags
  end.

Definition decisions (E : Env) (L : GoLib) (c : Cleaner) (tags : list Tag)
  : list Tag * list Tag :=
  classify E (policy c) 0 (sorted L c (filtered c tags)) [] [].

(** The dry-run loop of step 5. *)
Fixpoint reportDeletions (tagsToDelete : list Tag) (deleted : list string) : list string :=
  match tagsToDelete with
  | [] => deleted
  | tag :: rest => reportDeletions rest (deleted ++ [Name tag])
  end.

(** The live loop of step 5: a failed deletion is recorded and the loop
    goes on. *)
Fixpoint deleteTags (E : Env) (c : Client) (repo : string) (tagsToDelete : list Tag)
    (deleted : list string) (errors : list Error) : M (list string * list Error) :=
  match tagsToDelete with
  | [] => ret (deleted, errors)
  | tag :: rest =>
      fun w =>
        match DeleteTag E c repo (Name tag) w with
        | (Fail err, w') =>
            deleteTags E c repo rest deleted
              (errors ++ [Errorf ("failed to delete tag " +:+ Name tag) err]) w'
        | (Done _, w') =>
            deleteTags E c repo rest (deleted ++ [Name tag]) errors w'
        | (OutOfFuel, w') => (OutOfFuel, w')
        end
  end.

Definition Clean (fuel : nat) (E : Env) (L : GoLib) (c : Cleaner) (repo : string)
  : M CleanResult :=
  fun w =>
    (* Step 1: fetch all tags *)
    match ListTags fuel E (client c) repo w with
    | (Fail err, w') => (Fail (Errorf "failed to list tags" err), w')
    | (OutOfFuel, w') => (OutOfFuel, w')
    | (Done tags, w') =>
        let totalTags := len tags in
        if totalTags =? 0 then
          (Done (mkCleanResult totalTags 0 0 [] [] 0 0), w')
        else
          let totalSize := addSizes tags 0 in
          (* Step 2: apply filters *)
          let '(tags, filteredTags) :=
            match filter c with
            | Some f =>
                let filtered := FilterTags tags (Some f) in
                (filtered, len filtered)
            | None => (tags, totalTags)
            end in
          if len tags =? 0 then
            (Done (mkCleanResult totalTags filteredTags 0 [] [] totalSize 0), w')
          else
            (* Step 3: sort tags *)
            let tags :=
              match sorter c with
              | Some s => Sort L s tags
              | None => tags
              end in
            (* Step 4: determine which tags to keep/delete *)
            let '(tagsToKeep, tagsToDelete) := classify E (policy c) 0 tags [] [] in
            let keptTags := len tagsToKeep in
            let reclaimedSize := addSizes tagsToDelete 0 in
            (* Step 5: delete tags (or report in dry-run mode) *)
            if len tagsToDelete =? 0 then
              (Done (mkCleanResult totalTags filteredTags keptTags [] []
                       totalSize reclaimedSize), w')
            else if dryRun c then
              (Done (mkCleanResult totalTags filteredTags keptTags
                       (reportDeletions tagsToDelete []) []
                       totalSize reclaimedSize), w')
            else
              (r <- deleteTags E (client c) repo tagsToDelete [] [] ;;
               ret (mkCleanResult totalTags filteredTags keptTags (fst r) (snd r)
                      totalSize reclaimedSize)) w'
    end.

(* ================================================================== *)
(** * Part II: vocabulary of the properties                            *)
(* ================================================================== *)

(** ** Sizes and the classification loop *)

(** The sum of the sizes of a tag list, as an unbounded integer. *)
Definition totalSize (tags : list Tag) : Z :=
  fold_right (fun tag acc => FullSize tag + acc) 0 tags.

(** The decision of the loop body of step 4 on the [i]-th tag. *)
Definition keeps (E : Env) (policy : option RetentionPolicy) (i : nat) (tag : Tag) : bool :=
  match policy with
  | None => false
  | Some p => ShouldKeep (clock E i) p tag
  end.

(** The tags of a list on which a position-dependent test holds. *)
Fixpoint select (d : nat -> Tag -> bool) (i : nat) (tags : list Tag) : list Tag :=
  match tags with
  | [] => []
  | t :: rest => if d i t then t :: select d (S i) rest else select d (S i) rest
  end.

(** ** [sort.Slice]: what it guarantees, and an instance *)

(** [sort.Slice] only swaps elements of the slice. *)
Definition sort_Slice_permutes (L : GoLib) : Prop :=
  forall less l, Permutation (sort_Slice L less l) l.

(** The inner loop of the insertion sort of Go's [sort.Slice], on the
    sorted part read from its end: [x] moves towards the front past every
    element it is less than, and so stays behind the elements it compares
    equal to. *)
Fixpoint insertFromEnd (less : Tag -> Tag -> bool) (x : Tag) (sortedRev : list Tag)
  : list Tag :=
  match sortedRev with
  | [] => [x]
  | y :: rest => if less x y then y :: insertFromEnd less x rest else x :: y :: rest
  end.

(** The insertion sort that Go's [sort.Slice] runs on a slice of at most 12
    elements ([insertionSort_func]), as a function on lists: the elements
    are inserted from the first to the last into the sorted part. *)
Definition insertionSort (less : Tag -> Tag -> bool) (l : list Tag) : list Tag :=
  rev (fold_left (fun sortedRev x => insertFromEnd less x sortedRev) l []).

(** ** Transport: responses, requests and worlds *)

(** A throttling response. *)
Definition throttled (r : RoundTrip) : bool :=
  match r with
  | Reply resp => StatusCode resp =? http.StatusTooManyRequests
  | ConnError _ => false
  end.

(** What [n] rounds of the backoff loop starting at counter [i] do. *)
Fixpoint backoffEvents (req : Request) (i : Z) (n : nat) : list Event :=
  match n with
  | O => []
  | S n' =>
      [EvSleep (Int64.mul (Int64.shl 1 i) time.Second); EvDo req]
        ++ backoffEvents req (i + 1) n'
  end.

(** ** Proof automation *)

Ltac run_M :=
  unfold bind, ret, fail, time_Sleep, httpClient_Do, limiter_Wait, emit; simpl.

(** Closes a goal that is hypothesis [H] up to arithmetic on an index. *)
Ltac same_index H :=
  first
    [ exact H
    | match type of H with
      | context [roundTrip ?E ?a] =>
          match goal with
          | |- context [roundTrip E ?b] => replace b with a by lia; exact H
          end
      end ].

(** ** Transport: pages, and the worlds a call leaves behind *)

(** The world after a granted [limiter.Wait] and one round trip of [req]. *)
Definition afterRoundTrip (c : Client) (req : Request) (w : World) : World :=
  mkWorld (S (sent w)) (S (waited w)) (log w ++ [EvWait; EvDo (withAuthorization c req)]).

(** The page names a next page. *)
Definition hasNext (p : TagsResponse) : bool :=
  match Next p with
  | None => false
  | Some next => negb (String.eqb next "")
  end.

Definition ListTags_request (c : Client) (repo : string) (page : Z) : Request :=
  NewRequest "GET" (ListTags_url c repo page) None.

(** The page counter after [k] increments. *)
Fixpoint pageAfter (page : Z) (k : nat) : Z :=
  match k with
  | O => page
  | S k' => pageAfter (Int64.add page 1) k'
  end.

(** The [i]-th fetch after [w] of a listing that starts at page number
    [page] goes well: its URL parses, it is granted a permit, and its round
    trip is answered with status 200 and a body that decodes to [p]. *)
Definition servesPage (E : Env) (c : Client) (repo : string) (page : Z)
    (w : World) (i : nat) (p : TagsResponse) : Prop :=
  url_Parse E (ListTags_url c repo (pageAfter page i)) = None
  /\ permit E (waited w + i) = None
  /\ exists resp, roundTrip E (sent w + i) = Reply resp
                  /\ StatusCode resp = http.StatusOK
                  /\ json_DecodeTags E (Body resp) = Some p.

(** The world after [k] pages were fetched with one round trip each. *)
Fixpoint afterPages (c : Client) (repo : string) (page : Z) (k : nat) (w : World) : World :=
  match k with
  | O => w
  | S k' =>
      afterPages c repo (Int64.add page 1) k'
        (afterRoundTrip c (ListTags_request c repo page) w)
  end.

(** ** Transport: the requests in the log *)

Definition isDeleteCall (e : Event) : bool :=
  match e with
  | EvDo req => String.eqb (Method req) "DELETE"
  | _ => false
  end.

(** The number of DELETE requests sent so far. *)
Definition deleteCalls (evs : list Event) : nat :=
  length (List.filter isDeleteCall evs).

(** [w'] extends the log of [w] with events that send no request but [req]. *)
Definition sendsOnly (req : Request) (w w' : World) : Prop :=
  exists evs, log w' = log w ++ evs
              /\ Forall (fun e => forall r, e = EvDo r -> r = req) evs.

(** ** Transport: status codes *)

(** The error that [ListTags], [DeleteTag] and [GetRepository] return for a
    status that is not a success. *)
Definition errorOfStatus (status : Z) (url body : string) : Error :=
  if status =? http.StatusUnauthorized then ErrUnauthorized
  else if status =? http.StatusNotFound then ErrNotFound
  else APIError status body url.

Definition DeleteTag_request (c : Client) (repo tag : string) : Request :=
  NewRequest "DELETE" (DeleteTag_url c repo tag) None.

Definition GetRepository_request (c : Client) (repo : string) : Request :=
  NewRequest "GET" (GetRepository_url c repo) None.

Definition Authenticate_request (E : Env) (c : Client) (username password : string) : Request :=
  Header_Set
    (NewRequest "POST" (baseURL c +:+ "/users/login/")
       (Some (json_MarshalLogin E (mkLoginRequest username password))))
    "Content-Type" "application/json".

(** ** An environment to run the model in *)

(** An environment that answers the successive round trips with the
    responses of [script] and then drops the connection; it grants every
    permit, its clock stands at [now], every URL parses, and its JSON
    decoders read the bodies listed in [pages]. *)
Definition scriptedEnv (script : list RoundTrip) (now : time.Time)
    (pages : list (string * TagsResponse)) : Env :=
  {| roundTrip := fun n => nth n script (ConnError "EOF");
     permit := fun _ => None;
     clock := fun _ => now;
     url_Parse := fun _ => None;
     json_MarshalLogin := fun r => Username r +:+ ":" +:+ Password r;
     json_DecodeLogin := fun body => Some (mkLoginResponse body);
     json_DecodeTags := fun body =>
       snd <$> List.find (fun p => String.eqb (fst p) body) pages;
     json_DecodeRepository := fun _ => None |}.

(** ** Orderings and stability *)

(** What [sort.Slice] asks of [less]: a strict weak ordering. *)
Definition strictWeakOrder {A} (less : A -> A -> bool) : Prop :=
  (forall a, less a a = false)
  /\ (forall a b c, less a b = true -> less b c = true -> less a c = true)
  /\ (forall a b c, less a b = false -> less b c = false -> less a c = false).

(** No element is less than one that stands before it. *)
Definition ordered {A} (less : A -> A -> bool) (l : list A) : Prop :=
  StronglySorted (fun a b => less b a = false) l.

(** What [sort.Slice] promises: the slice is rearranged, and ends ordered
    by [less].  It promises nothing on the order of equal elements. *)
Record sort_Slice_contract (L : GoLib) : Prop := {
  contract_permutes : sort_Slice_permutes L;
  contract_orders :
    forall less l, strictWeakOrder less -> ordered less (sort_Slice L less l)
}.

(** Two elements that [less] does not tell apart. *)
Definition equivBy {A} (less : A -> A -> bool) (a b : A) : bool :=
  negb (less a b) && negb (less b a).

(** [output] keeps the elements that compare equal in the order they have
    in [input]. *)
Definition stable {A} (less : A -> A -> bool) (input output : list A) : Prop :=
  forall x, List.filter (equivBy less x) output = List.filter (equivBy less x) input.

(** No two elements of [l] compare equal. *)
Definition noTies {A} (less : A -> A -> bool) (l : list A) : Prop :=
  List.NoDup l
  /\ forall a b, In a l -> In b l -> equivBy less a b = true -> a = b.

(** The library [L] with another implementation of [sort.Slice]. *)
Definition withSort (L : GoLib) (srt : (Tag -> Tag -> bool) -> list Tag -> list Tag)
  : GoLib :=
  mkGoLib srt (semver_IsValid L) (semver_Compare L).

(** Versions ordered as strings: an ordering to run the semver sorter with. *)
Definition stringCompare (v w : string) : Z :=
  match String.compare v w with
  | Lt => -1
  | Eq => 0
  | Gt => 1
  end.

(** A library to run the model with: its [sort.Slice] is the insertion
    sort above, which is what Go's [sort.Slice] does on slices of at most
    12 elements; its semver package accepts every version and orders
    versions as strings, as golang.org/x/mod/semver does for the versions
    [vX.Y.Z] with numbers of one digit. *)
Definition exampleLib : GoLib :=
  mkGoLib insertionSort (fun _ => true) stringCompare.

(** ** A run on three tags *)

(** Days since the epoch, as an instant. *)
Definition onDay (d : Z) : time.Time := d * time.Day.

(** A (2024-06-01, 100 bytes), B and C (2020-01-01, 200 and 300 bytes). *)
Definition tagA : Tag := mkTag "A" (onDay 19875) 100 [].
Definition tagB : Tag := mkTag "B" (onDay 18262) 200 [].
Definition tagC : Tag := mkTag "C" (onDay 18262) 300 [].

(** The server returns A and B on a first page, C on a second and last one. *)
Definition page1 : TagsResponse := mkTagsResponse 3 (Some "p2") None [tagA; tagB].
Definition page2 : TagsResponse := mkTagsResponse 3 None (Some "p1") [tagC].

Definition examplePages : list (string * TagsResponse) :=
  [("p1", page1); ("p2", page2)].

(** The run takes place on 2024-06-10. *)
Definition exampleEnv : Env :=
  scriptedEnv [Reply (mkResponse 200 "p1"); Reply (mkResponse 200 "p2")]
    (onDay 19884) examplePages.

(** Keep what is younger than 90 days, or first in descending name order. *)
Definition examplePolicy : RetentionPolicy :=
  NewCompositePolicy PolicyModeOR
    [NewDaysRetentionPolicy 90; NewCountRetentionPolicy 1 [tagC; tagB; tagA]].

Definition exampleCleaner (dry : bool) : Cleaner :=
  mkCleaner NewClient None (Some examplePolicy) (Some LexicographicalSorter) dry false.

Definition exampleRequest : Request := NewRequest "GET" "https://hub.docker.com/v2/x" None.

(* ================================================================== *)
(** * Part II (continued): the command line and the rest of the code   *)
(* ================================================================== *)

(** ** [internal/filter], [internal/sort]: constructors *)

(** [regexp.Compile]: the error of the pattern, or the compiled pattern. *)
Definition Compiler := string -> string + Regexp.

Definition NewRegexFilter (regexp_Compile : Compiler) (pattern : string) (invert : bool)
  : Error + TagFilter :=
  match regexp_Compile pattern with
  | inl err => inl (Errorf "failed to compile regex pattern" (LibraryError err))
  | inr re => inr (RegexFilter re invert)
  end.

Definition NewCompositeFilter (filters : list TagFilter) : TagFilter :=
  CompositeFilter filters.

Definition NewLexicographicalSorter : TagSorter := LexicographicalSorter.

Definition NewSemverSorter (regexp_Compile : Compiler) (stripPrefixPattern : string)
  : Error + TagSorter :=
  if negb (String.eqb stripPrefixPattern "") then
    match regexp_Compile stripPrefixPattern with
    | inl err => inl (LibraryError err)
    | inr re => inr (SemverSorter (Some re))
    end
  else inr (SemverSorter None).

(** ** [formatSize]: the choice of the unit *)

(** The loop [for n := bytes / unit; n >= unit; n /= unit] of [formatSize],
    which computes [div] and [exp]; [None] when the model's [fuel] ends. *)
Fixpoint formatSize_loop (fuel : nat) (n div exp : Z) : option (Z * Z) :=
  match fuel with
  | O => None
  | S fuel' =>
      if n >=? 1024
      then formatSize_loop fuel' (Z.quot n 1024) (Int64.mul div 1024) (Int64.add exp 1)
      else Some (div, exp)
  end.

(** ["KMGTPE"[exp]]: [None] is the index-out-of-range panic. *)
Definition formatSize_unit (exp : Z) : option ascii :=
  if exp <? 0 then None else String.get (Z.to_nat exp) "KMGTPE".

(** [float64(z)] for an int64 [z]: [z] itself when it has at most 53
    significant bits, else the nearest number with 53 significant bits,
    ties to the even one; the result is an integer. *)
Definition float64_of_int64 (z : Z) : Z :=
  let m := Z.abs z in
  if m <? 2 ^ 53 then z
  else
    let e := Z.log2 m - 52 in
    let q := m / 2 ^ e in
    let r := m mod 2 ^ e in
    let q' := if (2 ^ (e - 1) <? r) || ((r =? 2 ^ (e - 1)) && Z.odd q) then q + 1 else q in
    Z.sgn z * (q' * 2 ^ e).

(** The number of tenths that ["%.1f"] prints for the float64 [num / den],
    where [num] is not negative and [den] is a power of two (dividing a
    float64 by a power of two is exact): the nearest one, ties to the even
    one. *)
Definition roundTenths (num den : Z) : Z :=
  let q := (10 * num) / den in
  let r := (10 * num) mod den in
  if (den <? 2 * r) || ((2 * r =? den) && Z.odd q) then q + 1 else q.

(** [fmt.Sprintf("%.1f", float64(num) / float64(den))] for such numbers. *)
Definition fmt_1f (num den : Z) : string :=
  let tenths := roundTenths num den in
  fmt_d (tenths / 10) +:+ "." +:+ fmt_d (tenths mod 10).

(** What a call of [formatSize] gives: the text, or the index-out-of-range
    panic of ["KMGTPE"[exp]]. *)
Inductive SizeText : Type :=
| Text (text : string)
| IndexPanic
| SizeOutOfFuel.

Definition formatSize (bytes : Z) : SizeText :=
  if bytes <? 1024 then Text (fmt_d bytes +:+ " B")
  else
    match formatSize_loop 64 (Z.quot bytes 1024) 1024 0 with
    | None => SizeOutOfFuel
    | Some (div, exp) =>
        match formatSize_unit exp with
        | None => IndexPanic
        | Some c =>
            Text (fmt_1f (float64_of_int64 bytes) (float64_of_int64 div)
                    +:+ " " +:+ String c "B")
        end
    end.

(** ** [cmd/docker-hub-cleaner]: [run] *)

(** The flags of the command. *)
Record Flags := mkFlags {
  flag_username : string;
  flag_password : string;
  flag_token : string;
  flag_repository : string;
  flag_keepDays : Z;
  flag_keepCount : Z;
  flag_sortMethod : string;
  flag_tagPattern : string;
  flag_excludePattern : string;
  flag_stripPrefix : string;
  flag_dryRun : bool;
  flag_verbose : bool;
  flag_concurrency : Z
}.

(** What [run] calls besides the client: [viper.GetString] and
    [regexp.Compile]. *)
Record Cli := mkCli {
  viper_GetString : string -> string;
  regexp_Compile : Compiler
}.

(** The errors [run] returns: a message of its own, or an error it wraps. *)
Inductive RunError : Type :=
| UsageError (msg : string)
| RunErrorf (msg : string) (err : Error).

Inductive RunResult : Type :=
| RunDone (result : CleanResult)
| RunFail (e : RunError)
| RunOutOfFuel.

(** "Setup filter". *)
Definition run_filter (cli : Cli) (fl : Flags) : RunError + option TagFilter :=
  let filters : list TagFilter := [] in
  match
    (if negb (String.eqb (flag_tagPattern fl) "") then
       match NewRegexFilter (regexp_Compile cli) (flag_tagPattern fl) false with
       | inl err => inl (RunErrorf "invalid tag pattern" err)
       | inr f => inr (filters ++ [f])
       end
     else inr filters)
  with
  | inl e => inl e
  | inr filters =>
      match
        (if negb (String.eqb (flag_excludePattern fl) "") then
           match NewRegexFilter (regexp_Compile cli) (flag_excludePattern fl) true with
           | inl err => inl (RunErrorf "invalid exclude pattern" err)
           | inr f => inr (filters ++ [f])
           end
         else inr filters)
      with
      | inl e => inl e
      | inr filters =>
          if 0 <? len filters then inr (Some (NewCompositeFilter filters))
          else inr None
      end
  end.

(** "Setup sorter". *)
Definition run_sorter (cli : Cli) (fl : Flags) : RunError + TagSorter :=
  if String.eqb (flag_sortMethod fl) "lexicographical" then
    inr NewLexicographicalSorter
  else if String.eqb (flag_sortMethod fl) "semver" then
    match NewSemverSorter (regexp_Compile cli) (flag_stripPrefix fl) with
    | inl err => inl (RunErrorf "invalid strip-prefix pattern" err)
    | inr s => inr s
    end
  else
    inl (UsageError ("invalid sort method: " +:+ flag_sortMethod fl
                       +:+ " (must be 'lexicographical' or 'semver')")).

(** "Setup retention policy". *)
Definition run_policy (fl : Flags) (sortedTags : list Tag) : RetentionPolicy :=
  let policies : list RetentionPolicy := [] in
  let policies :=
    if 0 <? flag_keepDays fl
    then policies ++ [NewDaysRetentionPolicy (flag_keepDays fl)]
    else policies in
  let policies :=
    if 0 <? flag_keepCount fl
    then policies ++ [NewCountRetentionPolicy (flag_keepCount fl) sortedTags]
    else policies in
  match policies with
  | [p] => p
  | _ => NewCompositePolicy PolicyModeOR policies
  end.

(** [run], from the credentials to the call of [Clean]; the logger and the
    printed summary are left out, the result of [Clean] is returned
    instead. *)
Definition run (fuel : nat) (E : Env) (L : GoLib) (cli : Cli) (fl : Flags)
  : World -> RunResult * World :=
  fun w =>
    (* get credentials from flags or environment *)
    let username :=
      if String.eqb (flag_username fl) "" then viper_GetString cli "username"
      else flag_username fl in
    let password :=
      if String.eqb (flag_password fl) "" then viper_GetString cli "password"
      else flag_password fl in
    let token :=
      if String.eqb (flag_token fl) "" then viper_GetString cli "token"
      else flag_token fl in
    if String.eqb token "" && (String.eqb username "" || String.eqb password "") then
      (RunFail (UsageError "either --token or --username/--password must be provided"), w)
    else if String.eqb (flag_repository fl) "" then
      (RunFail (UsageError "--repository is required"), w)
    else if (flag_keepDays fl =? 0) && (flag_keepCount fl =? 0) then
      (RunFail (UsageError
         "at least one retention policy (--keep-days or --keep-count) must be specified"), w)
    else
      let client := NewClient in
      (* authenticate *)
      match
        (if negb (String.eqb token "") then (Done (AuthenticateWithToken client token), w)
         else Authenticate E client username password w)
      with
      | (Fail err, w1) => (RunFail (RunErrorf "authentication failed" err), w1)
      | (OutOfFuel, w1) => (RunOutOfFuel, w1)
      | (Done client, w1) =>
          match run_filter cli fl with
          | inl e => (RunFail e, w1)
          | inr tagFilter =>
              match run_sorter cli fl with
              | inl e => (RunFail e, w1)
              | inr sorter =>
                  (* fetch and sort tags first (needed for count policy) *)
                  match ListTags fuel E client (flag_repository fl) w1 with
                  | (Fail err, w2) => (RunFail (RunErrorf "failed to list tags" err), w2)
                  | (OutOfFuel, w2) => (RunOutOfFuel, w2)
                  | (Done allTags, w2) =>
                      let allTags :=
                        match tagFilter with
                        | Some f => FilterTags allTags (Some f)
                        | None => allTags
                        end in
                      let sortedTags := Sort L sorter allTags in
                      let retentionPolicy := run_policy fl sortedTags in
                      let c := mkCleaner client tagFilter (Some retentionPolicy)
                                 (Some sorter) (flag_dryRun fl) (flag_verbose fl) in
                      match Clean fuel E L c (flag_repository fl) w2 with
                      | (Fail err, w3) => (RunFail (RunErrorf "cleaning failed" err), w3)
                      | (OutOfFuel, w3) => (RunOutOfFuel, w3)
                      | (Done result, w3) => (RunDone result, w3)
                      end
                  end
              end
          end
      end.

(** ** Vocabulary for the deletions of a run *)

(** From [w] to [w'] the only requests sent are DELETE requests for tags of
    [del]. *)
Definition deletesOnly (c : Client) (repo : string) (del : list Tag) (w w' : World) : Prop :=
  exists evs,
    log w' = log w ++ evs
    /\ Forall (fun e => forall r, e = EvDo r ->
                 exists t, In t del
                           /\ r = withAuthorization c (DeleteTag_request c repo (Name t))) evs.

(** The server of the run on three tags, which then accepts a first
    deletion, answers 404 to a second one and drops the connection at a
    third. *)
Definition liveEnv : Env :=
  scriptedEnv [Reply (mkResponse 200 "p1"); Reply (mkResponse 200 "p2");
               Reply (mkResponse 204 ""); Reply (mkResponse 404 "gone")]
    (onDay 19884) examplePages.

(** ** Vocabulary for [run] *)

(** The name of the tag is one of [names]. *)
Definition namedIn (names : list string) (tag : Tag) : bool :=
  existsb (String.eqb (Name tag)) names.

(** The credentials [run] goes on with: a flag, or else the configuration. *)
Definition credential (cli : Cli) (flag key : string) : string :=
  if String.eqb flag "" then viper_GetString cli key else flag.

(** A stand-in for [regexp.Compile] to run the model with: it rejects the
    pattern "(" and reads every other pattern as a literal, which matches
    the names that start with it. *)
Definition exampleCompile : Compiler :=
  fun pattern =>
    if String.eqb pattern "(" then inl "missing closing )"
    else inr (mkRegexp (fun s => String.prefix pattern s) (fun s _ => s)).

Definition exampleCli : Cli := mkCli (fun _ => "") exampleCompile.

(** [--token t --repository user/app --keep-count 1 --dry-run]. *)
Definition exampleFlags : Flags :=
  mkFlags "" "" "t" "user/app" 0 1 "lexicographical" "" "" "" true false 5.

(** A server on which the tags A and B appear between the two listings of
    a run: the first listing is the page of C alone, the second one the
    two pages of the run on three tags. *)
Definition snapshotEnv : Env :=
  scriptedEnv [Reply (mkResponse 200 "p2");
               Reply (mkResponse 200 "p1"); Reply (mkResponse 200 "p2")]
    (onDay 19884) examplePages.

(** The last part of [run], from "Fetch and sort tags first" on, for the
    client, the filter and the sorter that the first part has set up. *)
Definition afterSetup (fuel : nat) (E : Env) (L : GoLib) (fl : Flags)
    (client : Client) (tagFilter : option TagFilter) (sorter : TagSorter)
  : World -> RunResult * World :=
  fun w1 =>
    match ListTags fuel E client (flag_repository fl) w1 with
    | (Fail err, w2) => (RunFail (RunErrorf "failed to list tags" err), w2)
    | (OutOfFuel, w2) => (RunOutOfFuel, w2)
    | (Done allTags, w2) =>
        let sortedTags := Sort L sorter (FilterTags allTags tagFilter) in
        let c := mkCleaner client tagFilter (Some (run_policy fl sortedTags))
                   (Some sorter) (flag_dryRun fl) (flag_verbose fl) in
        match Clean fuel E L c (flag_repository fl) w2 with
        | (Fail err, w3) => (RunFail (RunErrorf "cleaning failed" err), w3)
        | (OutOfFuel, w3) => (RunOutOfFuel, w3)
        | (Done result, w3) => (RunDone result, w3)
        end
    end.

(** The server of the run on three tags when the tags are listed twice, as
    [run] does, before the deletions. *)
Definition twiceEnv : Env :=
  scriptedEnv [Reply (mkResponse 200 "p1"); Reply (mkResponse 200 "p2");
               Reply (mkResponse 200 "p1"); Reply (mkResponse 200 "p2");
               Reply (mkResponse 204 ""); Reply (mkResponse 404 "gone")]
    (onDay 19884) examplePages.

(** ** Vocabulary for the properties of the rest of the code *)

(** Whether a tag name passes the patterns of the command line. *)
Definition passesPatterns (cli : Cli) (fl : Flags) (name : string) : bool :=
  (if String.eqb (flag_tagPattern fl) "" then true
   else match regexp_Compile cli (flag_tagPattern fl) with
        | inr re => MatchString re name
        | inl _ => false
        end)
  && (if String.eqb (flag_excludePattern fl) "" then true
      else match regexp_Compile cli (flag_excludePattern fl) with
           | inr re => negb (MatchString re name)
           | inl _ => false
           end).

(** The number of tags a count policy is built to keep. *)
Definition keptCount (N : Z) (sorted : list Tag) : nat :=
  Z.to_nat (Z.min N (Z.of_nat (length sorted))).

(** The world after a refused [limiter.Wait]. *)
Definition afterRefusal (w : World) : World :=
  mkWorld (sent w) (S (waited w)) (log w ++ [EvWait]).

(** An environment like [scriptedEnv] whose limiter refuses every permit. *)
Definition cancelledEnv (script : list RoundTrip) : Env :=
  {| roundTrip := roundTrip (scriptedEnv script 0 []);
     permit := fun _ => Some "context canceled";
     clock := fun _ => 0;
     url_Parse := fun _ => None;
     json_MarshalLogin := json_MarshalLogin (scriptedEnv script 0 []);
     json_DecodeLogin := json_DecodeLogin (scriptedEnv script 0 []);
     json_DecodeTags := json_DecodeTags (scriptedEnv script 0 []);
     json_DecodeRepository := json_DecodeRepository (scriptedEnv script 0 []) |}.

(** A server that answers every request with the first page of the run
    on three tags, which names a next page. *)
Definition endlessEnv : Env :=
  {| roundTrip := fun _ => Reply (mkResponse 200 "p1");
     permit := fun _ => None;
     clock := fun _ => 0;
     url_Parse := fun _ => None;
     json_MarshalLogin := json_MarshalLogin exampleEnv;
     json_DecodeLogin := json_DecodeLogin exampleEnv;
     json_DecodeTags := json_DecodeTags exampleEnv;
     json_DecodeRepository := json_DecodeRepository exampleEnv |}.

(** ** Vocabulary for the requests of a listing *)

(** What one page of a listing does to the outside world when its request
    is re-sent [k] times: one wait, the request, and the [k] re-sends, each
    after its sleep. *)
Definition pageEvents (c : Client) (repo : string) (page : Z) (k : nat) : list Event :=
  let req := withAuthorization c (ListTags_request c repo page) in
  [EvWait; EvDo req]
    ++ flat_map (fun seconds => [EvSleep (seconds * time.Second); EvDo req])
         (firstn k [1; 2; 4; 8; 16]).

(** The events of the consecutive pages from [page] on, [ks] giving the
    number of re-sends of each page. *)
Fixpoint listingEvents (c : Client) (repo : string) (page : Z) (ks : list nat)
  : list Event :=
  match ks with
  | [] => []
  | k :: rest => pageEvents c repo page k ++ listingEvents c repo (page + 1) rest
  end.

(** A server that throttles the first request for the second page of the
    run on three tags. *)
Definition throttlingEnv : Env :=
  scriptedEnv [Reply (mkResponse 200 "p1"); Reply (mkResponse 429 "");
               Reply (mkResponse 200 "p2")]
    (onDay 19884) examplePages.

(** ** Vocabulary for a live run *)

(** The calls of [DeleteTag] for the tags of [del], one after the other from
    the world [w]: each tag with the answer of its call ([None]: the call
    succeeded; [Some e]: it failed with [e]), and the world the calls
    leave. *)
Fixpoint deletionAnswers (E : Env) (c : Client) (repo : string) (del : list Tag)
    (w : World) : list (Tag * option Error) * World :=
  match del with
  | [] => ([], w)
  | tag :: rest =>
      match DeleteTag E c repo (Name tag) w with
      | (Done _, w1) =>
          let '(answers, w') := deletionAnswers E c repo rest w1 in
          ((tag, None) :: answers, w')
      | (Fail e, w1) =>
          let '(answers, w') := deletionAnswers E c repo rest w1 in
          ((tag, Some e) :: answers, w')
      | (OutOfFuel, w1) => ([], w1)
      end
  end.

(** The names of the tags whose call succeeded. *)
Definition deletedNames (answers : list (Tag * option Error)) : list string :=
  flat_map (fun a => match snd a with
                     | None => [Name (fst a)]
                     | Some _ => []
                     end) answers.

(** The errors to report for the calls that failed. *)
Definition deletionErrors (answers : list (Tag * option Error)) : list Error :=
  flat_map (fun a => match snd a with
                     | Some e => [Errorf ("failed to delete tag " +:+ Name (fst a)) e]
                     | None => []
                     end) answers.

(** ** Package [sort] of Go: [sort.Slice] *)

(** [sort.Slice] as Go implements it since version 1.19 (the program is
    built with Go 1.25): [pdqsort_func] of zsortfunc.go, a
    pattern-defeating quicksort that sorts ranges of at most 12 elements
    by insertion.  The slice is a list, indices are integers, [data.Less]
    and [data.Swap] read and exchange two positions; as in [GoLib], [less]
    is given on elements.  Every loop is followed with fuel: an index range
    of length [n] needs at most [n] iterations of each loop, and
    [pdqsort_func] at most [n + 1] nested iterations and calls. *)
Module gosort.
Section lessSwap.
Variable less : Tag -> Tag -> bool.

Definition index (data : list Tag) (i : Z) : option Tag :=
  if i <? 0 then None else data !! Z.to_nat i.

(** [data.Less(i, j)]; an index out of range would panic. *)
Definition Less (data : list Tag) (i j : Z) : bool :=
  match index data i, index data j with
  | Some x, Some y => less x y
  | _, _ => false
  end.

(** [data.Swap(i, j)]. *)
Definition Swap (data : list Tag) (i j : Z) : list Tag :=
  match index data i, index data j with
  | Some x, Some y => <[Z.to_nat i := y]> (<[Z.to_nat j := x]> data)
  | _, _ => data
  end.

(** [for j := i; j > a && data.Less(j, j-1); j-- { data.Swap(j, j-1) }]. *)
Fixpoint insertionSort_inner (fuel : nat) (data : list Tag) (a j : Z) : list Tag :=
  match fuel with
  | O => data
  | S fuel' =>
      if (a <? j) && Less data j (j - 1)
      then insertionSort_inner fuel' (Swap data j (j - 1)) a (j - 1)
      else data
  end.

(** [for i := a + 1; i < b; i++]. *)
Fixpoint insertionSort_outer (fuel : nat) (data : list Tag) (a b i : Z) : list Tag :=
  match fuel with
  | O => data
  | S fuel' =>
      if i <? b
      then insertionSort_outer fuel'
             (insertionSort_inner (Z.to_nat (i - a)) data a i) a b (i + 1)
      else data
  end.

(** [insertionSort_func] sorts [data[a:b]] by insertion. *)
Definition insertionSort_func (data : list Tag) (a b : Z) : list Tag :=
  insertionSort_outer (Z.to_nat (b - a)) data a b (a + 1).

(** [siftDown_func] implements the heap property on [data[lo:hi]]. *)
Fixpoint siftDown_func (fuel : nat) (data : list Tag) (root hi first : Z) : list Tag :=
  match fuel with
  | O => data
  | S fuel' =>
      let child := 2 * root + 1 in
      if child >=? hi then data
      else
        let child :=
          if (child + 1 <? hi) && Less data (first + child) (first + child + 1)
          then child + 1 else child in
        if negb (Less data (first + root) (first + child)) then data
        else siftDown_func fuel' (Swap data (first + root) (first + child)) child hi first
  end.

(** [for i := (hi - 1) / 2; i >= 0; i-- { siftDown_func(data, i, hi, first) }]. *)
Fixpoint heapSort_build (fuel : nat) (data : list Tag) (i hi first : Z) : list Tag :=
  match fuel with
  | O => data
  | S fuel' =>
      if i >=? 0
      then heapSort_build fuel' (siftDown_func (Z.to_nat hi) data i hi first)
             (i - 1) hi first
      else data
  end.

(** [for i := hi - 1; i >= 0; i-- { data.Swap(first, first+i); siftDown_func(data, lo, i, first) }]. *)
Fixpoint heapSort_pop (fuel : nat) (data : list Tag) (i lo first : Z) : list Tag :=
  match fuel with
  | O => data
  | S fuel' =>
      if i >=? 0
      then heapSort_pop fuel'
             (siftDown_func (Z.to_nat i) (Swap data first (first + i)) lo i first)
             (i - 1) lo first
      else data
  end.

Definition heapSort_func (data : list Tag) (a b : Z) : list Tag :=
  let first := a in
  let lo := 0 in
  let hi := b - a in
  let data := heapSort_build (S (Z.to_nat hi)) data (Z.quot (hi - 1) 2) hi first in
  heapSort_pop (S (Z.to_nat hi)) data (hi - 1) lo first.

Inductive sortedHint : Type :=
| unknownHint
| increasingHint
| decreasingHint.

(** [order2_func]: the two indices in order, and the number of swaps. *)
Definition order2_func (data : list Tag) (a b swaps : Z) : Z * Z * Z :=
  if Less data b a then (b, a, swaps + 1) else (a, b, swaps).

(** [median_func]: the index of the median of three elements. *)
Definition median_func (data : list Tag) (a b c swaps : Z) : Z * Z :=
  let '(a, b, swaps) := order2_func data a b swaps in
  let '(b, c, swaps) := order2_func data b c swaps in
  let '(a, b, swaps) := order2_func data a b swaps in
  (b, swaps).

Definition medianAdjacent_func (data : list Tag) (a swaps : Z) : Z * Z :=
  median_func data (a - 1) a (a + 1) swaps.

(** [choosePivot_func] chooses a pivot in [data[a:b]]. *)
Definition choosePivot_func (data : list Tag) (a b : Z) : Z * sortedHint :=
  let shortestNinther := 50 in
  let maxSwaps := 4 * 3 in
  let l := b - a in
  let swaps := 0 in
  let i := a + Z.quot l 4 * 1 in
  let j := a + Z.quot l 4 * 2 in
  let k := a + Z.quot l 4 * 3 in
  let '(j, swaps) :=
    if l >=? 8 then
      let '(i, j, k, swaps) :=
        if l >=? shortestNinther then
          let '(i, swaps) := medianAdjacent_func data i swaps in
          let '(j, swaps) := medianAdjacent_func data j swaps in
          let '(k, swaps) := medianAdjacent_func data k swaps in
          (i, j, k, swaps)
        else (i, j, k, swaps) in
      median_func data i j k swaps
    else (j, swaps) in
  if swaps =? 0 then (j, increasingHint)
  else if swaps =? maxSwaps then (j, decreasingHint)
  else (j, unknownHint).

(** [reverseRange_func]: [for i < j { data.Swap(i, j); i++; j-- }]. *)
Fixpoint reverseRange_loop (fuel : nat) (data : list Tag) (i j : Z) : list Tag :=
  match fuel with
  | O => data
  | S fuel' =>
      if i <? j then reverseRange_loop fuel' (Swap data i j) (i + 1) (j - 1) else data
  end.

Definition reverseRange_func (data : list Tag) (a b : Z) : list Tag :=
  reverseRange_loop (Z.to_nat (b - a)) data a (b - 1).

(** [for i < b && !data.Less(i, i-1) { i++ }]. *)
Fixpoint skipSorted (fuel : nat) (data : list Tag) (i b : Z) : Z :=
  match fuel with
  | O => i
  | S fuel' =>
      if (i <? b) && negb (Less data i (i - 1)) then skipSorted fuel' data (i + 1) b else i
  end.

(** [for j := i - 1; j >= 1; j-- { if !data.Less(j, j-1) { break }; data.Swap(j, j-1) }]. *)
Fixpoint shiftLeft (fuel : nat) (data : list Tag) (j : Z) : list Tag :=
  match fuel with
  | O => data
  | S fuel' =>
      if j >=? 1 then
        if negb (Less data j (j - 1)) then data
        else shiftLeft fuel' (Swap data j (j - 1)) (j - 1)
      else data
  end.

(** [for j := i + 1; j < b; j++ { if !data.Less(j, j-1) { break }; data.Swap(j, j-1) }]. *)
Fixpoint shiftRight (fuel : nat) (data : list Tag) (j b : Z) : list Tag :=
  match fuel with
  | O => data
  | S fuel' =>
      if j <? b then
        if negb (Less data j (j - 1)) then data
        else shiftRight fuel' (Swap data j (j - 1)) (j + 1) b
      else data
  end.

(** The loop [for j := 0; j < maxSteps; j++] of [partialInsertionSort_func];
    [steps] counts the iterations left. *)
Fixpoint partialInsertionSort_loop (steps : nat) (data : list Tag) (a b i : Z)
  : list Tag * bool :=
  match steps with
  | O => (data, false)
  | S steps' =>
      let shortestShifting := 50 in
      let i := skipSorted (Z.to_nat (b - a)) data i b in
      if i =? b then (data, true)
      else if b - a <? shortestShifting then (data, false)
      else
        let data := Swap data i (i - 1) in
        let data :=
          if i - a >=? 2 then shiftLeft (length data) data (i - 1) else data in
        let data :=
          if b - i >=? 2 then shiftRight (length data) data (i + 1) b else data in
        partialInsertionSort_loop steps' data a b i
  end.

(** [partialInsertionSort_func] partially sorts a slice; it returns true
    if the slice is sorted at the end. *)
Definition partialInsertionSort_func (data : list Tag) (a b : Z) : list Tag * bool :=
  let maxSteps := 5%nat in
  partialInsertionSort_loop maxSteps data a b (a + 1).

(** [for i <= j && data.Less(i, a) { i++ }]. *)
Fixpoint scanUp (fuel : nat) (data : list Tag) (a i j : Z) : Z :=
  match fuel with
  | O => i
  | S fuel' => if (i <=? j) && Less data i a then scanUp fuel' data a (i + 1) j else i
  end.

(** [for i <= j && !data.Less(j, a) { j-- }]. *)
Fixpoint scanDown (fuel : nat) (data : list Tag) (a i j : Z) : Z :=
  match fuel with
  | O => j
  | S fuel' =>
      if (i <=? j) && negb (Less data j a) then scanDown fuel' data a i (j - 1) else j
  end.

(** The second loop [for { ... }] of [partition_func]. *)
Fixpoint partition_loop (fuel : nat) (data : list Tag) (a i j : Z) : list Tag * Z :=
  match fuel with
  | O => (data, j)
  | S fuel' =>
      let i := scanUp (length data) data a i j in
      let j := scanDown (length data) data a i j in
      if i >? j then (data, j)
      else partition_loop fuel' (Swap data i j) a (i + 1) (j - 1)
  end.

(** [partition_func] does one quicksort partition: on return the elements
    before [newpivot] are less than the pivot, which stands at [newpivot],
    and the elements after it are not. *)
Definition partition_func (data : list Tag) (a b pivot : Z) : list Tag * Z * bool :=
  let data := Swap data a pivot in
  let i := a + 1 in
  let j := b - 1 in
  let i := scanUp (length data) data a i j in
  let j := scanDown (length data) data a i j in
  if i >? j then (Swap data j a, j, true)
  else
    let data := Swap data i j in
    let i := i + 1 in
    let j := j - 1 in
    let '(data, j) := partition_loop (length data) data a i j in
    (Swap data j a, j, false).

(** [for i <= j && !data.Less(a, i) { i++ }]. *)
Fixpoint scanUpEqual (fuel : nat) (data : list Tag) (a i j : Z) : Z :=
  match fuel with
  | O => i
  | S fuel' =>
      if (i <=? j) && negb (Less data a i) then scanUpEqual fuel' data a (i + 1) j else i
  end.

(** [for i <= j && data.Less(a, j) { j-- }]. *)
Fixpoint scanDownEqual (fuel : nat) (data : list Tag) (a i j : Z) : Z :=
  match fuel with
  | O => j
  | S fuel' =>
      if (i <=? j) && Less data a j then scanDownEqual fuel' data a i (j - 1) else j
  end.

Fixpoint partitionEqual_loop (fuel : nat) (data : list Tag) (a i j : Z) : list Tag * Z :=
  match fuel with
  | O => (data, i)
  | S fuel' =>
      let i := scanUpEqual (length data) data a i j in
      let j := scanDownEqual (length data) data a i j in
      if i >? j then (data, i)
      else partitionEqual_loop fuel' (Swap data i j) a (i + 1) (j - 1)
  end.

(** [partitionEqual_func] partitions [data[a:b]] into the elements equal
    to the pivot, followed by the elements greater than it. *)
Definition partitionEqual_func (data : list Tag) (a b pivot : Z) : list Tag * Z :=
  let data := Swap data a pivot in
  partitionEqual_loop (length data) data a (a + 1) (b - 1).

(** [bits.Len(uint(n))] for [n >= 0]. *)
Definition bits_Len (n : Z) : Z := if n <=? 0 then 0 else Z.log2 n + 1.

(** [xorshift.Next], on uint64. *)
Definition xorshift_Next (r : Z) : Z :=
  let r := Z.lxor r (Z.land (Z.shiftl r 13) (2 ^ 64 - 1)) in
  let r := Z.lxor r (Z.shiftr r 7) in
  Z.lxor r (Z.land (Z.shiftl r 17) (2 ^ 64 - 1)).

Definition nextPowerOfTwo (length : Z) : Z := Z.shiftl 1 (bits_Len length).

(** The loop [for i := 0; i < 3; i++] of [breakPatterns_func]. *)
Fixpoint breakPatterns_loop (steps : nat) (data : list Tag) (a length modulus idx : Z)
    (random i : Z) : list Tag :=
  match steps with
  | O => data
  | S steps' =>
      let random := xorshift_Next random in
      let other := Z.land random (modulus - 1) in
      let other := if other >=? length then other - length else other in
      breakPatterns_loop steps' (Swap data (idx - 1 + i) (a + other)) a length modulus idx
        random (i + 1)
  end.

(** [breakPatterns_func] scatters some elements around. *)
Definition breakPatterns_func (data : list Tag) (a b : Z) : list Tag :=
  let length := b - a in
  if length >=? 8 then
    let random := length in
    let modulus := nextPowerOfTwo length in
    let idx := a + Z.quot length 4 * 2 - 1 in
    breakPatterns_loop 3 data a length modulus idx random 0
  else data.

(** [pdqsort_func] sorts [data[a:b]]: the loop [for { ... }] and its
    recursive calls; [wasBalanced] and [wasPartitioned] are the two
    variables of the loop, true when a call begins. *)
Fixpoint pdqsort_func (fuel : nat) (data : list Tag) (a b limit : Z)
    (wasBalanced wasPartitioned : bool) : list Tag :=
  match fuel with
  | O => data
  | S fuel' =>
      let maxInsertion := 12 in
      let length := b - a in
      if length <=? maxInsertion then insertionSort_func data a b
      else if limit =? 0 then heapSort_func data a b
      else
        let '(data, limit) :=
          if negb wasBalanced then (breakPatterns_func data a b, limit - 1)
          else (data, limit) in
        let '(pivot, hint) := choosePivot_func data a b in
        let '(data, pivot, hint) :=
          match hint with
          | decreasingHint =>
              (reverseRange_func data a b, (b - 1) - (pivot - a), increasingHint)
          | _ => (data, pivot, hint)
          end in
        let '(data, sorted) :=
          match hint with
          | increasingHint =>
              if wasBalanced && wasPartitioned then partialInsertionSort_func data a b
              else (data, false)
          | _ => (data, false)
          end in
        if sorted then data
        else if (a >? 0) && negb (Less data (a - 1) pivot) then
          let '(data, mid) := partitionEqual_func data a b pivot in
          pdqsort_func fuel' data mid b limit wasBalanced wasPartitioned
        else
          let '(data, mid, alreadyPartitioned) := partition_func data a b pivot in
          let wasPartitioned := alreadyPartitioned in
          let leftLen := mid - a in
          let rightLen := b - mid in
          let balanceThreshold := Z.quot length 8 in
          if leftLen <? rightLen then
            let wasBalanced := leftLen >=? balanceThreshold in
            let data := pdqsort_func fuel' data a mid limit true true in
            pdqsort_func fuel' data (mid + 1) b limit wasBalanced wasPartitioned
          else
            let wasBalanced := rightLen >=? balanceThreshold in
            let data := pdqsort_func fuel' data (mid + 1) b limit true true in
            pdqsort_func fuel' data a mid limit wasBalanced wasPartitioned
  end.

(** [sort.Slice(x, less)]. *)
Definition Slice (data : list Tag) : list Tag :=
  let length := Z.of_nat (List.length data) in
  let limit := bits_Len length in
  pdqsort_func (S (List.length data)) data 0 length limit true true.
End lessSwap.
End gosort.

(** The library [L] with Go's [sort.Slice]. *)
Definition withGoSort (L : GoLib) : GoLib :=
  mkGoLib gosort.Slice (semver_IsValid L) (semver_Compare L).

(** ** Thirteen tags *)

(** Two tags named [a], then eleven tags in descending order of name. *)
Definition thirteenTags : list Tag :=
  mkTag "a" 0 1 [] :: mkTag "a" 0 2 []
    :: map (fun name => mkTag name 0 0 [])
         ["l"; "k"; "j"; "i"; "h"; "g"; "f"; "e"; "d"; "c"; "b"].

(** The tags [1.0.0] and [v1.0.0], which are the same version, then eleven
    later versions in descending order. *)
Definition thirteenVersions : list Tag :=
  mkTag "1.0.0" 0 1 [] :: mkTag "v1.0.0" 0 2 []
    :: map (fun name => mkTag name 0 0 [])
         ["v9.0.0"; "v8.0.0"; "v7.0.0"; "v6.0.0"; "v5.0.0"; "v4.0.0"; "v3.0.0";
          "v2.0.0"; "v1.3.0"; "v1.2.0"; "v1.1.0"].

(* ================================================================== *)
(** * Part III: properties                                             *)
(* ================================================================== *)

(** ** Arithmetic on int64 *)

Lemma Int64_wrap_in_range (z : Z) : Int64.in_range (Int64.wrap z).
Proof.
  unfold Int64.in_range, Int64.wrap, Int64.min_signed, Int64.max_signed,
    Int64.modulus, Int64.half_modulus.
  pose proof (Z.mod_pos_bound (z + 2 ^ 63) (2 ^ 64) ltac:(lia)). lia.
Qed.

Lemma Int64_wrap_small (z : Z) : Int64.in_range z -> Int64.wrap z = z.
Proof.
  unfold Int64.in_range, Int64.wrap, Int64.min_signed, Int64.max_signed,
    Int64.modulus, Int64.half_modulus.
  intros Hz. rewrite Z.mod_small by lia. lia.
Qed.

Lemma Int64_wrap_add_l (a b : Z) : Int64.wrap (Int64.wrap a + b) = Int64.wrap (a + b).
Proof.
  unfold Int64.wrap, Int64.modulus, Int64.half_modulus.
  f_equal.
  replace ((a + 2 ^ 63) mod 2 ^ 64 - 2 ^ 63 + b + 2 ^ 63)
    with ((a + 2 ^ 63) mod 2 ^ 64 + b) by lia.
  rewrite Zplus_mod_idemp_l. f_equal. lia.
Qed.

Lemma addSizes_wrap (tags : list Tag) (acc : Z) :
  Int64.wrap (addSizes tags acc) = Int64.wrap (acc + totalSize tags).
Proof.
  revert acc. induction tags as [|t tags IH]; intros acc; simpl.
  - f_equal. lia.
  - rewrite IH. unfold Int64.add. rewrite Int64_wrap_add_l. f_equal. lia.
Qed.

Lemma addSizes_in_range (tags : list Tag) (acc : Z) :
  Int64.in_range acc -> Int64.in_range (addSizes tags acc).
Proof.
  revert acc. induction tags as [|t tags IH]; intros acc Hacc; simpl; [exact Hacc|].
  apply IH, Int64_wrap_in_range.
Qed.

Lemma addSizes_0 (tags : list Tag) :
  addSizes tags 0 = Int64.wrap (totalSize tags).
Proof.
  rewrite <- (Int64_wrap_small (addSizes tags 0)).
  - rewrite addSizes_wrap. f_equal.
  - apply addSizes_in_range. vm_compute. split; discriminate.
Qed.

(** ** The count policy *)

Lemma keepSet_loop_lookup (sorted : list Tag) (n : Z) (name : string) :
  forall (steps k : nat) (keepSet : gmap string bool),
    (k + steps = length sorted)%nat ->
    default false (keepSet_loop steps (Z.of_nat k) n sorted keepSet !! name) = true <->
    (default false (keepSet !! name) = true \/
     exists j t, (k <= j)%nat /\ Z.of_nat j < n /\ sorted !! j = Some t /\ Name t = name).
Proof.
  induction steps as [|steps IH]; intros k keepSet Hlen; simpl.
  - split; [auto|]. intros [H|(j & t & Hkj & _ & Hj & _)]; [exact H|].
    apply lookup_lt_Some in Hj. lia.
  - destruct (Z.ltb_spec (Z.of_nat k) n) as [Hlt|Hge].
    + rewrite Nat2Z.id.
      destruct (lookup_lt_is_Some_2 sorted k ltac:(lia)) as [t Ht]. rewrite Ht.
      replace (Z.of_nat k + 1) with (Z.of_nat (S k)) by lia.
      rewrite IH by lia. rewrite lookup_insert.
      split.
      * intros [H|(j & u & Hkj & Hjn & Hj & Hu)].
        -- destruct (decide (Name t = name)) as [Heq|Hne].
           ++ right. exists k, t. repeat split; [lia|lia|exact Ht|exact Heq].
           ++ left. exact H.
        -- right. exists j, u. repeat split; [lia|lia|exact Hj|exact Hu].
      * intros [H|(j & u & Hkj & Hjn & Hj & Hu)].
        -- left. destruct (decide (Name t = name)); [reflexivity|exact H].
        -- destruct (decide (j = k)) as [->|Hne].
           ++ left. rewrite Ht in Hj. injection Hj as ->.
              destruct (decide (Name u = name)); [reflexivity|contradiction].
           ++ right. exists j, u. repeat split; [lia|lia|exact Hj|exact Hu].
    + split; [auto|]. intros [H|(j & t & Hkj & Hjn & _)]; [exact H|lia].
Qed.

(** The keep-set of a count policy holds exactly the names at the
    positions below [min N M] of the list given at construction. *)
Lemma NewCountRetentionPolicy_keeps (now : time.Time) (N : Z) (sorted : list Tag) (tag : Tag) :
  ShouldKeep now (NewCountRetentionPolicy N sorted) tag = true <->
  exists i t, Z.of_nat i < Z.min N (Z.of_nat (length sorted))
              /\ sorted !! i = Some t /\ Name t = Name tag.
Proof.
  unfold NewCountRetentionPolicy. cbn [ShouldKeep].
  change 0 with (Z.of_nat 0).
  rewrite (keepSet_loop_lookup sorted _ (Name tag) (length sorted) 0%nat ∅) by lia.
  rewrite lookup_empty. simpl.
  assert (Hmin : min N (Z.of_nat (length sorted)) = Z.min N (Z.of_nat (length sorted))).
  { unfold min. destruct (Z.ltb_spec N (Z.of_nat (length sorted))); lia. }
  rewrite Hmin. split.
  - intros [H|(j & t & _ & H)]; [discriminate|]. exists j, t. exact H.
  - intros (j & t & H). right. exists j, t. split; [lia|exact H].
Qed.

(** ** The classification loop *)

Lemma classify_select (E : Env) (policy : option RetentionPolicy) (tags : list Tag) :
  forall (i : nat) (keep del : list Tag),
    classify E policy i tags keep del =
    (keep ++ select (keeps E policy) i tags,
     del ++ select (fun j t => negb (keeps E policy j t)) i tags).
Proof.
  induction tags as [|t tags IH]; intros i keep del; simpl.
  - now rewrite !app_nil_r.
  - fold (keeps E policy i t). destruct (keeps E policy i t); simpl;
      rewrite IH, <- app_assoc; reflexivity.
Qed.

Lemma select_partition (d : nat -> Tag -> bool) (tags : list Tag) :
  forall i, Permutation (select d i tags ++ select (fun j t => negb (d j t)) i tags) tags.
Proof.
  induction tags as [|t tags IH]; intros i; simpl; [constructor|].
  destruct (d i t); simpl.
  - constructor. apply IH.
  - etransitivity; [symmetry; apply Permutation_middle|]. constructor. apply IH.
Qed.

Lemma select_const (f : Tag -> bool) (tags : list Tag) :
  forall i, select (fun _ => f) i tags = List.filter f tags.
Proof.
  induction tags as [|t tags IH]; intros i; simpl; [reflexivity|].
  rewrite IH. reflexivity.
Qed.

Lemma select_ext (d d' : nat -> Tag -> bool) (tags : list Tag) :
  (forall i t, d i t = d' i t) ->
  forall i, select d i tags = select d' i tags.
Proof.
  intros Hd. induction tags as [|t tags IH]; intros i; simpl; [reflexivity|].
  now rewrite Hd, IH.
Qed.

Lemma classify_partition (E : Env) (policy : option RetentionPolicy) (tags : list Tag) :
  Permutation (fst (classify E policy 0 tags [] []) ++ snd (classify E policy 0 tags [] []))
    tags.
Proof. rewrite classify_select. simpl. apply select_partition. Qed.

Lemma filtered_FilterTags (c : Cleaner) (tags : list Tag) :
  filtered c tags = FilterTags tags (filter c).
Proof. unfold filtered. destruct (filter c); reflexivity. Qed.

Lemma semverSplit_filter (L : GoLib) (pat : option Regexp) (tags : list Tag) :
  forall sv nsv,
    semverSplit L pat tags sv nsv =
    (sv ++ List.filter (fun t => semver_IsValid L (semverKey pat t)) tags,
     nsv ++ List.filter (fun t => negb (semver_IsValid L (semverKey pat t))) tags).
Proof.
  induction tags as [|t tags IH]; intros sv nsv; simpl.
  - now rewrite !app_nil_r.
  - fold (semverKey pat t). destruct (semver_IsValid L (semverKey pat t)); simpl;
      rewrite IH, <- app_assoc; reflexivity.
Qed.

Lemma filter_partition {A} (f : A -> bool) (l : list A) :
  Permutation (List.filter f l ++ List.filter (fun x => negb (f x)) l) l.
Proof.
  induction l as [|x l IH]; simpl; [constructor|].
  destruct (f x); simpl.
  - constructor. exact IH.
  - etransitivity; [symmetry; apply Permutation_middle|]. constructor. exact IH.
Qed.

Lemma Sort_permutes (L : GoLib) (s : TagSorter) (tags : list Tag) :
  sort_Slice_permutes L -> Permutation (Sort L s tags) tags.
Proof.
  intros HL. destruct s as [|pat]; simpl.
  - apply HL.
  - rewrite semverSplit_filter. simpl.
    etransitivity; [|apply (filter_partition (fun t => semver_IsValid L (semverKey pat t)))].
    apply Permutation_app; apply HL.
Qed.

Lemma sorted_permutes (L : GoLib) (c : Cleaner) (tags : list Tag) :
  sort_Slice_permutes L -> Permutation (sorted L c tags) tags.
Proof.
  intros HL. unfold sorted. destruct (sorter c); [now apply Sort_permutes|reflexivity].
Qed.

(** ** Insertion sort: an instance of [sort.Slice] to run the model with *)

Lemma insertFromEnd_perm less x l : Permutation (insertFromEnd less x l) (x :: l).
Proof.
  induction l as [|y l IH]; simpl; [reflexivity|].
  destruct (less x y); [|reflexivity].
  etransitivity; [apply perm_skip, IH|apply perm_swap].
Qed.

Lemma insertFromEnd_fold_perm less l :
  forall acc,
    Permutation (fold_left (fun sortedRev x => insertFromEnd less x sortedRev) l acc)
      (l ++ acc).
Proof.
  induction l as [|x l IH]; intros acc; cbn [fold_left app]; [reflexivity|].
  etransitivity; [apply IH|].
  etransitivity; [apply Permutation_app_head, insertFromEnd_perm|].
  symmetry. apply Permutation_middle.
Qed.

Lemma insertionSort_perm less l : Permutation (insertionSort less l) l.
Proof.
  unfold insertionSort. etransitivity; [symmetry; apply Permutation_rev|].
  etransitivity; [apply insertFromEnd_fold_perm|]. now rewrite app_nil_r.
Qed.

(** ** Retention policies *)

(** C2. A count policy built from count [N] and a list [sorted] of length
    [M] keeps a tag if and only if the tag's name stands at one of the
    first [min N M] positions of [sorted]; the decision is the same at
    every instant, and when the policy later classifies any other list
    [later], the tags it keeps there are again exactly those whose name
    is at one of these positions of [sorted]. *)
Theorem count_policy_keeps_first_names
    (N : Z) (sorted : list Tag) (now : time.Time) (tag : Tag) :
  let firstNames (t : Tag) :=
    exists i u, Z.of_nat i < Z.min N (Z.of_nat (length sorted))
                /\ sorted !! i = Some u /\ Name u = Name t in
  (ShouldKeep now (NewCountRetentionPolicy N sorted) tag = true <-> firstNames tag)
  /\ (forall (E : Env) (later : list Tag) (t : Tag),
        let d := classify E (Some (NewCountRetentionPolicy N sorted)) 0 later [] [] in
        (In t (fst d) <-> In t later /\ firstNames t)
        /\ (In t (snd d) <-> In t later /\ ~ firstNames t)).
Proof.
  intros firstNames. split; [apply NewCountRetentionPolicy_keeps|].
  intros E later t d. subst d. rewrite classify_select. simpl.
  set (p := NewCountRetentionPolicy N sorted).
  assert (Hk : forall j u, keeps E (Some p) j u = ShouldKeep 0 p u) by reflexivity.
  rewrite (select_const (fun u => ShouldKeep 0 p u)) by exact Hk.
  rewrite (select_const (fun u => negb (ShouldKeep 0 p u))).
  rewrite !filter_In, negb_true_iff.
  pose proof (NewCountRetentionPolicy_keeps 0 N sorted t) as Ht. fold p in Ht.
  fold (firstNames t) in Ht.
  split; split; intros [Hin Hd]; split; try exact Hin.
  - now apply Ht.
  - now apply Ht.
  - intros Hf. apply Ht in Hf. congruence.
  - destruct (ShouldKeep 0 p t); [|reflexivity]. exfalso. apply Hd, Ht. reflexivity.
Qed.

(** C5. A composite policy in OR mode keeps a tag if and only if its list
    of sub-policies is empty or one of them keeps the tag; in AND mode, if
    and only if all of them keep it; with no sub-policy it keeps every tag
    whatever the mode. *)
Theorem composite_policy_or_and
    (now : time.Time) (tag : Tag) (policies : list RetentionPolicy) :
  (ShouldKeep now (NewCompositePolicy PolicyModeOR policies) tag = true <->
     policies = [] \/ exists p, In p policies /\ ShouldKeep now p tag = true)
  /\ (ShouldKeep now (NewCompositePolicy PolicyModeAND policies) tag = true <->
        forall p, In p policies -> ShouldKeep now p tag = true)
  /\ (forall mode : PolicyMode, ShouldKeep now (NewCompositePolicy mode []) tag = true).
Proof.
  unfold NewCompositePolicy. split; [|split].
  - destruct policies as [|q qs]; [simpl; split; auto|].
    cbn [ShouldKeep]. change (PolicyModeOR =? PolicyModeOR) with true. cbv iota.
    rewrite existsb_exists. split.
    + intros H. right. exact H.
    + intros [H|H]; [discriminate|exact H].
  - destruct policies as [|q qs]; [simpl; split; [intros _ p []|auto]|].
    cbn [ShouldKeep]. change (PolicyModeAND =? PolicyModeOR) with false.
    change (PolicyModeAND =? PolicyModeAND) with true. cbv iota.
    rewrite forallb_forall. reflexivity.
  - intros mode. reflexivity.
Qed.

(** ** The classification stage of [Clean] *)

(** C1. Whatever the fetched tags, the filter, the sorter and the policy,
    the keep-list and the delete-list of [Clean] together are a
    rearrangement of the tags that passed the filter: every such tag is in
    one of the two lists and nothing else is; and no tag is in both lists,
    when the tags that passed the filter are pairwise distinct or the
    clock does not move during the classification. *)
Theorem classification_partitions_filtered
    (E : Env) (L : GoLib) (c : Cleaner) (tags : list Tag)
    (HL : sort_Slice_permutes L) :
  let keep := fst (decisions E L c tags) in
  let del := snd (decisions E L c tags) in
  Permutation (keep ++ del) (FilterTags tags (filter c))
  /\ (forall t, In t (FilterTags tags (filter c)) <-> In t keep \/ In t del)
  /\ (List.NoDup (FilterTags tags (filter c)) \/ (forall i j, clock E i = clock E j) ->
      forall t, In t keep -> In t del -> False).
Proof.
  intros keep del.
  assert (HP : Permutation (keep ++ del) (FilterTags tags (filter c))).
  { subst keep del. unfold decisions. rewrite <- filtered_FilterTags.
    etransitivity; [apply classify_partition|]. now apply sorted_permutes. }
  split; [exact HP|]. split.
  - intros t. rewrite <- in_app_iff. split; intros H.
    + eapply Permutation_in; [symmetry; exact HP|exact H].
    + eapply Permutation_in; [exact HP|exact H].
  - intros [Hnd|Hclock] t Hk Hd.
    + assert (Hnd' : List.NoDup (keep ++ del)).
      { eapply Permutation_NoDup; [symmetry; exact HP|exact Hnd]. }
      clear - Hnd' Hk Hd. induction keep as [|k keep IH]; [destruct Hk|].
      simpl in Hnd'. inversion Hnd' as [|? ? Hnotin Hrest]; subst.
      destruct Hk as [->|Hk].
      * apply Hnotin, in_or_app. right. exact Hd.
      * now apply IH.
    + subst keep del. unfold decisions in Hk, Hd.
      rewrite classify_select in Hk, Hd. simpl in Hk, Hd.
      assert (Hconst : forall i u, keeps E (policy c) i u = keeps E (policy c) 0 u).
      { intros i u. unfold keeps. destruct (policy c); [|reflexivity].
        now rewrite (Hclock i 0%nat). }
      rewrite (select_ext _ (fun _ => keeps E (policy c) 0)) in Hk by exact Hconst.
      rewrite (select_ext _ (fun _ u => negb (keeps E (policy c) 0 u))) in Hd
        by (intros i u; now rewrite Hconst).
      rewrite select_const in Hk.
      rewrite (select_const (fun u => negb (keeps E (policy c) 0 u))) in Hd.
      apply filter_In in Hk, Hd. destruct Hk as [_ Hk], Hd as [_ Hd].
      rewrite Hk in Hd. discriminate.
Qed.

(** ** Transport: [doRequest] *)

Lemma throttled_Reply (r : RoundTrip) :
  throttled r = true ->
  exists resp, r = Reply resp /\ (StatusCode resp =? http.StatusTooManyRequests) = true.
Proof. destruct r as [resp|e]; simpl; [eauto|discriminate]. Qed.

Lemma doRequest_backoff_exhausted (E : Env) (req : Request) :
  forall (n : nat) (i : Z) (w : World),
    (forall j, (j < n)%nat -> throttled (roundTrip E (sent w + j)) = true) ->
    doRequest_backoff E req i n w =
    (Fail ErrRateLimited,
     mkWorld (sent w + n) (waited w) (log w ++ backoffEvents req i n)).
Proof.
  induction n as [|n IH]; intros i w Hthr; simpl.
  - unfold fail. rewrite Nat.add_0_r, app_nil_r. destruct w; reflexivity.
  - run_M.
    destruct (throttled_Reply _ (Hthr 0%nat ltac:(lia))) as (resp & Hr & Hs).
    rewrite Nat.add_0_r in Hr. rewrite Hr, Hs. simpl.
    rewrite IH; simpl.
    + f_equal. f_equal; [lia|]. now rewrite <- !app_assoc.
    + intros j Hj. same_index (Hthr (S j) ltac:(lia)).
Qed.

Lemma doRequest_backoff_reply (E : Env) (req : Request) (resp : Response) :
  forall (k n : nat) (i : Z) (w : World),
    (k < n)%nat ->
    (forall j, (j < k)%nat -> throttled (roundTrip E (sent w + j)) = true) ->
    roundTrip E (sent w + k) = Reply resp ->
    StatusCode resp <> http.StatusTooManyRequests ->
    doRequest_backoff E req i n w =
    (Done resp,
     mkWorld (sent w + S k) (waited w) (log w ++ backoffEvents req i (S k))).
Proof.
  induction k as [|k IH]; intros n i w Hkn Hthr Hk Hs;
    (destruct n as [|n]; [lia|]); simpl; run_M.
  - rewrite Nat.add_0_r in Hk. rewrite Hk.
    apply Z.eqb_neq in Hs. rewrite Hs. simpl.
    f_equal. f_equal; [lia|]. now rewrite <- !app_assoc.
  - destruct (throttled_Reply _ (Hthr 0%nat ltac:(lia))) as (r0 & Hr & Hs0).
    rewrite Nat.add_0_r in Hr. rewrite Hr, Hs0. simpl.
    rewrite (IH n); simpl.
    + f_equal. f_equal; [lia|]. now rewrite <- !app_assoc.
    + lia.
    + intros j Hj. same_index (Hthr (S j) ltac:(lia)).
    + same_index Hk.
    + exact Hs.
Qed.

Lemma doRequest_unfold (E : Env) (c : Client) (req : Request) (w : World) :
  doRequest E c req w =
  match permit E (waited w) with
  | Some e =>
      (Fail (Errorf "rate limiter error" (LibraryError e)),
       mkWorld (sent w) (S (waited w)) (log w ++ [EvWait]))
  | None =>
      match roundTrip E (sent w) with
      | ConnError err => (Fail (NetworkErrorf err), afterRoundTrip c req w)
      | Reply resp =>
          if StatusCode resp =? http.StatusTooManyRequests
          then doRequest_backoff E (withAuthorization c req) 0 5 (afterRoundTrip c req w)
          else (Done resp, afterRoundTrip c req w)
      end
  end.
Proof.
  unfold doRequest, limiter_Wait, afterRoundTrip, bind, httpClient_Do, fail, ret.
  destruct (permit E (waited w)); [reflexivity|].
  cbn [sent waited log]. rewrite <- app_assoc. cbn [app].
  destruct (roundTrip E (sent w)) as [resp|err]; [|reflexivity].
  destruct (StatusCode resp =? http.StatusTooManyRequests); reflexivity.
Qed.

(** A first response that is not a throttling one is returned at once. *)
Lemma doRequest_reply (E : Env) (c : Client) (req : Request) (w : World) (resp : Response) :
  permit E (waited w) = None ->
  roundTrip E (sent w) = Reply resp ->
  StatusCode resp <> http.StatusTooManyRequests ->
  doRequest E c req w = (Done resp, afterRoundTrip c req w).
Proof.
  intros Hp Hr Hs. rewrite doRequest_unfold, Hp, Hr.
  apply Z.eqb_neq in Hs. now rewrite Hs.
Qed.

Lemma doRequest_throttled_exhausted (E : Env) (c : Client) (req : Request) (w : World) :
  permit E (waited w) = None ->
  (forall j, (j <= 5)%nat -> throttled (roundTrip E (sent w + j)) = true) ->
  doRequest E c req w =
  (Fail ErrRateLimited,
   mkWorld (sent w + 6) (S (waited w))
     (log w ++ [EvWait; EvDo (withAuthorization c req)]
            ++ backoffEvents (withAuthorization c req) 0 5)).
Proof.
  intros Hp Hthr. rewrite doRequest_unfold, Hp.
  destruct (throttled_Reply _ (Hthr 0%nat ltac:(lia))) as (r0 & Hr & Hs0).
  rewrite Nat.add_0_r in Hr. rewrite Hr, Hs0.
  rewrite doRequest_backoff_exhausted; unfold afterRoundTrip; cbn [sent waited log].
  - f_equal. f_equal; [lia|]. now rewrite <- !app_assoc.
  - intros j Hj. same_index (Hthr (S j) ltac:(lia)).
Qed.

Lemma doRequest_throttled_reply (E : Env) (c : Client) (req : Request) (w : World)
    (k : nat) (resp : Response) :
  permit E (waited w) = None ->
  (1 <= k <= 5)%nat ->
  (forall j, (j < k)%nat -> throttled (roundTrip E (sent w + j)) = true) ->
  roundTrip E (sent w + k) = Reply resp ->
  StatusCode resp <> http.StatusTooManyRequests ->
  doRequest E c req w =
  (Done resp,
   mkWorld (sent w + S k) (S (waited w))
     (log w ++ [EvWait; EvDo (withAuthorization c req)]
            ++ backoffEvents (withAuthorization c req) 0 k)).
Proof.
  intros Hp Hk Hthr Hr Hs. rewrite doRequest_unfold, Hp.
  destruct (throttled_Reply _ (Hthr 0%nat ltac:(lia))) as (r0 & Hr0 & Hs0).
  rewrite Nat.add_0_r in Hr0. rewrite Hr0, Hs0.
  destruct k as [|k]; [lia|].
  rewrite (doRequest_backoff_reply E _ resp k); unfold afterRoundTrip; cbn [sent waited log].
  - f_equal. f_equal; [lia|]. now rewrite <- !app_assoc.
  - lia.
  - intros j Hj. same_index (Hthr (S j) ltac:(lia)).
  - same_index Hr.
  - exact Hs.
Qed.

Lemma backoffEvents_delays (req : Request) (k : nat) :
  (k <= 5)%nat ->
  backoffEvents req 0 k =
  flat_map (fun seconds => [EvSleep (seconds * time.Second); EvDo req])
    (firstn k [1; 2; 4; 8; 16]).
Proof.
  intros Hk.
  do 6 (destruct k as [|k]; [reflexivity|]). lia.
Qed.

(** C4. When the first response to a request is a throttling one, the same
    request is sent again after sleeping 1 s, then 2 s, 4 s, 8 s and 16 s.
    If all five retries are throttled too, the call fails with
    [ErrRateLimited] (and returns no response); if the [k]-th retry is the
    first one to get another response, that response is the result and no
    further retry is made. *)
Theorem throttled_request_is_retried
    (E : Env) (c : Client) (req : Request) (w : World)
    (Hpermit : permit E (waited w) = None)
    (Hfirst : throttled (roundTrip E (sent w)) = true) :
  let sentReq := withAuthorization c req in
  let retry (seconds : Z) := [EvSleep (seconds * time.Second); EvDo sentReq] in
  ((forall j, (1 <= j <= 5)%nat -> throttled (roundTrip E (sent w + j)) = true) ->
   exists w',
     doRequest E c req w = (Fail ErrRateLimited, w')
     /\ log w' = log w ++ [EvWait; EvDo sentReq] ++ flat_map retry [1; 2; 4; 8; 16])
  /\ (forall (k : nat) (resp : Response),
        (1 <= k <= 5)%nat ->
        (forall j, (1 <= j < k)%nat -> throttled (roundTrip E (sent w + j)) = true) ->
        roundTrip E (sent w + k) = Reply resp ->
        StatusCode resp <> http.StatusTooManyRequests ->
        exists w',
          doRequest E c req w = (Done resp, w')
          /\ log w' = log w ++ [EvWait; EvDo sentReq]
                            ++ flat_map retry (firstn k [1; 2; 4; 8; 16])).
Proof.
  intros sentReq retry. subst sentReq retry. split.
  - intros Hall. eexists. split.
    + apply doRequest_throttled_exhausted; [exact Hpermit|].
      intros [|j] Hj; [now rewrite Nat.add_0_r|apply Hall; lia].
    + cbn [log]. now rewrite backoffEvents_delays by lia.
  - intros k resp Hk Hthr Hr Hs. eexists. split.
    + apply (doRequest_throttled_reply E c req w k resp); try assumption.
      intros [|j] Hj; [now rewrite Nat.add_0_r|apply Hthr; lia].
    + cbn [log]. now rewrite backoffEvents_delays by lia.
Qed.

(** ** Transport: [ListTags] *)

Lemma ListTags_page_served (E : Env) (c : Client) (repo : string) (page : Z)
    (w : World) (p : TagsResponse) :
  servesPage E c repo page w 0 p ->
  ListTags_page E c repo page w =
  (Done p, afterRoundTrip c (ListTags_request c repo page) w).
Proof.
  intros (Hu & Hp & resp & Hr & Hs & Hd). rewrite Nat.add_0_r in Hp, Hr.
  cbn [pageAfter] in Hu.
  unfold ListTags_page, http_NewRequestWithContext, bind. rewrite Hu.
  rewrite (doRequest_reply E c _ w resp Hp Hr) by (rewrite Hs; discriminate).
  rewrite Hs, Hd. reflexivity.
Qed.

Lemma servesPage_shift (E : Env) (c : Client) (repo : string) (page : Z)
    (req : Request) (w : World) (i : nat) (p : TagsResponse) :
  servesPage E c repo page w (S i) p ->
  servesPage E c repo (Int64.add page 1) (afterRoundTrip c req w) i p.
Proof.
  intros (Hu & Hp & resp & Hr & Hs). unfold servesPage, afterRoundTrip. cbn [sent waited].
  split; [exact Hu|]. split.
  - now replace (S (waited w) + i)%nat with (waited w + S i)%nat by lia.
  - exists resp. split; [|exact Hs].
    now replace (S (sent w) + i)%nat with (sent w + S i)%nat by lia.
Qed.

Lemma ListTags_loop_pages (E : Env) (c : Client) (repo : string) (fuel : nat) :
  forall (ps : list TagsResponse) (acc : list Tag) (page : Z) (w : World),
    (forall i p, ps !! i = Some p -> servesPage E c repo page w i p /\ hasNext p = true) ->
    ListTags_loop (length ps + fuel) E c repo acc page w =
    ListTags_loop fuel E c repo (acc ++ concat (map Results ps))
      (pageAfter page (length ps)) (afterPages c repo page (length ps) w).
Proof.
  induction ps as [|p ps IH]; intros acc page w Hps.
  - simpl. now rewrite app_nil_r.
  - destruct (Hps 0%nat p eq_refl) as [Hserved Hnext].
    cbn [length Nat.add ListTags_loop]. unfold bind at 1.
    rewrite (ListTags_page_served E c repo page w p Hserved).
    unfold hasNext in Hnext. destruct (Next p) as [next|]; [|discriminate].
    apply negb_true_iff in Hnext. rewrite Hnext.
    rewrite IH.
    + cbn [map concat pageAfter afterPages]. now rewrite app_assoc.
    + intros i q Hq. destruct (Hps (S i) q Hq) as [Hs Hn].
      split; [now apply servesPage_shift|exact Hn].
Qed.

Lemma afterPages_sent (c : Client) (repo : string) (k : nat) :
  forall (page : Z) (w : World),
    sent (afterPages c repo page k w) = (sent w + k)%nat
    /\ waited (afterPages c repo page k w) = (waited w + k)%nat.
Proof.
  induction k as [|k IH]; intros page w; simpl; [lia|].
  destruct (IH (Int64.add page 1) (afterRoundTrip c (ListTags_request c repo page) w))
    as [-> ->]. simpl. lia.
Qed.

Lemma servesPage_afterPages (E : Env) (c : Client) (repo : string) (page : Z)
    (k : nat) (w : World) (p : TagsResponse) :
  servesPage E c repo page w k p ->
  servesPage E c repo (pageAfter page k) (afterPages c repo page k w) 0 p.
Proof.
  unfold servesPage. destruct (afterPages_sent c repo k page w) as [-> ->].
  now rewrite !Nat.add_0_r.
Qed.

(** C6. When the server answers the successive page requests (for the
    pages 1, 2, ...) with pages [ps ++ [last]], each page of [ps] naming a
    next page and [last] naming none (marker absent or empty), [ListTags]
    returns the results of all these pages, concatenated in the order the
    server returned them, after one round trip per page.  When instead the
    fetch of the page that follows [ps] fails with an error [e] (in
    particular when [doRequest] fails with [e] on that page's request),
    [ListTags] fails with that same error, and so returns no tags. *)
Theorem ListTags_concatenates_pages
    (E : Env) (c : Client) (repo : string) (w : World)
    (ps : list TagsResponse) (fuel : nat)
    (Hps : forall i p, ps !! i = Some p ->
                       servesPage E c repo 1 w i p /\ hasNext p = true)
    (Hfuel : (length ps < fuel)%nat) :
  (forall last : TagsResponse,
      servesPage E c repo 1 w (length ps) last ->
      hasNext last = false ->
      exists w',
        ListTags fuel E c repo w = (Done (concat (map Results (ps ++ [last]))), w')
        /\ sent w' = (sent w + length (ps ++ [last]))%nat)
  /\ (forall (e : Error) (w' : World),
        ListTags_page E c repo (pageAfter 1 (length ps))
          (afterPages c repo 1 (length ps) w) = (Fail e, w') ->
        ListTags fuel E c repo w = (Fail e, w'))
  /\ (forall (e : Error) (w' : World),
        url_Parse E (ListTags_url c repo (pageAfter 1 (length ps))) = None ->
        doRequest E c (ListTags_request c repo (pageAfter 1 (length ps)))
          (afterPages c repo 1 (length ps) w) = (Fail e, w') ->
        ListTags fuel E c repo w = (Fail e, w')).
Proof.
  assert (Hsplit : fuel = (length ps + S (fuel - length ps - 1))%nat) by lia.
  unfold ListTags. rewrite Hsplit. rewrite ListTags_loop_pages by exact Hps.
  cbn [app]. split; [|split].
  - intros last Hlast Hnone. eexists. split.
    + cbn [ListTags_loop]. unfold bind.
      rewrite (ListTags_page_served E c repo _ _ last)
        by now apply servesPage_afterPages.
      rewrite map_app, concat_app. cbn [map concat]. rewrite app_nil_r.
      unfold hasNext in Hnone. destruct (Next last) as [next|]; [|reflexivity].
      apply negb_false_iff in Hnone. rewrite Hnone. reflexivity.
    + unfold afterRoundTrip. cbn [sent].
      destruct (afterPages_sent c repo (length ps) 1 w) as [-> _].
      rewrite length_app. simpl. lia.
  - intros e w' Hfail. cbn [ListTags_loop]. unfold bind. rewrite Hfail. reflexivity.
  - intros e w' Hu Hfail. cbn [ListTags_loop].
    unfold bind at 1, ListTags_page, http_NewRequestWithContext, bind.
    rewrite Hu. unfold ListTags_request in Hfail. rewrite Hfail. reflexivity.
Qed.

(** ** Transport: which requests reach the server *)

Lemma sendsOnly_refl req w : sendsOnly req w w.
Proof. exists []. split; [now rewrite app_nil_r|constructor]. Qed.

Lemma sendsOnly_trans req w1 w2 w3 :
  sendsOnly req w1 w2 -> sendsOnly req w2 w3 -> sendsOnly req w1 w3.
Proof.
  intros (e1 & H1 & F1) (e2 & H2 & F2). exists (e1 ++ e2). split.
  - now rewrite H2, H1, app_assoc.
  - now apply Forall_app.
Qed.

Lemma sendsOnly_step req w n m evs :
  Forall (fun e => forall r, e = EvDo r -> r = req) evs ->
  sendsOnly req w (mkWorld n m (log w ++ evs)).
Proof. intros H. exists evs. split; [reflexivity|exact H]. Qed.

Lemma doRequest_backoff_sends (E : Env) (req : Request) :
  forall (n : nat) (i : Z) (w : World),
    fst (doRequest_backoff E req i n w) <> OutOfFuel
    /\ sendsOnly req w (snd (doRequest_backoff E req i n w)).
Proof.
  induction n as [|n IH]; intros i w; simpl.
  - split; [discriminate|apply sendsOnly_refl].
  - run_M. destruct (roundTrip E (sent w)) as [resp|err]; simpl.
    + destruct (StatusCode resp =? http.StatusTooManyRequests); simpl.
      * match goal with |- context [doRequest_backoff E req ?i' n ?w'] =>
          destruct (IH i' w') as [Hne Hs] end.
        split; [exact Hne|].
        eapply sendsOnly_trans; [|exact Hs].
        rewrite <- app_assoc. apply sendsOnly_step.
        repeat constructor; intros r Hr; congruence.
      * split; [discriminate|]. rewrite <- app_assoc. apply sendsOnly_step.
        repeat constructor; intros r Hr; congruence.
    + split; [discriminate|]. rewrite <- app_assoc. apply sendsOnly_step.
      repeat constructor; intros r Hr; congruence.
Qed.

(** [doRequest] always returns, and sends nothing but its request. *)
Lemma doRequest_sends (E : Env) (c : Client) (req : Request) (w : World) :
  fst (doRequest E c req w) <> OutOfFuel
  /\ sendsOnly (withAuthorization c req) w (snd (doRequest E c req w)).
Proof.
  rewrite doRequest_unfold.
  assert (Hfirst : sendsOnly (withAuthorization c req) w (afterRoundTrip c req w)).
  { apply sendsOnly_step. repeat constructor; intros r Hr; congruence. }
  destruct (permit E (waited w)).
  - split; [discriminate|]. apply sendsOnly_step.
    repeat constructor; intros r Hr; congruence.
  - destruct (roundTrip E (sent w)) as [resp|err]; [|split; [discriminate|exact Hfirst]].
    destruct (StatusCode resp =? http.StatusTooManyRequests);
      [|split; [discriminate|exact Hfirst]].
    destruct (doRequest_backoff_sends E (withAuthorization c req) 5 0
                (afterRoundTrip c req w)) as [Hne Hs].
    split; [exact Hne|]. eapply sendsOnly_trans; [exact Hfirst|exact Hs].
Qed.

Lemma Method_withAuthorization (c : Client) (req : Request) :
  Method (withAuthorization c req) = Method req.
Proof. unfold withAuthorization. destruct (negb _); reflexivity. Qed.

Lemma sendsOnly_deleteCalls (req : Request) (w w' : World) :
  Method req <> "DELETE" ->
  sendsOnly req w w' -> deleteCalls (log w') = deleteCalls (log w).
Proof.
  intros Hm (evs & -> & Hevs). unfold deleteCalls.
  rewrite List.filter_app, length_app.
  assert (Hnone : List.filter isDeleteCall evs = []); [|rewrite Hnone; simpl; lia].
  induction Hevs as [|e evs He _ IH]; [reflexivity|]. simpl.
  destruct e as [|r|d]; simpl; try exact IH.
  rewrite (He r eq_refl). apply String.eqb_neq in Hm. rewrite Hm. exact IH.
Qed.

Lemma ListTags_page_deleteCalls (E : Env) (c : Client) (repo : string) (page : Z) (w : World) :
  deleteCalls (log (snd (ListTags_page E c repo page w))) = deleteCalls (log w).
Proof.
  unfold ListTags_page, http_NewRequestWithContext, bind.
  destruct (url_Parse E (ListTags_url c repo page)); [reflexivity|].
  destruct (doRequest_sends E c (NewRequest "GET" (ListTags_url c repo page) None) w)
    as [_ Hs].
  apply sendsOnly_deleteCalls in Hs;
    [|rewrite Method_withAuthorization; discriminate].
  destruct (doRequest E c _ w) as [[resp| |] w1]; simpl in *; try exact Hs.
  repeat match goal with
         | |- context [if ?b then _ else _] => destruct b
         | |- context [match ?o with Some _ => _ | None => _ end] => destruct o
         end; exact Hs.
Qed.

(** Listing tags sends no DELETE request. *)
Lemma ListTags_loop_deleteCalls (E : Env) (c : Client) (repo : string) :
  forall (fuel : nat) (acc : list Tag) (page : Z) (w : World),
    deleteCalls (log (snd (ListTags_loop fuel E c repo acc page w))) = deleteCalls (log w).
Proof.
  induction fuel as [|fuel IH]; intros acc page w; [reflexivity|].
  cbn [ListTags_loop]. unfold bind.
  pose proof (ListTags_page_deleteCalls E c repo page w) as Hp.
  destruct (ListTags_page E c repo page w) as [[p| |] w1]; simpl in *; try exact Hp.
  destruct (Next p) as [next|]; [|exact Hp].
  destruct (String.eqb next ""); [exact Hp|].
  rewrite IH. exact Hp.
Qed.

(** ** The orchestrator *)

Lemma len_0 {A} (l : list A) : (len l =? 0) = true <-> l = [].
Proof.
  unfold len. rewrite Z.eqb_eq. destruct l; simpl; split; intros H; try reflexivity;
    try discriminate; lia.
Qed.

Lemma len_not_0 {A} (l : list A) : l <> [] -> (len l =? 0) = false.
Proof.
  intros H. destruct (len l =? 0) eqn:Hl; [|reflexivity]. now apply len_0 in Hl.
Qed.

Lemma FilterTags_nonempty (tags : list Tag) (f : option TagFilter) :
  FilterTags tags f <> [] -> tags <> [].
Proof. intros H ->. apply H. destruct f; reflexivity. Qed.

(** [Clean], once the tags are fetched and some pass the filter, in terms
    of the keep-list and the delete-list. *)
Lemma Clean_decisions (fuel : nat) (E : Env) (L : GoLib) (c : Cleaner) (repo : string)
    (w w1 : World) (tags : list Tag) :
  ListTags fuel E (client c) repo w = (Done tags, w1) ->
  filtered c tags <> [] ->
  let keep := fst (decisions E L c tags) in
  let del := snd (decisions E L c tags) in
  let result deleted errors :=
    mkCleanResult (len tags) (len (filtered c tags)) (len keep) deleted errors
      (addSizes tags 0) (addSizes del 0) in
  Clean fuel E L c repo w =
  if len del =? 0 then (Done (result [] []), w1)
  else if dryRun c then (Done (result (reportDeletions del []) []), w1)
  else (r <- deleteTags E (client c) repo del [] [] ;;
        ret (result (fst r) (snd r))) w1.
Proof.
  intros Hfetch Hne keep del result. subst keep del result.
  unfold Clean, decisions, sorted. rewrite Hfetch.
  assert (Htags : tags <> []).
  { rewrite filtered_FilterTags in Hne. now apply FilterTags_nonempty in Hne. }
  rewrite (len_not_0 tags Htags).
  unfold filtered in *. destruct (filter c) as [f|].
  - rewrite (len_not_0 _ Hne). destruct (classify _ _ _ _ _ _); reflexivity.
  - rewrite (len_not_0 _ Hne). destruct (classify _ _ _ _ _ _); reflexivity.
Qed.

Lemma reportDeletions_names (del : list Tag) :
  forall deleted, reportDeletions del deleted = deleted ++ map Name del.
Proof.
  induction del as [|t del IH]; intros deleted; simpl; [now rewrite app_nil_r|].
  now rewrite IH, <- app_assoc.
Qed.

Lemma sorted_nonempty (L : GoLib) (c : Cleaner) (tags : list Tag) :
  sort_Slice_permutes L -> sorted L c tags <> [] -> tags <> [].
Proof.
  intros HL Hne ->. apply Hne.
  apply Permutation_nil. symmetry. now apply sorted_permutes.
Qed.

Lemma decisions_delete_nonempty (E : Env) (L : GoLib) (c : Cleaner) (tags : list Tag) :
  sort_Slice_permutes L -> snd (decisions E L c tags) <> [] -> filtered c tags <> [].
Proof.
  intros HL Hdel. apply (sorted_nonempty L c _ HL). intros Hs. apply Hdel.
  unfold decisions. rewrite Hs. reflexivity.
Qed.

(** C3. In a dry run whose delete-list is not empty, [Clean] sends no
    DELETE request (it leaves the world as the listing left it, and the
    listing sends none), the result's [DeletedTags] are the names of the
    delete-list in order, and [ReclaimedSize] is the sum of the sizes of
    the delete-list: the sum on int64, which is the exact sum whenever
    that fits in an int64. *)
Theorem dry_run_reports_without_deleting
    (fuel : nat) (E : Env) (L : GoLib) (c : Cleaner) (repo : string)
    (w w1 : World) (tags : list Tag)
    (HL : sort_Slice_permutes L)
    (Hdry : dryRun c = true)
    (Hfetch : ListTags fuel E (client c) repo w = (Done tags, w1))
    (Hdel : snd (decisions E L c tags) <> []) :
  let del := snd (decisions E L c tags) in
  exists r,
    Clean fuel E L c repo w = (Done r, w1)
    /\ deleteCalls (log w1) = deleteCalls (log w)
    /\ DeletedTags r = map Name del
    /\ Errors r = []
    /\ ReclaimedSize r = Int64.wrap (totalSize del)
    /\ (Int64.in_range (totalSize del) -> ReclaimedSize r = totalSize del).
Proof.
  intros del.
  pose proof (decisions_delete_nonempty E L c tags HL Hdel) as Hne.
  rewrite (Clean_decisions fuel E L c repo w w1 tags Hfetch Hne).
  fold del. rewrite (len_not_0 del Hdel), Hdry.
  eexists. split; [reflexivity|]. cbn [DeletedTags Errors ReclaimedSize].
  split; [|split; [|split; [|split]]].
  - pose proof (ListTags_loop_deleteCalls E (client c) repo fuel [] 1 w) as H.
    unfold ListTags in Hfetch. now rewrite Hfetch in H.
  - apply reportDeletions_names.
  - reflexivity.
  - apply addSizes_0.
  - intros Hr. rewrite addSizes_0. now apply Int64_wrap_small.
Qed.

Lemma DeleteTag_returns (E : Env) (c : Client) (repo tag : string) (w : World) :
  fst (DeleteTag E c repo tag w) <> OutOfFuel.
Proof.
  unfold DeleteTag, http_NewRequestWithContext, bind.
  destruct (url_Parse E (DeleteTag_url c repo tag)); [discriminate|].
  destruct (doRequest_sends E c (NewRequest "DELETE" (DeleteTag_url c repo tag) None) w)
    as [Hne _].
  destruct (doRequest E c _ w) as [[resp| |] w1]; simpl in *;
    [|discriminate|contradiction].
  repeat match goal with
         | |- context [if ?b then _ else _] => destruct b
         end; discriminate.
Qed.

(** The live deletion loop always runs to its end. *)
Lemma deleteTags_returns (E : Env) (c : Client) (repo : string) (del : list Tag) :
  forall deleted errors w,
    exists r w', deleteTags E c repo del deleted errors w = (Done r, w').
Proof.
  induction del as [|t del IH]; intros deleted errors w; simpl.
  - eexists _, _. reflexivity.
  - pose proof (DeleteTag_returns E c repo (Name t) w) as Hne.
    destruct (DeleteTag E c repo (Name t) w) as [[u| e |] w1]; simpl in Hne.
    + apply IH.
    + apply IH.
    + contradiction.
Qed.

Lemma classify_nil_policy (E : Env) (tags : list Tag) :
  classify E None 0 tags [] [] = ([], tags).
Proof.
  rewrite classify_select. simpl. f_equal.
  - generalize 0%nat. induction tags as [|t tags IH]; intros i; simpl; auto.
  - generalize 0%nat. induction tags as [|t tags IH]; intros i; simpl; [|rewrite IH]; auto.
Qed.

Lemma classify_empty_composite (E : Env) (mode : PolicyMode) (tags : list Tag) :
  classify E (Some (NewCompositePolicy mode [])) 0 tags [] [] = (tags, []).
Proof.
  rewrite classify_select. simpl. f_equal.
  - generalize 0%nat. induction tags as [|t tags IH]; intros i; simpl; [|rewrite IH]; auto.
  - generalize 0%nat. induction tags as [|t tags IH]; intros i; simpl; auto.
Qed.

(** C10. With no policy configured, every tag that passed the filter is
    put on the delete-list and none on the keep-list, and the result of
    [Clean] counts zero kept tags; with the empty composite policy it is
    the other way round: every such tag is kept and nothing is deleted. *)
Theorem nil_policy_deletes_everything
    (fuel : nat) (E : Env) (L : GoLib) (repo : string) (w w1 : World) (tags : list Tag)
    (cl : Client) (f : option TagFilter) (s : option TagSorter) (dry vb : bool)
    (mode : PolicyMode)
    (HL : sort_Slice_permutes L)
    (Hfetch : ListTags fuel E cl repo w = (Done tags, w1)) :
  let c0 := mkCleaner cl f None s dry vb in
  let c1 := mkCleaner cl f (Some (NewCompositePolicy mode [])) s dry vb in
  (fst (decisions E L c0 tags) = []
   /\ Permutation (snd (decisions E L c0 tags)) (FilterTags tags f)
   /\ exists r w', Clean fuel E L c0 repo w = (Done r, w') /\ KeptTags r = 0)
  /\ (Permutation (fst (decisions E L c1 tags)) (FilterTags tags f)
      /\ snd (decisions E L c1 tags) = []
      /\ exists r, Clean fuel E L c1 repo w = (Done r, w1)
                   /\ KeptTags r = FilteredTags r /\ DeletedTags r = []).
Proof.
  intros c0 c1.
  assert (Hf0 : filtered c0 tags = FilterTags tags f) by apply filtered_FilterTags.
  assert (Hf1 : filtered c1 tags = FilterTags tags f) by apply filtered_FilterTags.
  assert (Hd0 : decisions E L c0 tags = ([], sorted L c0 (filtered c0 tags))).
  { unfold decisions. apply classify_nil_policy. }
  assert (Hd1 : decisions E L c1 tags = (sorted L c1 (filtered c1 tags), [])).
  { unfold decisions. apply classify_empty_composite. }
  split; split.
  - now rewrite Hd0.
  - split.
    + rewrite Hd0, <- Hf0. simpl. now apply sorted_permutes.
    + destruct (list_eq_nil_dec (filtered c0 tags)) as [Hnil|Hne].
      * unfold Clean. change (client c0) with cl. rewrite Hfetch.
        destruct (len tags =? 0); [eexists _, _; split; reflexivity|].
        assert (Hz : (let '(tags0, filteredTags) :=
                        match filter c0 with
                        | Some f0 => (FilterTags tags (Some f0), len (FilterTags tags (Some f0)))
                        | None => (tags, len tags)
                        end in len tags0) = 0).
        { unfold filtered in Hnil. destruct (filter c0); now rewrite Hnil. }
        destruct (match filter c0 with
                  | Some f0 => (FilterTags tags (Some f0), len (FilterTags tags (Some f0)))
                  | None => (tags, len tags)
                  end) as [tags0 n0].
        rewrite Hz. eexists _, _; split; reflexivity.
      * rewrite (Clean_decisions fuel E L c0 repo w w1 tags Hfetch Hne).
        rewrite Hd0. cbn [fst snd].
        destruct (len _ =? 0); [eexists _, _; split; reflexivity|].
        destruct (dryRun c0); [eexists _, _; split; reflexivity|].
        unfold bind.
        destruct (deleteTags_returns E (client c0) repo (sorted L c0 (filtered c0 tags))
                    [] [] w1) as (r & w' & ->).
        eexists _, _; split; reflexivity.
  - rewrite Hd1, <- Hf1. simpl. now apply sorted_permutes.
  - split; [now rewrite Hd1|].
    destruct (list_eq_nil_dec (filtered c1 tags)) as [Hnil|Hne].
    + unfold Clean. change (client c1) with cl. rewrite Hfetch.
      destruct (len tags =? 0) eqn:Ht; [eexists; split; [reflexivity|split; reflexivity]|].
      unfold filtered in Hnil. cbn [filter c1] in *.
      destruct f as [f0|]; rewrite Hnil; simpl.
      * eexists; split; [reflexivity|split; reflexivity].
      * apply len_0 in Hnil. congruence.
    + rewrite (Clean_decisions fuel E L c1 repo w w1 tags Hfetch Hne).
      rewrite Hd1. cbn [fst snd]. simpl.
      eexists; split; [reflexivity|]. cbn [KeptTags FilteredTags DeletedTags].
      split; [|reflexivity].
      unfold len. f_equal. apply Permutation_length. now apply sorted_permutes.
Qed.

(** ** Transport: status codes and errors *)

(** C7 (as claimed, refuted). On a 401 response to the login request
    [Authenticate] does not fail with [ErrUnauthorized]: it fails with the
    generic API error that carries the status, the login endpoint and the
    body. *)
Lemma Authenticate_401_is_APIError :
  let E := scriptedEnv [Reply (mkResponse 401 "denied")] 0 [] in
  roundTrip E 0 = Reply (mkResponse http.StatusUnauthorized "denied")
  /\ fst (Authenticate E NewClient "user" "secret" initial)
     = Fail (APIError 401 "denied" "/users/login/")
  /\ fst (Authenticate E NewClient "user" "secret" initial) <> Fail ErrUnauthorized.
Proof.
  split; [reflexivity|]. split; [reflexivity|]. discriminate.
Qed.

(** C7 (amended). A response that is neither a throttling one nor a 2xx
    is not retried: the call ends after that one round trip, and
    [ListTags], [DeleteTag] and [GetRepository] fail with
    [ErrUnauthorized] on 401, with [ErrNotFound] on 404, and on any other
    status with the API error that carries the status, the URL and the
    body; [Authenticate] fails on every such status, 401 and 404
    included, with the API error that carries the status, the endpoint
    [/users/login/] and the body. *)
Theorem error_status_is_mapped_without_retry
    (E : Env) (c : Client) (w : World) (resp : Response)
    (Hpermit : permit E (waited w) = None)
    (Hreply : roundTrip E (sent w) = Reply resp)
    (Hthrottle : StatusCode resp <> http.StatusTooManyRequests)
    (Hnot2xx : ~ (200 <= StatusCode resp < 300)) :
  (forall fuel repo,
      url_Parse E (ListTags_url c repo 1) = None ->
      ListTags (S fuel) E c repo w =
      (Fail (errorOfStatus (StatusCode resp) (ListTags_url c repo 1) (Body resp)),
       afterRoundTrip c (ListTags_request c repo 1) w))
  /\ (forall repo tag,
         url_Parse E (DeleteTag_url c repo tag) = None ->
         DeleteTag E c repo tag w =
         (Fail (errorOfStatus (StatusCode resp) (DeleteTag_url c repo tag) (Body resp)),
          afterRoundTrip c (DeleteTag_request c repo tag) w))
  /\ (forall repo,
         url_Parse E (GetRepository_url c repo) = None ->
         GetRepository E c repo w =
         (Fail (errorOfStatus (StatusCode resp) (GetRepository_url c repo) (Body resp)),
          afterRoundTrip c (GetRepository_request c repo) w))
  /\ (forall username password,
         url_Parse E (baseURL c +:+ "/users/login/") = None ->
         Authenticate E c username password w =
         (Fail (APIError (StatusCode resp) (Body resp) "/users/login/"),
          afterRoundTrip c (Authenticate_request E c username password) w)).
Proof.
  assert (Hdo : forall req, doRequest E c req w = (Done resp, afterRoundTrip c req w)).
  { intros req. now apply doRequest_reply. }
  unfold errorOfStatus, http.StatusUnauthorized, http.StatusNotFound,
    http.StatusTooManyRequests in *.
  split; [intros fuel repo Hu|split; [intros repo tag Hu|split;
    [intros repo Hu|intros user pass Hu]]].
  - unfold ListTags. cbn [ListTags_loop].
    unfold bind at 1, ListTags_page, http_NewRequestWithContext, bind.
    rewrite Hu, Hdo. unfold http.StatusNotFound, http.StatusUnauthorized, http.StatusOK.
    destruct (Z.eqb_spec (StatusCode resp) 404) as [H404|H404]; [now rewrite H404|].
    destruct (Z.eqb_spec (StatusCode resp) 401) as [H401|H401]; [reflexivity|].
    destruct (Z.eqb_spec (StatusCode resp) 200) as [H200|_]; [lia|reflexivity].
  - unfold DeleteTag, http_NewRequestWithContext, bind. rewrite Hu.
    fold (DeleteTag_request c repo tag). rewrite Hdo.
    unfold http.StatusNotFound, http.StatusUnauthorized, http.StatusOK,
      http.StatusNoContent.
    destruct (Z.eqb_spec (StatusCode resp) 404) as [H404|H404]; [now rewrite H404|].
    destruct (Z.eqb_spec (StatusCode resp) 401) as [H401|H401]; [reflexivity|].
    destruct (Z.eqb_spec (StatusCode resp) 204) as [H204|_]; [lia|].
    destruct (Z.eqb_spec (StatusCode resp) 200) as [H200|_]; [lia|reflexivity].
  - unfold GetRepository, http_NewRequestWithContext, bind. rewrite Hu.
    fold (GetRepository_request c repo).
    rewrite Hdo. unfold http.StatusNotFound, http.StatusUnauthorized, http.StatusOK.
    destruct (Z.eqb_spec (StatusCode resp) 404) as [H404|H404]; [now rewrite H404|].
    destruct (Z.eqb_spec (StatusCode resp) 401) as [H401|H401]; [reflexivity|].
    destruct (Z.eqb_spec (StatusCode resp) 200) as [H200|_]; [lia|reflexivity].
  - unfold Authenticate, http_NewRequestWithContext, bind. rewrite Hu.
    fold (Authenticate_request E c user pass).
    rewrite Hdo. unfold http.StatusOK.
    destruct (Z.eqb_spec (StatusCode resp) 200) as [H200|_]; [lia|reflexivity].
Qed.

(** ** The rate limiter of a new client *)

Lemma doRequest_waits_first (E : Env) (c : Client) (req : Request) (w : World) :
  exists evs, log (snd (doRequest E c req w)) = log w ++ EvWait :: evs.
Proof.
  rewrite doRequest_unfold. destruct (permit E (waited w)); [now exists []|].
  assert (Hfirst : log (afterRoundTrip c req w)
                   = log w ++ EvWait :: [EvDo (withAuthorization c req)]) by reflexivity.
  destruct (roundTrip E (sent w)) as [resp|err]; [|eexists; exact Hfirst].
  destruct (StatusCode resp =? http.StatusTooManyRequests); [|eexists; exact Hfirst].
  destruct (doRequest_backoff_sends E (withAuthorization c req) 5 0
              (afterRoundTrip c req w)) as [_ (evs & Hevs & _)].
  rewrite Hevs, Hfirst, <- app_assoc. eexists. reflexivity.
Qed.

(** C9 (what the code does). The limiter of a new client is a token bucket
    of 5 tokens that is refilled at 1 token per second, not at 5 per
    second; every [doRequest] starts by waiting for a permit of it. *)
Theorem NewClient_limiter_refills_one_per_second :
  (exists q, rate.limit (limiter NewClient) = rate.PerSecond q
             /\ Qeq q 1 /\ ~ Qeq q 5)
  /\ rate.burst (limiter NewClient) = 5
  /\ (forall E req w,
        exists evs, log (snd (doRequest E NewClient req w)) = log w ++ EvWait :: evs).
Proof.
  split; [|split].
  - eexists. split; [reflexivity|]. split; [reflexivity|]. intros H. discriminate H.
  - reflexivity.
  - intros. apply doRequest_waits_first.
Qed.

(** ** Sorting *)

Lemma ascii_compare_lt_trans (a b c : ascii) :
  Ascii.compare a b = Lt -> Ascii.compare b c = Lt -> Ascii.compare a c = Lt.
Proof. unfold Ascii.compare. rewrite !N.compare_lt_iff. lia. Qed.

Lemma string_compare_refl (s : string) : String.compare s s = Eq.
Proof.
  induction s as [|a s IH]; simpl; [reflexivity|].
  unfold Ascii.compare. now rewrite N.compare_refl.
Qed.

Lemma string_compare_lt_trans :
  forall a b c : string,
    String.compare a b = Lt -> String.compare b c = Lt -> String.compare a c = Lt.
Proof.
  induction a as [|x a IH]; intros [|y b] [|z c]; simpl; try discriminate; auto.
  destruct (Ascii.compare x y) eqn:Hxy; try discriminate.
  - apply Ascii.compare_eq_iff in Hxy. subst y.
    destruct (Ascii.compare x z) eqn:Hxz; try discriminate; auto. apply IH.
  - destruct (Ascii.compare y z) eqn:Hyz; try discriminate.
    + apply Ascii.compare_eq_iff in Hyz. subst z. now rewrite Hxy.
    + now rewrite (ascii_compare_lt_trans x y z Hxy Hyz).
Qed.

Lemma string_ltb_strictWeakOrder : strictWeakOrder String.ltb.
Proof.
  unfold String.ltb. split; [|split].
  - intros a. now rewrite string_compare_refl.
  - intros a b c Hab Hbc.
    destruct (String.compare a b) eqn:H1; try discriminate.
    destruct (String.compare b c) eqn:H2; try discriminate.
    now rewrite (string_compare_lt_trans a b c H1 H2).
  - intros a b c Hab Hbc.
    destruct (String.compare a c) eqn:Hac; try reflexivity. exfalso.
    destruct (String.compare b c) eqn:H2; try discriminate.
    + apply String.compare_eq_iff in H2. subst c. now rewrite Hac in Hab.
    + assert (Hcb : String.compare c b = Lt).
      { rewrite String.compare_antisym, H2. reflexivity. }
      now rewrite (string_compare_lt_trans a c b Hac Hcb) in Hab.
Qed.

(** A strict weak ordering on keys is one on the elements that carry them. *)
Lemma strictWeakOrder_on {A B} (less : B -> B -> bool) (key : A -> B) :
  strictWeakOrder less -> strictWeakOrder (fun a b => less (key a) (key b)).
Proof. intros (Hi & Ht & Hn). repeat split; eauto. Qed.

Lemma strictWeakOrder_flip {A} (less : A -> A -> bool) :
  strictWeakOrder less -> strictWeakOrder (fun a b => less b a).
Proof. intros (Hi & Ht & Hn). repeat split; eauto. Qed.

Lemma lexLess_strictWeakOrder : strictWeakOrder lexLess.
Proof.
  unfold lexLess.
  apply (strictWeakOrder_flip (fun a b => String.ltb (Name a) (Name b))).
  apply (strictWeakOrder_on String.ltb Name), string_ltb_strictWeakOrder.
Qed.

Lemma stringCompare_strictWeakOrder :
  strictWeakOrder (fun v w => stringCompare v w >? 0).
Proof.
  assert (H : forall v w, (stringCompare v w >? 0) = String.ltb w v).
  { intros v w. unfold stringCompare, String.ltb.
    rewrite (String.compare_antisym v w). now destruct (String.compare w v). }
  destruct (strictWeakOrder_flip _ string_ltb_strictWeakOrder) as (Hi & Ht & Hn).
  repeat split; intros *; rewrite !H; eauto.
Qed.

Lemma insertFromEnd_sorted (less : Tag -> Tag -> bool) (x : Tag) (l : list Tag) :
  strictWeakOrder less ->
  StronglySorted (fun u v => less u v = false) l ->
  StronglySorted (fun u v => less u v = false) (insertFromEnd less x l).
Proof.
  intros (Hi & Ht & Hn) Hl.
  induction Hl as [|y l Hl IH Hy]; simpl.
  - repeat constructor.
  - destruct (less x y) eqn:Hxy.
    + constructor; [exact IH|].
      eapply Permutation_Forall; [symmetry; apply insertFromEnd_perm|].
      constructor; [|exact Hy].
      destruct (less y x) eqn:Hyx; [|reflexivity].
      pose proof (Ht x y x Hxy Hyx) as Hxx. now rewrite Hi in Hxx.
    + constructor; [now constructor|]. constructor; [exact Hxy|].
      rewrite List.Forall_forall in Hy |- *. intros z Hz.
      exact (Hn x y z Hxy (Hy z Hz)).
Qed.

Lemma StronglySorted_snoc {A} (R : A -> A -> Prop) (l : list A) (x : A) :
  StronglySorted R l -> Forall (fun a => R a x) l -> StronglySorted R (l ++ [x]).
Proof.
  induction 1 as [|y l Hl IH Hy]; intros Hx; cbn [app].
  - repeat constructor.
  - inversion Hx as [|? ? Hyx Hlx]; subst. constructor; [now apply IH|].
    apply List.Forall_app. split; [exact Hy|]. now repeat constructor.
Qed.

Lemma StronglySorted_rev {A} (R : A -> A -> Prop) (l : list A) :
  StronglySorted R l -> StronglySorted (fun a b => R b a) (rev l).
Proof.
  induction 1 as [|y l Hl IH Hy]; cbn [rev]; [constructor|].
  apply StronglySorted_snoc; [exact IH|].
  rewrite List.Forall_forall in Hy |- *. intros a Ha. apply Hy. now apply in_rev.
Qed.

Lemma insertionSort_ordered (less : Tag -> Tag -> bool) (l : list Tag) :
  strictWeakOrder less -> ordered less (insertionSort less l).
Proof.
  intros Hless. unfold ordered, insertionSort.
  apply (StronglySorted_rev (fun u v => less u v = false)).
  assert (H : forall acc,
             StronglySorted (fun u v => less u v = false) acc ->
             StronglySorted (fun u v => less u v = false)
               (fold_left (fun sortedRev x => insertFromEnd less x sortedRev) l acc)).
  { induction l as [|x l IH]; intros acc Hacc; cbn [fold_left]; [exact Hacc|].
    apply IH. now apply insertFromEnd_sorted. }
  apply H. constructor.
Qed.

Lemma exampleLib_contract : sort_Slice_contract exampleLib.
Proof.
  split.
  - intros less l. apply insertionSort_perm.
  - intros less l. apply insertionSort_ordered.
Qed.

Lemma noTies_perm {A} (less : A -> A -> bool) (l l' : list A) :
  Permutation l l' -> noTies less l -> noTies less l'.
Proof.
  intros HP [Hnd Hties]. split.
  - eapply Permutation_NoDup; eassumption.
  - intros a b Ha Hb. apply Hties; eapply Permutation_in; try eassumption;
      now symmetry.
Qed.

Lemma noTies_tail {A} (less : A -> A -> bool) (x : A) (l : list A) :
  noTies less (x :: l) -> noTies less l.
Proof.
  intros [Hnd Hties]. split.
  - now inversion Hnd.
  - intros a b Ha Hb. apply Hties; now right.
Qed.

(** Without ties there is one way only to put a list in order. *)
Lemma ordered_perm_unique {A} (less : A -> A -> bool) :
  forall l1 l2 : list A,
    Permutation l1 l2 -> ordered less l1 -> ordered less l2 -> noTies less l1 ->
    l1 = l2.
Proof.
  unfold ordered.
  induction l1 as [|x l1 IH]; intros l2 HP H1 H2 Hties.
  - apply Permutation_nil in HP. now subst.
  - destruct l2 as [|y l2]; [now apply Permutation_sym, Permutation_nil in HP|].
    apply StronglySorted_inv in H1. destruct H1 as [H1 Hx].
    apply StronglySorted_inv in H2. destruct H2 as [H2 Hy].
    assert (Hxy : x = y).
    { assert (Hin_x : In x (y :: l2)) by (eapply Permutation_in; [exact HP|now left]).
      assert (Hin_y : In y (x :: l1)).
      { eapply Permutation_in; [symmetry; exact HP|now left]. }
      destruct Hin_x as [Heq|Hin_x]; [now symmetry|].
      destruct Hin_y as [Heq|Hin_y]; [exact Heq|].
      destruct Hties as [_ Hties]. apply Hties; [now left|now right|].
      rewrite List.Forall_forall in Hx, Hy. unfold equivBy.
      now rewrite (Hy x Hin_x), (Hx y Hin_y). }
    subst y. f_equal. apply IH; try assumption.
    + now apply Permutation_cons_inv in HP.
    + now apply noTies_tail in Hties.
Qed.

(** ** Go's [sort.Slice] on slices of at most 12 elements *)

Lemma gosort_index_middle (pre post : list Tag) (x : Tag) :
  gosort.index (pre ++ x :: post) (Z.of_nat (length pre)) = Some x.
Proof.
  unfold gosort.index. destruct (Z.ltb_spec (Z.of_nat (length pre)) 0); [lia|].
  rewrite Nat2Z.id. now apply list_lookup_middle.
Qed.

Lemma gosort_index_next (pre post : list Tag) (y x : Tag) :
  gosort.index (pre ++ y :: x :: post) (Z.of_nat (length pre) + 1) = Some x.
Proof.
  replace (pre ++ y :: x :: post) with ((pre ++ [y]) ++ x :: post)
    by now rewrite <- app_assoc.
  replace (Z.of_nat (length pre) + 1) with (Z.of_nat (length (pre ++ [y])))
    by (rewrite length_app; simpl; lia).
  apply gosort_index_middle.
Qed.

Lemma gosort_Swap_adjacent (pre post : list Tag) (y x : Tag) :
  gosort.Swap (pre ++ y :: x :: post) (Z.of_nat (length pre) + 1) (Z.of_nat (length pre))
  = pre ++ x :: y :: post.
Proof.
  unfold gosort.Swap. rewrite gosort_index_next, gosort_index_middle.
  replace (Z.to_nat (Z.of_nat (length pre) + 1)) with (S (length pre)) by lia.
  rewrite Nat2Z.id.
  rewrite (insert_app_r_alt pre _ (length pre)) by lia.
  rewrite Nat.sub_diag. cbn [insert list_insert].
  rewrite (insert_app_r_alt pre _ (S (length pre))) by lia.
  replace (S (length pre) - length pre)%nat with 1%nat by lia. reflexivity.
Qed.

(** The inner loop of [insertionSort_func] on the element that follows a
    prefix. *)
Lemma gosort_insertionSort_inner_spec (less : Tag -> Tag -> bool) (x : Tag) :
  forall (pre post : list Tag) (fuel : nat),
    (length pre <= fuel)%nat ->
    gosort.insertionSort_inner less fuel (pre ++ x :: post) 0 (Z.of_nat (length pre))
    = rev (insertFromEnd less x (rev pre)) ++ post.
Proof.
  induction pre as [|y pre IH] using rev_ind; intros post fuel Hfuel.
  - destruct fuel; reflexivity.
  - rewrite length_app in Hfuel. cbn [length] in Hfuel.
    destruct fuel as [|fuel]; [lia|].
    rewrite <- app_assoc. cbn [app gosort.insertionSort_inner].
    rewrite length_app. cbn [length].
    replace (Z.of_nat (length pre + 1)) with (Z.of_nat (length pre) + 1) by lia.
    replace (Z.of_nat (length pre) + 1 - 1) with (Z.of_nat (length pre)) by lia.
    destruct (Z.ltb_spec 0 (Z.of_nat (length pre) + 1)); [|lia]. cbn [andb].
    unfold gosort.Less. rewrite gosort_index_next, gosort_index_middle.
    rewrite rev_app_distr. cbn [rev app insertFromEnd].
    destruct (less x y).
    + rewrite gosort_Swap_adjacent, IH by lia.
      cbn [rev]. now rewrite <- app_assoc.
    + cbn [rev]. rewrite rev_involutive. now rewrite <- !app_assoc.
Qed.

Lemma insertFromEnd_length less x l :
  length (insertFromEnd less x l) = S (length l).
Proof. exact (Permutation_length (insertFromEnd_perm less x l)). Qed.

(** The outer loop of [insertionSort_func], from a prefix on. *)
Lemma gosort_insertionSort_outer_spec (less : Tag -> Tag -> bool) :
  forall (rest prefix : list Tag) (fuel : nat),
    (length rest <= fuel)%nat ->
    gosort.insertionSort_outer less fuel (prefix ++ rest) 0
      (Z.of_nat (length (prefix ++ rest))) (Z.of_nat (length prefix))
    = rev (fold_left (fun sortedRev x => insertFromEnd less x sortedRev) rest (rev prefix)).
Proof.
  induction rest as [|x rest IH]; intros prefix fuel Hfuel.
  - rewrite app_nil_r. cbn [fold_left]. rewrite rev_involutive.
    destruct fuel; [reflexivity|]. cbn [gosort.insertionSort_outer].
    now rewrite Z.ltb_irrefl.
  - cbn [length] in Hfuel. destruct fuel as [|fuel]; [lia|].
    cbn [gosort.insertionSort_outer fold_left].
    destruct (Z.ltb_spec (Z.of_nat (length prefix))
                (Z.of_nat (length (prefix ++ x :: rest)))) as [_|Hge];
      [|rewrite length_app in Hge; cbn [length] in Hge; lia].
    replace (Z.to_nat (Z.of_nat (length prefix) - 0)) with (length prefix) by lia.
    rewrite gosort_insertionSort_inner_spec by lia.
    set (prefix' := rev (insertFromEnd less x (rev prefix))).
    assert (Hlen : length prefix' = S (length prefix)).
    { subst prefix'. now rewrite length_rev, insertFromEnd_length, length_rev. }
    replace (Z.of_nat (length (prefix ++ x :: rest)))
      with (Z.of_nat (length (prefix' ++ rest)))
      by (rewrite !length_app, Hlen; cbn [length]; lia).
    replace (Z.of_nat (length prefix) + 1) with (Z.of_nat (length prefix')) by lia.
    rewrite IH by lia. subst prefix'. now rewrite rev_involutive.
Qed.

(** [insertionSort_func] on a whole slice is the insertion sort on
    lists. *)
Lemma gosort_insertionSort_func_spec (less : Tag -> Tag -> bool) (data : list Tag) :
  gosort.insertionSort_func less data 0 (Z.of_nat (length data)) = insertionSort less data.
Proof.
  unfold gosort.insertionSort_func, insertionSort.
  destruct data as [|x rest]; [reflexivity|].
  replace (Z.to_nat (Z.of_nat (length (x :: rest)) - 0)) with (length (x :: rest)) by lia.
  change (x :: rest) with ([x] ++ rest) at 2 3.
  change (0 + 1) with (Z.of_nat (length [x])).
  rewrite gosort_insertionSort_outer_spec by (cbn [length]; lia).
  reflexivity.
Qed.

(** Go's [sort.Slice] sorts a slice of at most 12 elements by insertion. *)
Lemma gosort_Slice_small (less : Tag -> Tag -> bool) (data : list Tag) :
  (length data <= 12)%nat -> gosort.Slice less data = insertionSort less data.
Proof.
  intros Hlen. unfold gosort.Slice. cbn [gosort.pdqsort_func].
  destruct (Z.leb_spec (Z.of_nat (length data) - 0) 12); [|lia].
  apply gosort_insertionSort_func_spec.
Qed.

(** ** The insertion sort is stable *)

Lemma equivBy_blocks_less (less : Tag -> Tag -> bool) (z x y : Tag) :
  strictWeakOrder less ->
  equivBy less z x = true -> less x y = true -> equivBy less z y = false.
Proof.
  intros (Hi & Ht & Hn) Hzx Hxy. unfold equivBy in *.
  apply andb_true_iff in Hzx. destruct Hzx as [Hzx1 Hzx2].
  apply negb_true_iff in Hzx1, Hzx2.
  destruct (less z y) eqn:Hzy; [reflexivity|]. cbn [negb andb].
  destruct (less y z) eqn:Hyz; [reflexivity|]. exfalso.
  rewrite (Hn x z y Hzx2 Hzy) in Hxy. discriminate.
Qed.

Lemma insertFromEnd_filter (less : Tag -> Tag -> bool) (z x : Tag) (l : list Tag) :
  strictWeakOrder less ->
  List.filter (equivBy less z) (insertFromEnd less x l)
  = if equivBy less z x then x :: List.filter (equivBy less z) l
    else List.filter (equivBy less z) l.
Proof.
  intros Hless. induction l as [|y l IH]; cbn [insertFromEnd List.filter].
  - reflexivity.
  - destruct (less x y) eqn:Hxy; cbn [List.filter]; [|reflexivity].
    rewrite IH. destruct (equivBy less z x) eqn:Hzx.
    + now rewrite (equivBy_blocks_less less z x y Hless Hzx Hxy).
    + reflexivity.
Qed.

Lemma filter_rev_list {A} (f : A -> bool) (l : list A) :
  List.filter f (rev l) = rev (List.filter f l).
Proof.
  induction l as [|x l IH]; cbn [rev List.filter]; [reflexivity|].
  rewrite List.filter_app, IH. cbn [List.filter].
  destruct (f x); cbn [rev]; [reflexivity|now rewrite app_nil_r].
Qed.

Lemma insertionSort_stable (less : Tag -> Tag -> bool) (l : list Tag) :
  strictWeakOrder less -> stable less l (insertionSort less l).
Proof.
  intros Hless z. unfold insertionSort. rewrite filter_rev_list.
  assert (H : forall acc,
             List.filter (equivBy less z)
               (fold_left (fun sortedRev x => insertFromEnd less x sortedRev) l acc)
             = rev (List.filter (equivBy less z) l) ++ List.filter (equivBy less z) acc).
  { induction l as [|x l IH]; intros acc; cbn [fold_left List.filter rev app].
    - reflexivity.
    - rewrite IH, insertFromEnd_filter by exact Hless.
      destruct (equivBy less z x); cbn [rev]; [|reflexivity].
      now rewrite <- app_assoc. }
  rewrite H. cbn [List.filter]. now rewrite app_nil_r, rev_involutive.
Qed.

(** C8 (as claimed, refuted). With Go's [sort.Slice] neither sorter is
    stable on thirteen tags.  The lexicographical sorter receives the tags
    of sizes 1 and 2 that are both named [a] in this order and returns
    them in the other order; the semver sorter receives [1.0.0] before
    [v1.0.0], which are the same version, and returns [v1.0.0] first.
    Both outputs are the input rearranged in descending order. *)
Lemma sorters_are_not_stable :
  let L := withGoSort exampleLib in
  let sizes l := map FullSize (List.filter (fun t => negb (FullSize t =? 0)) l) in
  (sizes thirteenTags = [1; 2]
   /\ sizes (Sort L LexicographicalSorter thirteenTags) = [2; 1]
   /\ map Name (Sort L LexicographicalSorter thirteenTags)
      = ["l"; "k"; "j"; "i"; "h"; "g"; "f"; "e"; "d"; "c"; "b"; "a"; "a"]
   /\ Permutation (Sort L LexicographicalSorter thirteenTags) thirteenTags
   /\ ~ stable lexLess thirteenTags (Sort L LexicographicalSorter thirteenTags))
  /\ (map Name (List.filter (fun t => negb (FullSize t =? 0)) thirteenVersions)
      = ["1.0.0"; "v1.0.0"]
      /\ map Name (Sort L (SemverSorter None) thirteenVersions)
         = ["v9.0.0"; "v8.0.0"; "v7.0.0"; "v6.0.0"; "v5.0.0"; "v4.0.0"; "v3.0.0";
            "v2.0.0"; "v1.3.0"; "v1.2.0"; "v1.1.0"; "v1.0.0"; "1.0.0"]
      /\ Permutation (Sort L (SemverSorter None) thirteenVersions) thirteenVersions
      /\ ~ stable (semverLess L None) thirteenVersions
            (Sort L (SemverSorter None) thirteenVersions)).
Proof.
  intros L sizes.
  assert (Hlex : Sort L LexicographicalSorter thirteenTags
                 = map (fun name => mkTag name 0 0 [])
                     ["l"; "k"; "j"; "i"; "h"; "g"; "f"; "e"; "d"; "c"; "b"]
                     ++ [mkTag "a" 0 2 []; mkTag "a" 0 1 []]) by (vm_compute; reflexivity).
  assert (Hsem : Sort L (SemverSorter None) thirteenVersions
                 = map (fun name => mkTag name 0 0 [])
                     ["v9.0.0"; "v8.0.0"; "v7.0.0"; "v6.0.0"; "v5.0.0"; "v4.0.0";
                      "v3.0.0"; "v2.0.0"; "v1.3.0"; "v1.2.0"; "v1.1.0"]
                     ++ [mkTag "v1.0.0" 0 2 []; mkTag "1.0.0" 0 1 []])
    by (vm_compute; reflexivity).
  split.
  - rewrite Hlex. split; [reflexivity|]. split; [reflexivity|]. split; [reflexivity|].
    split.
    + unfold thirteenTags.
      match goal with |- Permutation (?M ++ [?x; ?y]) (?y :: ?x :: ?M) =>
        change (y :: x :: M) with ([y; x] ++ M);
        etransitivity; [apply Permutation_app_comm|];
        apply Permutation_app_tail, perm_swap
      end.
    + intros H. specialize (H (mkTag "a" 0 1 [])). vm_compute in H. discriminate H.
  - rewrite Hsem. split; [reflexivity|]. split; [reflexivity|]. split.
    + unfold thirteenVersions.
      match goal with |- Permutation (?M ++ [?x; ?y]) (?y :: ?x :: ?M) =>
        change (y :: x :: M) with ([y; x] ++ M);
        etransitivity; [apply Permutation_app_comm|];
        apply Permutation_app_tail, perm_swap
      end.
    + intros H. specialize (H (mkTag "1.0.0" 0 1 [])). vm_compute in H. discriminate H.
Qed.

(** C8 (amended). Each sorter is a function of its input, and returns a
    rearrangement of it in descending order: the lexicographical sorter by
    name; the semver sorter the tags with a valid version first, by
    version (for a [semver.Compare] that is an ordering), then the other
    tags by name.  When no two tags of a group compare equal, the output
    is the same whatever [sort.Slice] does within its contract.  With
    Go's [sort.Slice], tags that compare equal keep the order of the input
    as long as the sorted group has at most 12 tags; on a longer group
    they need not. *)
Theorem sorters_order_descending
    (L : GoLib) (tags : list Tag)
    (HL : sort_Slice_contract L)
    (Hsemver : strictWeakOrder (fun v w => semver_Compare L v w >? 0)) :
  (Permutation (Sort L LexicographicalSorter tags) tags
   /\ ordered lexLess (Sort L LexicographicalSorter tags)
   /\ (noTies lexLess tags ->
       forall srt, sort_Slice_contract (withSort L srt) ->
                   Sort (withSort L srt) LexicographicalSorter tags
                   = Sort L LexicographicalSorter tags))
  /\ (forall pat,
        let valid t := semver_IsValid L (semverKey pat t) in
        let invalid t := negb (valid t) in
        (exists versioned others,
            Sort L (SemverSorter pat) tags = versioned ++ others
            /\ Permutation versioned (List.filter valid tags)
            /\ Permutation others (List.filter invalid tags)
            /\ ordered (semverLess L pat) versioned
            /\ ordered lexLess others)
        /\ (noTies (semverLess L pat) (List.filter valid tags) ->
            noTies lexLess (List.filter invalid tags) ->
            forall srt, sort_Slice_contract (withSort L srt) ->
                        Sort (withSort L srt) (SemverSorter pat) tags
                        = Sort L (SemverSorter pat) tags))
  /\ ((length tags <= 12)%nat ->
      Permutation (Sort (withGoSort L) LexicographicalSorter tags) tags
      /\ ordered lexLess (Sort (withGoSort L) LexicographicalSorter tags)
      /\ stable lexLess tags (Sort (withGoSort L) LexicographicalSorter tags))
  /\ (forall pat,
        let valid t := semver_IsValid L (semverKey pat t) in
        let invalid t := negb (valid t) in
        (length (List.filter valid tags) <= 12)%nat ->
        (length (List.filter invalid tags) <= 12)%nat ->
        exists versioned others,
          Sort (withGoSort L) (SemverSorter pat) tags = versioned ++ others
          /\ Permutation versioned (List.filter valid tags)
          /\ Permutation others (List.filter invalid tags)
          /\ ordered (semverLess L pat) versioned
          /\ ordered lexLess others
          /\ stable (semverLess L pat) (List.filter valid tags) versioned
          /\ stable lexLess (List.filter invalid tags) others).
Proof.
  assert (Huniq : forall less srt l,
             strictWeakOrder less -> sort_Slice_contract (withSort L srt) ->
             noTies less l -> srt less l = sort_Slice L less l).
  { intros less srt l Hless [Hperm' Hord'] Hties.
    destruct HL as [Hperm Hord].
    apply (ordered_perm_unique less).
    - etransitivity; [apply (Hperm' less l)|symmetry; apply Hperm].
    - apply (Hord' less l Hless).
    - apply Hord, Hless.
    - eapply noTies_perm; [symmetry; apply (Hperm' less l)|exact Hties]. }
  assert (Hsv : forall pat, strictWeakOrder (semverLess L pat)).
  { intros pat. unfold semverLess.
    apply (strictWeakOrder_on (fun v w => semver_Compare L v w >? 0) (semverKey pat)).
    exact Hsemver. }
  destruct HL as [Hperm Hord]. split; [|split; [|split]].
  - split; [apply Hperm|]. split; [apply Hord, lexLess_strictWeakOrder|].
    intros Hties srt Hsrt. cbn [Sort].
    now apply (Huniq lexLess srt tags lexLess_strictWeakOrder).
  - intros pat valid invalid. split.
    + cbn [Sort]. rewrite semverSplit_filter. cbn [app].
      eexists _, _. split; [reflexivity|].
      split; [apply Hperm|]. split; [apply Hperm|].
      split; [apply Hord, Hsv|apply Hord, lexLess_strictWeakOrder].
    + intros Hv Ho srt Hsrt. cbn [Sort]. rewrite !semverSplit_filter. cbn [app].
      change (semver_IsValid (withSort L srt)) with (semver_IsValid L).
      change (semverLess (withSort L srt) pat) with (semverLess L pat).
      change (sort_Slice (withSort L srt)) with srt.
      f_equal.
      * now apply (Huniq (semverLess L pat) srt _ (Hsv pat)).
      * now apply (Huniq lexLess srt _ lexLess_strictWeakOrder).
  - intros Hlen. cbn [Sort withGoSort sort_Slice].
    rewrite gosort_Slice_small by exact Hlen.
    split; [apply insertionSort_perm|].
    split; [apply insertionSort_ordered, lexLess_strictWeakOrder|].
    apply insertionSort_stable, lexLess_strictWeakOrder.
  - intros pat valid invalid Hv Ho. cbn [Sort]. rewrite semverSplit_filter. cbn [app].
    change (semver_IsValid (withGoSort L)) with (semver_IsValid L).
    change (semverLess (withGoSort L) pat) with (semverLess L pat).
    change (sort_Slice (withGoSort L)) with gosort.Slice.
    fold valid. fold invalid.
    rewrite !gosort_Slice_small by assumption.
    eexists _, _. split; [reflexivity|].
    split; [apply insertionSort_perm|]. split; [apply insertionSort_perm|].
    split; [apply insertionSort_ordered, Hsv|].
    split; [apply insertionSort_ordered, lexLess_strictWeakOrder|].
    split; [apply insertionSort_stable, Hsv|].
    apply insertionSort_stable, lexLess_strictWeakOrder.
Qed.

(** ** The properties on the run on three tags *)

Lemma classification_partitions_filtered_witness :
  let keep := fst (decisions exampleEnv exampleLib (exampleCleaner true) [tagA; tagB; tagC]) in
  let del := snd (decisions exampleEnv exampleLib (exampleCleaner true) [tagA; tagB; tagC]) in
  keep = [tagC; tagA] /\ del = [tagB]
  /\ Permutation (keep ++ del) [tagA; tagB; tagC]
  /\ (forall t, In t keep -> In t del -> False).
Proof.
  intros keep del.
  destruct (classification_partitions_filtered exampleEnv exampleLib (exampleCleaner true)
              [tagA; tagB; tagC] (contract_permutes _ exampleLib_contract))
    as (HP & _ & Hdisj).
  split; [reflexivity|]. split; [reflexivity|]. split; [exact HP|].
  apply Hdisj. left. simpl.
  repeat constructor; simpl; intuition discriminate.
Defined.

Lemma throttled_request_is_retried_witness :
  let throttle := Reply (mkResponse 429 "slow down") in
  let ok := mkResponse 200 "ok" in
  let second (s : Z) := [EvSleep (s * 1000000000); EvDo exampleRequest] in
  (exists w',
      doRequest (scriptedEnv [throttle; throttle; Reply ok] 0 []) NewClient
        exampleRequest initial = (Done ok, w')
      /\ log w' = [EvWait; EvDo exampleRequest] ++ second 1 ++ second 2)
  /\ (exists w',
         doRequest (scriptedEnv (repeat throttle 6) 0 []) NewClient
           exampleRequest initial = (Fail ErrRateLimited, w')
         /\ log w' = [EvWait; EvDo exampleRequest]
                       ++ second 1 ++ second 2 ++ second 4 ++ second 8 ++ second 16).
Proof.
  intros throttle ok second. split.
  - destruct (throttled_request_is_retried
                (scriptedEnv [throttle; throttle; Reply ok] 0 []) NewClient
                exampleRequest initial eq_refl eq_refl) as [_ H].
    apply (H 2%nat ok).
    + lia.
    + intros j Hj. assert (j = 1%nat) as -> by lia. reflexivity.
    + reflexivity.
    + discriminate.
  - destruct (throttled_request_is_retried
                (scriptedEnv (repeat throttle 6) 0 []) NewClient
                exampleRequest initial eq_refl eq_refl) as [H _].
    apply H. intros j Hj.
    do 6 (destruct j as [|j]; [first [lia|reflexivity]|]). lia.
Defined.

Lemma ListTags_concatenates_pages_witness :
  (exists w', ListTags 3 exampleEnv NewClient "user/app" initial
              = (Done [tagA; tagB; tagC], w') /\ sent w' = 2%nat)
  /\ fst (ListTags 3
            (scriptedEnv [Reply (mkResponse 200 "p1"); Reply (mkResponse 404 "gone")]
               0 examplePages)
            NewClient "user/app" initial) = Fail ErrNotFound.
Proof.
  split.
  - assert (Hps : forall i p, [page1] !! i = Some p ->
                    servesPage exampleEnv NewClient "user/app" 1 initial i p
                    /\ hasNext p = true).
    { intros [|[|i]] p Hp; try discriminate. injection Hp as <-.
      split; [|reflexivity]. split; [reflexivity|]. split; [reflexivity|].
      exists (mkResponse 200 "p1"). repeat split; reflexivity. }
    destruct (ListTags_concatenates_pages exampleEnv NewClient "user/app" initial
                [page1] 3 Hps ltac:(simpl; lia)) as [H _].
    apply (H page2); [|reflexivity].
    split; [reflexivity|]. split; [reflexivity|].
    exists (mkResponse 200 "p2"). repeat split; reflexivity.
  - set (E := scriptedEnv [Reply (mkResponse 200 "p1"); Reply (mkResponse 404 "gone")]
                0 examplePages).
    assert (Hps : forall i p, [page1] !! i = Some p ->
                    servesPage E NewClient "user/app" 1 initial i p
                    /\ hasNext p = true).
    { intros [|[|i]] p Hp; try discriminate. injection Hp as <-.
      split; [|reflexivity]. split; [reflexivity|]. split; [reflexivity|].
      exists (mkResponse 200 "p1"). repeat split; reflexivity. }
    destruct (ListTags_page E NewClient "user/app" (pageAfter 1 (length [page1]))
                (afterPages NewClient "user/app" 1 (length [page1]) initial))
      as [res wf] eqn:Hpage.
    assert (Hres : res = Fail ErrNotFound).
    { change res with (fst (res, wf)). rewrite <- Hpage. reflexivity. }
    subst res.
    destruct (ListTags_concatenates_pages E NewClient "user/app" initial
                [page1] 3 Hps ltac:(simpl; lia)) as (_ & H & _).
    rewrite (H ErrNotFound wf Hpage). reflexivity.
Defined.

Lemma exampleEnv_fetch :
  fst (ListTags 3 exampleEnv NewClient "user/app" initial) = Done [tagA; tagB; tagC].
Proof. reflexivity. Qed.

Lemma dry_run_reports_without_deleting_witness :
  exists r w1,
    Clean 3 exampleEnv exampleLib (exampleCleaner true) "user/app" initial = (Done r, w1)
    /\ deleteCalls (log w1) = 0%nat
    /\ DeletedTags r = ["B"]
    /\ ReclaimedSize r = 200
    /\ KeptTags r = 2.
Proof.
  pose proof exampleEnv_fetch as Hfst.
  destruct (ListTags 3 exampleEnv NewClient "user/app" initial) as [res w1] eqn:Hfetch.
  simpl in Hfst. subst res.
  destruct (dry_run_reports_without_deleting 3 exampleEnv exampleLib (exampleCleaner true)
              "user/app" initial w1 [tagA; tagB; tagC]
              (contract_permutes _ exampleLib_contract) eq_refl Hfetch
              ltac:(discriminate))
    as (r & HClean & Hcalls & Hdeleted & _ & _ & Hsize).
  exists r, w1. split; [exact HClean|]. split; [exact Hcalls|].
  split; [exact Hdeleted|]. split.
  - apply Hsize. vm_compute. split; discriminate.
  - rewrite (Clean_decisions 3 exampleEnv exampleLib (exampleCleaner true) "user/app"
               initial w1 [tagA; tagB; tagC] Hfetch ltac:(discriminate)) in HClean.
    injection HClean as <- . reflexivity.
Defined.

Lemma nil_policy_deletes_everything_witness :
  let c0 := mkCleaner NewClient None None (Some LexicographicalSorter) true false in
  let c1 := mkCleaner NewClient None (Some (NewCompositePolicy PolicyModeOR []))
              (Some LexicographicalSorter) true false in
  (exists r w', Clean 3 exampleEnv exampleLib c0 "user/app" initial = (Done r, w')
                /\ KeptTags r = 0)
  /\ decisions exampleEnv exampleLib c0 [tagA; tagB; tagC] = ([], [tagC; tagB; tagA])
  /\ decisions exampleEnv exampleLib c1 [tagA; tagB; tagC] = ([tagC; tagB; tagA], []).
Proof.
  intros c0 c1.
  pose proof exampleEnv_fetch as Hfst.
  destruct (ListTags 3 exampleEnv NewClient "user/app" initial) as [res w1] eqn:Hfetch.
  simpl in Hfst. subst res.
  destruct (nil_policy_deletes_everything 3 exampleEnv exampleLib "user/app" initial w1
              [tagA; tagB; tagC] NewClient None (Some LexicographicalSorter) true false
              PolicyModeOR (contract_permutes _ exampleLib_contract) Hfetch)
    as [(_ & _ & H0) _].
  split; [exact H0|]. split; reflexivity.
Defined.

Lemma error_status_is_mapped_without_retry_witness :
  let E := scriptedEnv [Reply (mkResponse 404 "no such tag")] 0 [] in
  let F := scriptedEnv [Reply (mkResponse 500 "oops")] 0 [] in
  fst (DeleteTag E NewClient "user/app" "v1" initial) = Fail ErrNotFound
  /\ fst (Authenticate E NewClient "user" "secret" initial)
     = Fail (APIError 404 "no such tag" "/users/login/")
  /\ fst (GetRepository F NewClient "user/app" initial)
     = Fail (APIError 500 "oops" "https://hub.docker.com/v2/repositories/user/app/")
  /\ sent (snd (GetRepository F NewClient "user/app" initial)) = 1%nat.
Proof.
  intros E F.
  destruct (error_status_is_mapped_without_retry E NewClient initial
              (mkResponse 404 "no such tag") eq_refl eq_refl
              ltac:(discriminate) ltac:(simpl; lia)) as (_ & Hdelete & _ & Hlogin).
  destruct (error_status_is_mapped_without_retry F NewClient initial
              (mkResponse 500 "oops") eq_refl eq_refl
              ltac:(discriminate) ltac:(simpl; lia)) as (_ & _ & Hrepo & _).
  rewrite Hdelete, Hlogin, Hrepo by reflexivity. repeat split.
Defined.

Lemma insertionSort_rev_contract :
  sort_Slice_contract (withSort exampleLib (fun less l => insertionSort less (rev l))).
Proof.
  split.
  - intros less l. cbn. etransitivity; [apply insertionSort_perm|].
    symmetry. apply Permutation_rev.
  - intros less l. apply insertionSort_ordered.
Qed.

Lemma sorters_order_descending_witness :
  let v1 := mkTag "1.0.0" 1 10 [] in
  let v2 := mkTag "v1.0.0" 2 20 [] in
  Sort exampleLib LexicographicalSorter [tagA; tagB; tagC] = [tagC; tagB; tagA]
  /\ Permutation (Sort exampleLib LexicographicalSorter [tagA; tagB; tagC])
       [tagA; tagB; tagC]
  /\ ordered lexLess (Sort exampleLib LexicographicalSorter [tagA; tagB; tagC])
  /\ Sort (withSort exampleLib (fun less l => insertionSort less (rev l)))
       LexicographicalSorter [tagA; tagB; tagC]
     = Sort exampleLib LexicographicalSorter [tagA; tagB; tagC]
  /\ Sort (withGoSort exampleLib) (SemverSorter None) [v1; v2] = [v1; v2]
  /\ Sort (withGoSort exampleLib) (SemverSorter None) [v2; v1] = [v2; v1]
  /\ stable lexLess [tagA; tagB; tagC]
       (Sort (withGoSort exampleLib) LexicographicalSorter [tagA; tagB; tagC]).
Proof.
  intros v1 v2.
  destruct (sorters_order_descending exampleLib [tagA; tagB; tagC]
              exampleLib_contract stringCompare_strictWeakOrder)
    as ((HP & HO & HU) & _ & HG & _).
  split; [reflexivity|]. split; [exact HP|]. split; [exact HO|].
  split; [|split; [reflexivity|split; [reflexivity|]]].
  - apply HU; [|exact insertionSort_rev_contract].
    split.
    + repeat constructor; simpl; intuition discriminate.
    + intros a b Ha Hb. simpl in Ha, Hb.
      destruct Ha as [<-|[<-|[<-|[]]]]; destruct Hb as [<-|[<-|[<-|[]]]];
        intros H; first [reflexivity | discriminate H].
  - apply HG. simpl. lia.
Defined.

(* ================================================================== *)
(** * Part III (continued): the rest of the code                       *)
(* ================================================================== *)

(** ** Filters *)

Lemma filter_all {A} (f : A -> bool) (l : list A) :
  (forall x, In x l -> f x = true) -> List.filter f l = l.
Proof.
  induction l as [|x l IH]; intros H; simpl; [reflexivity|].
  rewrite (H x (or_introl eq_refl)). f_equal. apply IH. intros y Hy. apply H. now right.
Qed.

Lemma filter_none {A} (f : A -> bool) (l : list A) :
  (forall x, In x l -> f x = false) -> List.filter f l = [].
Proof.
  induction l as [|x l IH]; intros H; simpl; [reflexivity|].
  rewrite (H x (or_introl eq_refl)). apply IH. intros y Hy. apply H. now right.
Qed.

Lemma filter_andb {A} (f g : A -> bool) (l : list A) :
  List.filter (fun x => f x && g x) l = List.filter g (List.filter f l).
Proof.
  induction l as [|x l IH]; simpl; [reflexivity|].
  destruct (f x); simpl; [destruct (g x)|]; now rewrite IH.
Qed.

(** X1. An absent filter, the always-match filter and a composite filter
    without members all let every tag through: [FilterTags] returns the
    list as it is. *)
Theorem FilterTags_without_filter (tags : list Tag) :
  FilterTags tags None = tags
  /\ FilterTags tags (Some AlwaysMatchFilter) = tags
  /\ FilterTags tags (Some (NewCompositeFilter [])) = tags.
Proof.
  split; [reflexivity|]. split; apply filter_all; reflexivity.
Qed.

(** X2. A composite filter is the conjunction of its members, and
    filtering by it is filtering by its members one after the other:
    by the first member, then by the composite of the others. *)
Theorem CompositeFilter_filters_in_turn
    (f : TagFilter) (fs : list TagFilter) (tags : list Tag) :
  (forall tag, Matches (NewCompositeFilter (f :: fs)) tag = true <->
               forall g, In g (f :: fs) -> Matches g tag = true)
  /\ FilterTags tags (Some (NewCompositeFilter (f :: fs)))
     = FilterTags (FilterTags tags (Some f)) (Some (NewCompositeFilter fs)).
Proof.
  split.
  - intros tag. unfold NewCompositeFilter. cbn [Matches]. apply forallb_forall.
  - unfold FilterTags, NewCompositeFilter. cbn [Matches forallb].
    apply (filter_andb (fun t => Matches f (Name t))
             (fun t => forallb (fun g => Matches g (Name t)) fs)).
Qed.

(** X3. A pattern filter and the same pattern inverted split a tag list:
    each tag passes exactly one of the two, and both keep the order of
    the list. *)
Theorem RegexFilter_invert_splits (pattern : Regexp) (tags : list Tag) :
  let included := FilterTags tags (Some (RegexFilter pattern false)) in
  let excluded := FilterTags tags (Some (RegexFilter pattern true)) in
  Permutation (included ++ excluded) tags
  /\ (forall t, In t included -> In t excluded -> False)
  /\ included = List.filter (fun t => MatchString pattern (Name t)) tags
  /\ excluded = List.filter (fun t => negb (MatchString pattern (Name t))) tags.
Proof.
  intros included excluded. subst included excluded. unfold FilterTags. cbn [Matches].
  split; [apply (filter_partition (fun t => MatchString pattern (Name t)))|].
  split; [|split; reflexivity].
  intros t H1 H2. apply filter_In in H1, H2. destruct H1 as [_ H1], H2 as [_ H2].
  rewrite H1 in H2. discriminate.
Qed.

(** X4. When the patterns of the command line compile, the filter that
    [run] builds lets through exactly the tags whose name matches the tag
    pattern (if one is given) and does not match the exclude pattern (if
    one is given), in their order; [run] builds no filter when both
    patterns are empty, and fails on the first pattern that does not
    compile. *)
Theorem run_filter_applies_patterns (cli : Cli) (fl : Flags) :
  (forall tf, run_filter cli fl = inr tf ->
     (forall tags, FilterTags tags tf
                   = List.filter (fun t => passesPatterns cli fl (Name t)) tags)
     /\ (tf = None <-> flag_tagPattern fl = "" /\ flag_excludePattern fl = ""))
  /\ (forall e, run_filter cli fl = inl e <->
        (exists err, flag_tagPattern fl <> ""
                     /\ regexp_Compile cli (flag_tagPattern fl) = inl err
                     /\ e = RunErrorf "invalid tag pattern"
                            (Errorf "failed to compile regex pattern" (LibraryError err)))
        \/ (exists err, (flag_tagPattern fl = ""
                         \/ exists re, regexp_Compile cli (flag_tagPattern fl) = inr re)
                        /\ flag_excludePattern fl <> ""
                        /\ regexp_Compile cli (flag_excludePattern fl) = inl err
                        /\ e = RunErrorf "invalid exclude pattern"
                               (Errorf "failed to compile regex pattern" (LibraryError err)))).
Proof.
  unfold run_filter, passesPatterns, NewRegexFilter, NewCompositeFilter.
  destruct (String.eqb_spec (flag_tagPattern fl) "") as [Ht|Ht];
    destruct (String.eqb_spec (flag_excludePattern fl) "") as [Hx|Hx]; cbn [negb].
  - split.
    + intros tf [= <-]. split; [|tauto].
      intros tags. symmetry. apply filter_all. reflexivity.
    + intros e. split; [discriminate|].
      intros [(err & H & _)|(err & _ & H & _)]; contradiction.
  - destruct (regexp_Compile cli (flag_excludePattern fl)) as [err|re]; split.
    + discriminate.
    + intros e. split.
      * intros [= <-]. right. exists err. repeat split; auto.
      * intros [(err' & H & _)|(err' & _ & _ & [= ->] & ->)]; [contradiction|reflexivity].
    + intros tf [= <-]. split; [|split; [discriminate|tauto]].
      intros tags. unfold FilterTags. cbn [Matches forallb app].
      apply filter_ext. intros t. now rewrite andb_true_r.
    + intros e. split; [discriminate|].
      intros [(err' & H & _)|(err' & _ & _ & H & _)]; [contradiction|discriminate].
  - destruct (regexp_Compile cli (flag_tagPattern fl)) as [err|re]; split.
    + discriminate.
    + intros e. split.
      * intros [= <-]. left. exists err. repeat split; auto.
      * intros [(err' & _ & [= ->] & ->)|(err' & _ & H & _)]; [reflexivity|contradiction].
    + intros tf [= <-]. split; [|split; [discriminate|tauto]].
      intros tags. unfold FilterTags. cbn [Matches forallb app].
      apply filter_ext. intros t. reflexivity.
    + intros e. split; [discriminate|].
      intros [(err' & _ & H & _)|(err' & _ & H & _)]; [discriminate|contradiction].
  - destruct (regexp_Compile cli (flag_tagPattern fl)) as [err|re].
    + split; [discriminate|].
      intros e. split.
      * intros [= <-]. left. exists err. repeat split; auto.
      * intros [(err' & _ & [= ->] & ->)|(err' & [H|(re & H)] & _)];
          [reflexivity|contradiction|discriminate].
    + destruct (regexp_Compile cli (flag_excludePattern fl)) as [err|rx]; split.
      * discriminate.
      * intros e. split.
        -- intros [= <-]. right. exists err. repeat split; eauto.
        -- intros [(err' & _ & H & _)|(err' & _ & _ & [= ->] & ->)];
             [discriminate|reflexivity].
      * intros tf [= <-]. split; [|split; [discriminate|tauto]].
        intros tags. unfold FilterTags. cbn [Matches forallb app].
        apply filter_ext. intros t. now rewrite andb_true_r.
      * intros e. split; [discriminate|].
        intros [(err' & _ & H & _)|(err' & _ & _ & H & _)]; discriminate.
Qed.

Lemma run_filter_applies_patterns_witness :
  let fl := mkFlags "" "" "t" "user/app" 0 1 "lexicographical" "" "B" "" true false 5 in
  exists tf, run_filter exampleCli fl = inr tf
             /\ FilterTags [tagA; tagB; tagC] tf = [tagA; tagC].
Proof.
  intros fl.
  destruct (run_filter_applies_patterns exampleCli fl) as [Hok _].
  eexists. split; [reflexivity|].
  destruct (Hok _ eq_refl) as [Hfilter _]. rewrite Hfilter. reflexivity.
Defined.

(** ** Policies *)

Lemma NoDup_names_lookup (l : list Tag) (i j : nat) (t u : Tag) :
  List.NoDup (map Name l) ->
  l !! i = Some t -> l !! j = Some u -> Name t = Name u -> i = j.
Proof.
  intros Hnd Hi Hj Hname. apply NoDup_ListNoDup in Hnd.
  apply (NoDup_lookup (map Name l) i j (Name t) Hnd).
  - change (map Name l) with (Name <$> l). now rewrite list_lookup_fmap, Hi.
  - change (map Name l) with (Name <$> l). now rewrite list_lookup_fmap, Hj, Hname.
Qed.

(** X5. When the names of the list given at construction are pairwise
    distinct and the count policy classifies that same list, the keep-list
    is the first [min N M] tags of the list (none for a count below 1) and
    the delete-list is the rest, in order. *)
Theorem count_policy_splits_its_snapshot
    (E : Env) (N : Z) (sorted : list Tag)
    (Hnames : List.NoDup (map Name sorted)) :
  classify E (Some (NewCountRetentionPolicy N sorted)) 0 sorted [] []
  = (take (keptCount N sorted) sorted, drop (keptCount N sorted) sorted).
Proof.
  rewrite classify_select. cbn [app].
  set (p := NewCountRetentionPolicy N sorted).
  rewrite (select_const (fun u => ShouldKeep 0 p u)).
  rewrite (select_const (fun u => negb (ShouldKeep 0 p u))).
  set (n := keptCount N sorted).
  assert (Hin : forall t, In t (take n sorted) -> ShouldKeep 0 p t = true).
  { intros t Ht. apply list_elem_of_In, list_elem_of_lookup in Ht.
    destruct Ht as [i Hi]. apply lookup_take_Some in Hi. destruct Hi as [Hi Hlt].
    apply NewCountRetentionPolicy_keeps. exists i, t. repeat split; auto.
    subst n. unfold keptCount in Hlt. lia. }
  assert (Hout : forall t, In t (drop n sorted) -> ShouldKeep 0 p t = false).
  { intros t Ht. apply list_elem_of_In, list_elem_of_lookup in Ht.
    destruct Ht as [i Hi]. rewrite lookup_drop in Hi.
    destruct (ShouldKeep 0 p t) eqn:Hk; [|reflexivity]. exfalso.
    apply NewCountRetentionPolicy_keeps in Hk. destruct Hk as (j & u & Hj & Hu & Hname).
    assert (j = (n + i)%nat) by (eapply NoDup_names_lookup; eauto).
    subst n j. unfold keptCount in *. lia. }
  f_equal.
  - transitivity (List.filter (fun u => ShouldKeep 0 p u) (take n sorted ++ drop n sorted));
      [now rewrite take_drop|].
    rewrite List.filter_app.
    rewrite (filter_all (fun u => ShouldKeep 0 p u) (take n sorted)) by exact Hin.
    rewrite (filter_none (fun u => ShouldKeep 0 p u) (drop n sorted)) by exact Hout.
    apply app_nil_r.
  - transitivity (List.filter (fun u => negb (ShouldKeep 0 p u))
                    (take n sorted ++ drop n sorted));
      [now rewrite take_drop|].
    rewrite List.filter_app.
    rewrite (filter_none (fun u => negb (ShouldKeep 0 p u)) (take n sorted))
      by (intros t Ht; now rewrite (Hin t Ht)).
    rewrite (filter_all (fun u => negb (ShouldKeep 0 p u)) (drop n sorted))
      by (intros t Ht; now rewrite (Hout t Ht)).
    reflexivity.
Qed.

Lemma count_policy_splits_its_snapshot_witness :
  classify exampleEnv (Some (NewCountRetentionPolicy 2 [tagC; tagB; tagA])) 0
    [tagC; tagB; tagA] [] []
  = ([tagC; tagB], [tagA]).
Proof.
  apply (count_policy_splits_its_snapshot exampleEnv 2 [tagC; tagB; tagA]).
  repeat constructor; simpl; intuition discriminate.
Defined.

(** X6. The policy that [run] builds from the flags keeps a tag if and
    only if a positive [--keep-days] keeps it by age or a positive
    [--keep-count] keeps it by rank; when neither flag is positive (they
    may be negative), it is the composite without members, which keeps
    every tag. *)
Theorem run_policy_is_days_or_count
    (fl : Flags) (sortedTags : list Tag) (now : time.Time) (tag : Tag) :
  (ShouldKeep now (run_policy fl sortedTags) tag
   = if (0 <? flag_keepDays fl) || (0 <? flag_keepCount fl) then
       ((0 <? flag_keepDays fl)
          && ShouldKeep now (NewDaysRetentionPolicy (flag_keepDays fl)) tag)
       || ((0 <? flag_keepCount fl)
             && ShouldKeep now (NewCountRetentionPolicy (flag_keepCount fl) sortedTags) tag)
     else true)
  /\ (flag_keepDays fl <= 0 -> flag_keepCount fl <= 0 ->
      run_policy fl sortedTags = NewCompositePolicy PolicyModeOR []).
Proof.
  unfold run_policy. split.
  - destruct (0 <? flag_keepDays fl), (0 <? flag_keepCount fl); cbn [app orb andb].
    + cbn [NewCompositePolicy ShouldKeep]. change (PolicyModeOR =? PolicyModeOR) with true.
      cbn [existsb]. now rewrite orb_false_r.
    + now rewrite orb_false_r.
    + reflexivity.
    + reflexivity.
  - intros Hd Hc.
    destruct (Z.ltb_spec 0 (flag_keepDays fl)); [lia|].
    destruct (Z.ltb_spec 0 (flag_keepCount fl)); [lia|]. reflexivity.
Qed.

Lemma run_policy_is_days_or_count_witness :
  run_policy (mkFlags "" "" "t" "user/app" (-1) 0 "lexicographical" "" "" "" false false 5)
    [tagC; tagB; tagA]
  = NewCompositePolicy PolicyModeOR [].
Proof.
  apply (run_policy_is_days_or_count
           (mkFlags "" "" "t" "user/app" (-1) 0 "lexicographical" "" "" "" false false 5)
           [tagC; tagB; tagA] 0 tagA); simpl; lia.
Defined.

(** ** Transport: what a call sends at most *)

Lemma doRequest_backoff_events (E : Env) (req : Request) :
  forall (n : nat) (i : Z) (w : World),
    exists k, (k <= n)%nat
      /\ snd (doRequest_backoff E req i n w)
         = mkWorld (sent w + k) (waited w) (log w ++ backoffEvents req i k).
Proof.
  induction n as [|n IH]; intros i w.
  - exists 0%nat. split; [lia|]. simpl. rewrite Nat.add_0_r, app_nil_r. now destruct w.
  - cbn [doRequest_backoff]. run_M.
    destruct (roundTrip E (sent w)) as [resp|err].
    + destruct (StatusCode resp =? http.StatusTooManyRequests); cbn [negb].
      * match goal with |- context [doRequest_backoff E req ?i' n ?w'] =>
          destruct (IH i' w') as (k & Hk & Hw) end.
        exists (S k). split; [lia|]. rewrite Hw. cbn [sent waited log backoffEvents].
        f_equal; [lia|]. now rewrite <- !app_assoc.
      * exists 1%nat. split; [lia|]. cbn [snd backoffEvents].
        f_equal; [lia|]. now rewrite <- !app_assoc, app_nil_r.
    + exists 1%nat. split; [lia|]. cbn [snd backoffEvents].
      f_equal; [lia|]. now rewrite <- !app_assoc, app_nil_r.
Qed.

(** X7. Whatever the server answers, one call of [doRequest] waits for one
    permit and then sends at most six requests, all of them the request
    it was given (with the authorization header), the [k] re-sends after
    sleeps of 1, 2, 4, 8 and 16 seconds: never more than 31 seconds in
    all.  It sends nothing when the permit is refused. *)
Theorem doRequest_sends_at_most_six
    (E : Env) (c : Client) (req : Request) (w : World) :
  let w' := snd (doRequest E c req w) in
  let sentReq := withAuthorization c req in
  let retry (seconds : Z) := [EvSleep (seconds * time.Second); EvDo sentReq] in
  waited w' = S (waited w)
  /\ ((permit E (waited w) <> None /\ sent w' = sent w /\ log w' = log w ++ [EvWait])
      \/ (permit E (waited w) = None
          /\ exists k, (k <= 5)%nat
               /\ sent w' = (sent w + 1 + k)%nat
               /\ log w' = log w ++ [EvWait; EvDo sentReq]
                                 ++ flat_map retry (firstn k [1; 2; 4; 8; 16]))).
Proof.
  intros w' sentReq retry. subst w' sentReq retry. rewrite doRequest_unfold.
  destruct (permit E (waited w)) as [e|].
  - split; [reflexivity|]. left. repeat split. discriminate.
  - assert (Hzero : exists k, (k <= 5)%nat
                /\ sent (afterRoundTrip c req w) = (sent w + 1 + k)%nat
                /\ log (afterRoundTrip c req w)
                   = log w ++ [EvWait; EvDo (withAuthorization c req)]
                       ++ flat_map (fun seconds =>
                            [EvSleep (seconds * time.Second);
                             EvDo (withAuthorization c req)])
                            (firstn k [1; 2; 4; 8; 16])).
    { exists 0%nat. cbn. split; [lia|]. split; [lia|reflexivity]. }
    destruct (roundTrip E (sent w)) as [resp|err].
    + destruct (StatusCode resp =? http.StatusTooManyRequests).
      * destruct (doRequest_backoff_events E (withAuthorization c req) 5 0
                    (afterRoundTrip c req w)) as (k & Hk & Hw).
        rewrite Hw. cbn [sent waited log afterRoundTrip].
        split; [reflexivity|]. right. split; [reflexivity|].
        exists k. split; [exact Hk|]. split; [lia|].
        rewrite backoffEvents_delays by lia. now rewrite <- app_assoc.
      * split; [reflexivity|]. right. split; [reflexivity|exact Hzero].
    + split; [reflexivity|]. right. split; [reflexivity|exact Hzero].
Qed.

Lemma doRequest_backoff_conn_error (E : Env) (req : Request) (err : string) :
  forall (k n : nat) (i : Z) (w : World),
    (k < n)%nat ->
    (forall j, (j < k)%nat -> throttled (roundTrip E (sent w + j)) = true) ->
    roundTrip E (sent w + k) = ConnError err ->
    doRequest_backoff E req i n w =
    (Fail (NetworkErrorf err),
     mkWorld (sent w + S k) (waited w) (log w ++ backoffEvents req i (S k))).
Proof.
  induction k as [|k IH]; intros n i w Hkn Hthr Hk;
    (destruct n as [|n]; [lia|]); simpl; run_M.
  - rewrite Nat.add_0_r in Hk. rewrite Hk. simpl.
    f_equal. f_equal; [lia|]. now rewrite <- !app_assoc.
  - destruct (throttled_Reply _ (Hthr 0%nat ltac:(lia))) as (r0 & Hr & Hs0).
    rewrite Nat.add_0_r in Hr. rewrite Hr, Hs0. simpl.
    rewrite (IH n); simpl.
    + f_equal. f_equal; [lia|]. now rewrite <- !app_assoc.
    + lia.
    + intros j Hj. same_index (Hthr (S j) ltac:(lia)).
    + same_index Hk.
Qed.

(** X8. A connection error is never retried: whether it answers the first
    send or a re-send after [k] throttling responses, the call ends there
    with the network error, after [k + 1] sends. *)
Theorem connection_error_is_not_retried
    (E : Env) (c : Client) (req : Request) (w : World) (k : nat) (err : string)
    (Hpermit : permit E (waited w) = None)
    (Hk : (k <= 5)%nat)
    (Hthrottled : forall j, (j < k)%nat -> throttled (roundTrip E (sent w + j)) = true)
    (Herr : roundTrip E (sent w + k) = ConnError err) :
  exists w',
    doRequest E c req w = (Fail (NetworkErrorf err), w')
    /\ sent w' = (sent w + k + 1)%nat
    /\ log w' = log w ++ [EvWait; EvDo (withAuthorization c req)]
                      ++ backoffEvents (withAuthorization c req) 0 k.
Proof.
  rewrite doRequest_unfold, Hpermit.
  destruct k as [|k].
  - rewrite Nat.add_0_r in Herr. rewrite Herr. eexists. split; [reflexivity|].
    cbn. split; [lia|reflexivity].
  - destruct (throttled_Reply _ (Hthrottled 0%nat ltac:(lia))) as (r0 & Hr0 & Hs0).
    rewrite Nat.add_0_r in Hr0. rewrite Hr0, Hs0.
    rewrite (doRequest_backoff_conn_error E _ err k); unfold afterRoundTrip;
      cbn [sent waited log].
    + eexists. split; [reflexivity|]. cbn [sent log]. split; [lia|].
      now rewrite <- !app_assoc.
    + lia.
    + intros j Hj. same_index (Hthrottled (S j) ltac:(lia)).
    + same_index Herr.
Qed.

Lemma connection_error_is_not_retried_witness :
  let throttle := Reply (mkResponse 429 "slow down") in
  exists w',
    doRequest (scriptedEnv [throttle] 0 []) NewClient exampleRequest initial
    = (Fail (NetworkErrorf "EOF"), w')
    /\ sent w' = 2%nat.
Proof.
  intros throttle.
  destruct (connection_error_is_not_retried (scriptedEnv [throttle] 0 []) NewClient
              exampleRequest initial 1 "EOF" eq_refl ltac:(lia)) as (w' & H & Hs & _).
  - intros j Hj. assert (j = 0%nat) as -> by lia. reflexivity.
  - reflexivity.
  - exists w'. split; [exact H|exact Hs].
Defined.

(** ** Transport: the four calls of the client *)

(** X9. When the limiter refuses the permit (the context ended while
    waiting), none of the four calls of the client sends a request: each
    fails with the limiter's error, wrapped as a rate limiter error. *)
Theorem refused_permit_sends_nothing
    (E : Env) (c : Client) (w : World) (e : string)
    (Hrefused : permit E (waited w) = Some e) :
  let err := Errorf "rate limiter error" (LibraryError e) in
  (forall req, doRequest E c req w = (Fail err, afterRefusal w))
  /\ (forall fuel repo,
        url_Parse E (ListTags_url c repo 1) = None ->
        ListTags (S fuel) E c repo w = (Fail err, afterRefusal w))
  /\ (forall repo tag,
        url_Parse E (DeleteTag_url c repo tag) = None ->
        DeleteTag E c repo tag w = (Fail err, afterRefusal w))
  /\ (forall repo,
        url_Parse E (GetRepository_url c repo) = None ->
        GetRepository E c repo w = (Fail err, afterRefusal w))
  /\ (forall user pass,
        url_Parse E (baseURL c +:+ "/users/login/") = None ->
        Authenticate E c user pass w = (Fail err, afterRefusal w))
  /\ sent (afterRefusal w) = sent w.
Proof.
  intros err.
  assert (Hdo : forall req, doRequest E c req w = (Fail err, afterRefusal w)).
  { intros req. now rewrite doRequest_unfold, Hrefused. }
  split; [exact Hdo|].
  split; [intros fuel repo Hu|split; [intros repo tag Hu|split;
    [intros repo Hu|split; [intros user pass Hu|reflexivity]]]].
  - unfold ListTags. cbn [ListTags_loop].
    unfold bind at 1, ListTags_page, http_NewRequestWithContext, bind.
    now rewrite Hu, Hdo.
  - unfold DeleteTag, http_NewRequestWithContext, bind. now rewrite Hu, Hdo.
  - unfold GetRepository, http_NewRequestWithContext, bind. now rewrite Hu, Hdo.
  - unfold Authenticate, http_NewRequestWithContext, bind. now rewrite Hu, Hdo.
Qed.

Lemma refused_permit_sends_nothing_witness :
  DeleteTag (cancelledEnv [Reply (mkResponse 204 "")]) NewClient "user/app" "v1" initial
  = (Fail (Errorf "rate limiter error" (LibraryError "context canceled")),
     mkWorld 0 1 [EvWait]).
Proof.
  destruct (refused_permit_sends_nothing (cancelledEnv [Reply (mkResponse 204 "")])
              NewClient initial "context canceled" eq_refl) as (_ & _ & H & _).
  apply (H "user/app" "v1"). reflexivity.
Defined.

(** X10. The request [doRequest] sends is the request it was given, with
    one change when the client holds a token: the header [Authorization]
    is set to [JWT] and the token, in place of an earlier value.  Method,
    URL, body and the other headers are kept; without a token the request
    is sent as it is. *)
Theorem withAuthorization_sets_one_header (c : Client) (req : Request) :
  Method (withAuthorization c req) = Method req
  /\ URL (withAuthorization c req) = URL req
  /\ RequestBody (withAuthorization c req) = RequestBody req
  /\ (forall key, key <> "Authorization" ->
        Header (withAuthorization c req) !! key = Header req !! key)
  /\ Header (withAuthorization c req) !! "Authorization"
     = (if String.eqb (token c) "" then Header req !! "Authorization"
        else Some ("JWT " +:+ token c))
  /\ (forall E w, sendsOnly (withAuthorization c req) w (snd (doRequest E c req w))).
Proof.
  assert (Hsend : forall E w,
             sendsOnly (withAuthorization c req) w (snd (doRequest E c req w))).
  { intros E w. apply doRequest_sends. }
  revert Hsend. unfold withAuthorization.
  destruct (String.eqb (token c) ""); cbn [negb]; intros Hsend.
  - repeat split; try reflexivity. exact Hsend.
  - cbn [Header_Set Method URL RequestBody Header].
    repeat split; try reflexivity; [|apply lookup_insert_eq|exact Hsend].
    intros key Hkey. now rewrite lookup_insert_ne.
Qed.

(** X11. A login answered with status 200 and a body that decodes stores
    the token and the user name in the client and changes nothing else of
    it; every later request of that client carries the header
    [Authorization: JWT <token>], unless the decoded token is empty, in
    which case the login still succeeds and later requests carry no
    token.  A body that does not decode fails the login.  A token set
    with [AuthenticateWithToken] is sent in the same way. *)
Theorem Authenticate_stores_token
    (E : Env) (c : Client) (user pass : string) (w : World) (resp : Response)
    (Hurl : url_Parse E (baseURL c +:+ "/users/login/") = None)
    (Hpermit : permit E (waited w) = None)
    (Hreply : roundTrip E (sent w) = Reply resp)
    (Hok : StatusCode resp = http.StatusOK) :
  let w' := afterRoundTrip c (Authenticate_request E c user pass) w in
  (forall lr, json_DecodeLogin E (Body resp) = Some lr ->
     let c' := mkClient (baseURL c) (httpTimeout c) (Token lr) user (limiter c) in
     Authenticate E c user pass w = (Done c', w')
     /\ (Token lr <> "" ->
         forall req, Header (withAuthorization c' req) !! "Authorization"
                     = Some ("JWT " +:+ Token lr))
     /\ (Token lr = "" -> forall req, withAuthorization c' req = req))
  /\ (json_DecodeLogin E (Body resp) = None ->
      Authenticate E c user pass w
      = (Fail (Errorf "failed to decode login response" (LibraryError "json")), w'))
  /\ (forall t req, t <> "" ->
        Header (withAuthorization (AuthenticateWithToken c t) req) !! "Authorization"
        = Some ("JWT " +:+ t)).
Proof.
  intros w'.
  assert (Hrun : Authenticate E c user pass w =
                 match json_DecodeLogin E (Body resp) with
                 | None => (Fail (Errorf "failed to decode login response"
                                    (LibraryError "json")), w')
                 | Some lr =>
                     (Done (mkClient (baseURL c) (httpTimeout c) (Token lr) user
                              (limiter c)), w')
                 end).
  { unfold Authenticate, http_NewRequestWithContext, bind. rewrite Hurl.
    fold (Authenticate_request E c user pass).
    rewrite (doRequest_reply E c _ w resp Hpermit Hreply) by (rewrite Hok; discriminate).
    rewrite Hok. cbn [negb Z.eqb]. change (http.StatusOK =? http.StatusOK) with true.
    cbn [negb]. destruct (json_DecodeLogin E (Body resp)); reflexivity. }
  split; [|split].
  - intros lr Hlr c'. subst c'. rewrite Hrun, Hlr. split; [reflexivity|]. split.
    + intros Ht req. unfold withAuthorization. cbn [token].
      apply String.eqb_neq in Ht. rewrite Ht. cbn [negb Header_Set Header].
      apply lookup_insert_eq.
    + intros Ht req. unfold withAuthorization. cbn [token]. now rewrite Ht.
  - intros Hnone. now rewrite Hrun, Hnone.
  - intros t req Ht. unfold withAuthorization, AuthenticateWithToken. cbn [token].
    apply String.eqb_neq in Ht. rewrite Ht. cbn [negb Header_Set Header].
    apply lookup_insert_eq.
Qed.

Lemma Authenticate_stores_token_witness :
  let E := scriptedEnv [Reply (mkResponse 200 "s3cr3t")] 0 [] in
  exists c' w',
    Authenticate E NewClient "user" "secret" initial = (Done c', w')
    /\ token c' = "s3cr3t" /\ username c' = "user"
    /\ Header (withAuthorization c' exampleRequest) !! "Authorization"
       = Some "JWT s3cr3t".
Proof.
  intros E.
  destruct (Authenticate_stores_token E NewClient "user" "secret" initial
              (mkResponse 200 "s3cr3t") eq_refl eq_refl eq_refl eq_refl) as [H _].
  destruct (H (mkLoginResponse "s3cr3t") eq_refl) as (Hrun & Hhdr & _).
  eexists _, _. split; [exact Hrun|]. split; [reflexivity|]. split; [reflexivity|].
  apply Hhdr. discriminate.
Defined.

(** X12. On a response that is not a throttling one, [DeleteTag] succeeds
    exactly on the statuses 200 and 204; on every other status, the other
    2xx statuses included, it fails with the error of that status, after
    the one round trip. *)
Theorem DeleteTag_succeeds_on_200_and_204
    (E : Env) (c : Client) (repo tag : string) (w : World) (resp : Response)
    (Hurl : url_Parse E (DeleteTag_url c repo tag) = None)
    (Hpermit : permit E (waited w) = None)
    (Hreply : roundTrip E (sent w) = Reply resp)
    (Hthrottle : StatusCode resp <> http.StatusTooManyRequests) :
  DeleteTag E c repo tag w
  = (if (StatusCode resp =? 200) || (StatusCode resp =? 204) then Done tt
     else Fail (errorOfStatus (StatusCode resp) (DeleteTag_url c repo tag) (Body resp)),
     afterRoundTrip c (DeleteTag_request c repo tag) w).
Proof.
  unfold DeleteTag, http_NewRequestWithContext, bind. rewrite Hurl.
  fold (DeleteTag_request c repo tag).
  rewrite (doRequest_reply E c _ w resp Hpermit Hreply Hthrottle).
  unfold errorOfStatus, http.StatusNotFound, http.StatusUnauthorized, http.StatusOK,
    http.StatusNoContent.
  destruct (Z.eqb_spec (StatusCode resp) 404) as [H404|H404]; [now rewrite H404|].
  destruct (Z.eqb_spec (StatusCode resp) 401) as [H401|H401]; [now rewrite H401|].
  destruct (Z.eqb_spec (StatusCode resp) 204) as [H204|H204];
    destruct (Z.eqb_spec (StatusCode resp) 200) as [H200|H200]; reflexivity.
Qed.

Lemma DeleteTag_succeeds_on_200_and_204_witness :
  fst (DeleteTag (scriptedEnv [Reply (mkResponse 204 "")] 0 []) NewClient
         "user/app" "v1" initial) = Done tt
  /\ fst (DeleteTag (scriptedEnv [Reply (mkResponse 202 "later")] 0 []) NewClient
            "user/app" "v1" initial)
     = Fail (APIError 202 "later" "https://hub.docker.com/v2/repositories/user/app/tags/v1/").
Proof.
  split.
  - rewrite (DeleteTag_succeeds_on_200_and_204
               (scriptedEnv [Reply (mkResponse 204 "")] 0 []) NewClient "user/app" "v1"
               initial (mkResponse 204 "") eq_refl eq_refl eq_refl ltac:(discriminate)).
    reflexivity.
  - rewrite (DeleteTag_succeeds_on_200_and_204
               (scriptedEnv [Reply (mkResponse 202 "later")] 0 []) NewClient "user/app"
               "v1" initial (mkResponse 202 "later") eq_refl eq_refl eq_refl
               ltac:(discriminate)).
    reflexivity.
Defined.

(** X13. On a response that is not a throttling one, [GetRepository]
    returns the decoded repository exactly when the status is 200 and the
    body decodes; a body that does not decode is a decoding error, and
    every other status, the other 2xx statuses included, is the error of
    that status.  The call takes one round trip. *)
Theorem GetRepository_succeeds_on_200
    (E : Env) (c : Client) (repo : string) (w : World) (resp : Response)
    (Hurl : url_Parse E (GetRepository_url c repo) = None)
    (Hpermit : permit E (waited w) = None)
    (Hreply : roundTrip E (sent w) = Reply resp)
    (Hthrottle : StatusCode resp <> http.StatusTooManyRequests) :
  GetRepository E c repo w
  = (if StatusCode resp =? 200 then
       match json_DecodeRepository E (Body resp) with
       | Some repository => Done repository
       | None => Fail (Errorf "failed to decode repository response" (LibraryError "json"))
       end
     else Fail (errorOfStatus (StatusCode resp) (GetRepository_url c repo) (Body resp)),
     afterRoundTrip c (GetRepository_request c repo) w).
Proof.
  unfold GetRepository, http_NewRequestWithContext, bind. rewrite Hurl.
  fold (GetRepository_request c repo).
  rewrite (doRequest_reply E c _ w resp Hpermit Hreply Hthrottle).
  unfold errorOfStatus, http.StatusNotFound, http.StatusUnauthorized, http.StatusOK.
  destruct (Z.eqb_spec (StatusCode resp) 404) as [H404|H404]; [now rewrite H404|].
  destruct (Z.eqb_spec (StatusCode resp) 401) as [H401|H401]; [now rewrite H401|].
  destruct (Z.eqb_spec (StatusCode resp) 200) as [H200|H200]; cbn [negb]; [|reflexivity].
  destruct (json_DecodeRepository E (Body resp)); reflexivity.
Qed.

Lemma GetRepository_succeeds_on_200_witness :
  fst (GetRepository (scriptedEnv [Reply (mkResponse 200 "{}")] 0 []) NewClient
         "user/app" initial)
  = Fail (Errorf "failed to decode repository response" (LibraryError "json")).
Proof.
  rewrite (GetRepository_succeeds_on_200
             (scriptedEnv [Reply (mkResponse 200 "{}")] 0 []) NewClient "user/app"
             initial (mkResponse 200 "{}") eq_refl eq_refl eq_refl ltac:(discriminate)).
  reflexivity.
Defined.

(** ** Transport: the requests of a listing *)

Lemma doRequest_done_events (E : Env) (c : Client) (req : Request) (w w' : World)
    (resp : Response) :
  doRequest E c req w = (Done resp, w') ->
  exists k, (k <= 5)%nat
    /\ sent w' = (sent w + 1 + k)%nat
    /\ log w' = log w ++ [EvWait; EvDo (withAuthorization c req)]
                      ++ flat_map (fun seconds =>
                                     [EvSleep (seconds * time.Second);
                                      EvDo (withAuthorization c req)])
                           (firstn k [1; 2; 4; 8; 16]).
Proof.
  rewrite doRequest_unfold.
  destruct (permit E (waited w)); [discriminate|].
  destruct (roundTrip E (sent w)) as [r|err]; [|discriminate].
  destruct (StatusCode r =? http.StatusTooManyRequests).
  - intros H.
    destruct (doRequest_backoff_events E (withAuthorization c req) 5 0
                (afterRoundTrip c req w)) as (k & Hk & Hw).
    rewrite H in Hw. cbn [snd] in Hw. subst w'. exists k. split; [exact Hk|].
    cbn [sent log afterRoundTrip]. split; [lia|].
    now rewrite backoffEvents_delays, <- app_assoc by exact Hk.
  - intros [= _ <-]. exists 0%nat. split; [lia|].
    cbn [sent log afterRoundTrip firstn flat_map]. split; [lia|].
    now rewrite app_nil_r.
Qed.

Lemma ListTags_page_done_events (E : Env) (c : Client) (repo : string) (page : Z)
    (w w' : World) (p : TagsResponse) :
  ListTags_page E c repo page w = (Done p, w') ->
  exists k, (k <= 5)%nat
    /\ sent w' = (sent w + 1 + k)%nat
    /\ log w' = log w ++ pageEvents c repo page k.
Proof.
  unfold ListTags_page, http_NewRequestWithContext, bind, pageEvents, ListTags_request.
  destruct (url_Parse E (ListTags_url c repo page)); [discriminate|].
  destruct (doRequest E c (NewRequest "GET" (ListTags_url c repo page) None) w)
    as [[resp| |] w1] eqn:Hdo; [|discriminate|discriminate].
  intros H.
  assert (w1 = w') as ->.
  { revert H.
    repeat match goal with
           | |- context [if ?b then _ else _] => destruct b
           | |- context [match ?o with Some _ => _ | None => _ end] => destruct o
           end; intros H; first [discriminate H | now injection H]. }
  exact (doRequest_done_events E c _ w w' resp Hdo).
Qed.

Lemma ListTags_loop_events (E : Env) (c : Client) (repo : string) :
  forall (fuel : nat) (acc : list Tag) (page : Z) (w w' : World) (tags : list Tag),
    0 <= page -> page + Z.of_nat fuel <= Int64.max_signed ->
    ListTags_loop fuel E c repo acc page w = (Done tags, w') ->
    exists ks : list nat,
      ks <> []
      /\ Forall (fun k => (k <= 5)%nat) ks
      /\ sent w' = (sent w + length ks + list_sum ks)%nat
      /\ log w' = log w ++ listingEvents c repo page ks.
Proof.
  induction fuel as [|fuel IH]; intros acc page w w' tags Hpage Hmax; [discriminate|].
  cbn [ListTags_loop]. unfold bind.
  destruct (ListTags_page E c repo page w) as [[p| |] w1] eqn:Hp;
    [|discriminate|discriminate].
  destruct (ListTags_page_done_events E c repo page w w1 p Hp) as (k & Hk & Hsent & Hlog).
  assert (Hlast : w1 = w' ->
            exists ks : list nat,
              ks <> []
              /\ Forall (fun k => (k <= 5)%nat) ks
              /\ sent w' = (sent w + length ks + list_sum ks)%nat
              /\ log w' = log w ++ listingEvents c repo page ks).
  { intros <-. exists [k]. split; [discriminate|]. split; [constructor; [exact Hk|constructor]|].
    unfold list_sum; cbn [length fold_right listingEvents]. rewrite app_nil_r. split; [lia|exact Hlog]. }
  destruct (Next p) as [next|]; [|intros [= _ H]; now apply Hlast].
  destruct (String.eqb next ""); [intros [= _ H]; now apply Hlast|].
  assert (Hadd : Int64.add page 1 = page + 1).
  { apply Int64_wrap_small.
    unfold Int64.in_range, Int64.min_signed, Int64.max_signed, Int64.half_modulus in *.
    lia. }
  rewrite Hadd. intros Hrest.
  destruct (IH _ (page + 1) w1 w' tags ltac:(lia) ltac:(lia) Hrest)
    as (ks & _ & Hks & Hsent' & Hlog').
  exists (k :: ks). split; [discriminate|]. split; [now constructor|].
  unfold list_sum in *; cbn [length fold_right listingEvents]. split; [lia|].
  now rewrite Hlog', Hlog, <- app_assoc.
Qed.

(** X14. Whatever the server answers, a listing that succeeds has asked
    for the pages 1, 2, 3, ... in this order and sent nothing else: for
    each page one wait for a permit and the GET request for
    [<base>/repositories/<repo>/tags/?page=<n>&page_size=100], sent again
    after sleeps of 1, 2, 4, 8 and 16 seconds as long as it was throttled
    (at most five times).  Over [n] pages it sends [n] requests and the
    re-sends: exactly [n] when no response is throttled. *)
Theorem ListTags_requests_pages_in_order
    (E : Env) (c : Client) (repo : string) (w w' : World) (fuel : nat) (tags : list Tag)
    (Hfuel : Z.of_nat fuel < Int64.max_signed)
    (Hdone : ListTags fuel E c repo w = (Done tags, w')) :
  (exists ks : list nat,
      ks <> []
      /\ Forall (fun k => (k <= 5)%nat) ks
      /\ sent w' = (sent w + length ks + list_sum ks)%nat
      /\ log w' = log w ++ listingEvents c repo 1 ks)
  /\ (forall page,
        URL (ListTags_request c repo page)
        = baseURL c +:+ "/repositories/" +:+ repo +:+ "/tags/?page="
            +:+ fmt_d page +:+ "&page_size=100"
        /\ Method (ListTags_request c repo page) = "GET").
Proof.
  split; [|intros page; split; reflexivity].
  apply (ListTags_loop_events E c repo fuel [] 1 w w' tags); [lia|lia|exact Hdone].
Qed.

Lemma ListTags_requests_pages_in_order_witness :
  let get page := EvDo (NewRequest "GET" (ListTags_url NewClient "user/app" page) None) in
  log (snd (ListTags 3 throttlingEnv NewClient "user/app" initial))
  = [EvWait; get 1; EvWait; get 2; EvSleep time.Second; get 2]
  /\ exists ks : list nat,
       sent (snd (ListTags 3 throttlingEnv NewClient "user/app" initial))
       = (length ks + list_sum ks)%nat
       /\ log (snd (ListTags 3 throttlingEnv NewClient "user/app" initial))
          = listingEvents NewClient "user/app" 1 ks.
Proof.
  intros get. split; [reflexivity|].
  destruct (ListTags_requests_pages_in_order throttlingEnv NewClient "user/app" initial
              (snd (ListTags 3 throttlingEnv NewClient "user/app" initial)) 3
              [tagA; tagB; tagC]) as [(ks & _ & _ & Hsent & Hlog) _].
  - vm_compute. reflexivity.
  - reflexivity.
  - exists ks. split; [exact Hsent|exact Hlog].
Defined.

(** X15. The listing has no bound of its own: against a server that names
    a next page on every page, [ListTags] has not returned after any
    number of iterations. *)
Theorem ListTags_follows_next_pages_forever
    (E : Env) (c : Client) (repo : string) (w : World) (pages : nat -> TagsResponse)
    (Hpages : forall i, servesPage E c repo 1 w i (pages i) /\ hasNext (pages i) = true) :
  forall fuel, fst (ListTags fuel E c repo w) = OutOfFuel.
Proof.
  intros fuel. unfold ListTags.
  pose proof (ListTags_loop_pages E c repo 0 (map pages (seq 0 fuel)) [] 1 w) as H.
  rewrite length_map, length_seq, Nat.add_0_r in H. rewrite H; [reflexivity|].
  intros i p Hp. change (map pages (seq 0 fuel)) with (pages <$> seq 0 fuel) in Hp.
  rewrite list_lookup_fmap in Hp.
  destruct (seq 0 fuel !! i) as [j|] eqn:Hj; [|discriminate].
  apply lookup_seq in Hj. destruct Hj as [-> _]. injection Hp as <-. apply Hpages.
Qed.

Lemma ListTags_follows_next_pages_forever_witness :
  fst (ListTags 1000 endlessEnv NewClient "user/app" initial) = OutOfFuel.
Proof.
  apply (ListTags_follows_next_pages_forever endlessEnv NewClient "user/app" initial
           (fun _ => page1)).
  intros i. split; [|reflexivity]. split; [reflexivity|]. split; [reflexivity|].
  exists (mkResponse 200 "p1"). repeat split; reflexivity.
Defined.

(** ** The orchestrator: results, failures and deletions *)

Lemma Clean_empty_repository (fuel : nat) (E : Env) (L : GoLib) (c : Cleaner)
    (repo : string) (w w1 : World) :
  ListTags fuel E (client c) repo w = (Done [], w1) ->
  Clean fuel E L c repo w = (Done (mkCleanResult 0 0 0 [] [] 0 0), w1).
Proof. intros Hfetch. unfold Clean. now rewrite Hfetch. Qed.

Lemma Clean_nothing_matches (fuel : nat) (E : Env) (L : GoLib) (c : Cleaner)
    (repo : string) (w w1 : World) (tags : list Tag) :
  ListTags fuel E (client c) repo w = (Done tags, w1) ->
  tags <> [] -> filtered c tags = [] ->
  Clean fuel E L c repo w
  = (Done (mkCleanResult (len tags) 0 0 [] [] (addSizes tags 0) 0), w1).
Proof.
  intros Hfetch Hne Hnone. unfold Clean. rewrite Hfetch, (len_not_0 tags Hne).
  unfold filtered in Hnone. destruct (filter c) as [f|]; [|contradiction].
  now rewrite Hnone.
Qed.

Lemma decisions_lengths (E : Env) (L : GoLib) (c : Cleaner) (tags : list Tag) :
  sort_Slice_permutes L ->
  (length (fst (decisions E L c tags)) + length (snd (decisions E L c tags))
   = length (filtered c tags))%nat.
Proof.
  intros HL. unfold decisions. rewrite <- length_app.
  rewrite (Permutation_length (classify_partition E (policy c) _)).
  apply Permutation_length. now apply sorted_permutes.
Qed.

(** What the live loop of step 5 leaves: every tag of the delete-list is
    either reported deleted or has an error of its own. *)
Lemma deleteTags_accounts (E : Env) (c : Client) (repo : string) (del : list Tag) :
  forall deleted errors w,
    exists ds es w',
      deleteTags E c repo del deleted errors w = (Done (deleted ++ ds, errors ++ es), w')
      /\ (length ds + length es = length del)%nat
      /\ sublist ds (map Name del)
      /\ Forall (fun e => exists t err,
                     In t del /\ e = Errorf ("failed to delete tag " +:+ Name t) err) es.
Proof.
  induction del as [|t del IH]; intros deleted errors w; cbn [deleteTags].
  - exists [], [], w. rewrite !app_nil_r. repeat split; constructor.
  - pose proof (DeleteTag_returns E c repo (Name t) w) as Hne.
    destruct (DeleteTag E c repo (Name t) w) as [[u| e |] w1]; simpl in Hne;
      [| |contradiction].
    + destruct (IH (deleted ++ [Name t]) errors w1) as (ds & es & w' & Heq & Hlen & Hsub & Hes).
      exists (Name t :: ds), es, w'. rewrite Heq, <- app_assoc.
      split; [reflexivity|]. split; [simpl; lia|]. split; [now apply sublist_skip|].
      eapply List.Forall_impl; [|exact Hes]. cbn beta.
      intros e (t' & err & Hin & ->). exists t', err. split; [now right|reflexivity].
    + destruct (IH deleted (errors ++ [Errorf ("failed to delete tag " +:+ Name t) e]) w1)
        as (ds & es & w' & Heq & Hlen & Hsub & Hes).
      exists ds, (Errorf ("failed to delete tag " +:+ Name t) e :: es), w'.
      rewrite Heq, <- app_assoc.
      split; [reflexivity|]. split; [simpl; lia|]. split; [now apply sublist_cons|].
      constructor.
      * exists t, e. split; [now left|reflexivity].
      * eapply List.Forall_impl; [|exact Hes]. cbn beta.
        intros e' (t' & err & Hin & ->). exists t', err. split; [now right|reflexivity].
Qed.

(** Once the listing has succeeded, [Clean] returns a result. *)
Lemma Clean_returns_after_fetch (fuel : nat) (E : Env) (L : GoLib) (c : Cleaner)
    (repo : string) (w w1 : World) (tags : list Tag) :
  ListTags fuel E (client c) repo w = (Done tags, w1) ->
  exists r w2, Clean fuel E L c repo w = (Done r, w2).
Proof.
  intros Hfetch.
  destruct tags as [|t tags].
  { rewrite (Clean_empty_repository fuel E L c repo w w1 Hfetch).
    eexists _, _. reflexivity. }
  destruct (filtered c (t :: tags)) as [|u us] eqn:Hf.
  { rewrite (Clean_nothing_matches fuel E L c repo w w1 _ Hfetch) by (discriminate || exact Hf).
    eexists _, _. reflexivity. }
  rewrite (Clean_decisions fuel E L c repo w w1 _ Hfetch) by (rewrite Hf; discriminate).
  destruct (len _ =? 0); [eexists _, _; reflexivity|].
  destruct (dryRun c); [eexists _, _; reflexivity|].
  unfold bind.
  destruct (deleteTags_returns E (client c) repo (snd (decisions E L c (t :: tags))) [] [] w1)
    as (r & w2 & ->).
  eexists _, _. reflexivity.
Qed.

(** X16. [Clean] fails exactly when the listing fails, with the listing's
    error wrapped as "failed to list tags"; a deletion that fails never
    makes [Clean] fail. *)
Theorem Clean_fails_only_when_listing_fails
    (fuel : nat) (E : Env) (L : GoLib) (c : Cleaner) (repo : string) (w : World)
    (e : Error) :
  fst (Clean fuel E L c repo w) = Fail e
  <-> exists err, fst (ListTags fuel E (client c) repo w) = Fail err
                  /\ e = Errorf "failed to list tags" err.
Proof.
  destruct (ListTags fuel E (client c) repo w) as [[tags|err|] w1] eqn:Hfetch.
  - destruct (Clean_returns_after_fetch fuel E L c repo w w1 tags Hfetch) as (r & w2 & ->).
    simpl. split; [discriminate|]. intros (err & Herr & _). discriminate.
  - unfold Clean. rewrite Hfetch. simpl. split.
    + intros H. injection H as <-. now exists err.
    + intros (err' & Herr & ->). now injection Herr as ->.
  - unfold Clean. rewrite Hfetch. simpl. split; [discriminate|].
    intros (err & Herr & _). discriminate.
Qed.

(** X17. The counts of a result add up: after a listing of [tags], the
    result gives the number of tags listed, the number that passed the
    filter (at most the former), the int64 sum of all sizes, and every tag
    that passed the filter is counted once, as kept, as deleted or as an
    error. *)
Theorem Clean_result_counts
    (fuel : nat) (E : Env) (L : GoLib) (c : Cleaner) (repo : string)
    (w w1 : World) (tags : list Tag)
    (HL : sort_Slice_permutes L)
    (Hfetch : ListTags fuel E (client c) repo w = (Done tags, w1)) :
  exists r w2,
    Clean fuel E L c repo w = (Done r, w2)
    /\ TotalTags r = len tags
    /\ FilteredTags r = len (filtered c tags)
    /\ FilteredTags r <= TotalTags r
    /\ KeptTags r + len (DeletedTags r) + len (Errors r) = FilteredTags r
    /\ TotalSize r = Int64.wrap (totalSize tags).
Proof.
  assert (Hle : len (filtered c tags) <= len tags).
  { rewrite filtered_FilterTags. unfold len, FilterTags.
    destruct (filter c) as [f|]; [|lia].
    pose proof (List.filter_length_le (fun t => Matches f (Name t)) tags). lia. }
  destruct tags as [|t tags].
  { rewrite (Clean_empty_repository fuel E L c repo w w1 Hfetch).
    eexists _, _. split; [reflexivity|].
    cbn [TotalTags FilteredTags KeptTags DeletedTags Errors TotalSize].
    rewrite filtered_FilterTags. unfold FilterTags. destruct (filter c); now vm_compute. }
  destruct (filtered c (t :: tags)) as [|u us] eqn:Hf.
  { rewrite (Clean_nothing_matches fuel E L c repo w w1 _ Hfetch) by (discriminate || exact Hf).
    eexists _, _. split; [reflexivity|].
    cbn [TotalTags FilteredTags KeptTags DeletedTags Errors TotalSize].
    rewrite addSizes_0. unfold len in *. simpl in *. repeat split; lia. }
  rewrite <- Hf in *.
  assert (Hne : filtered c (t :: tags) <> []) by (rewrite Hf; discriminate).
  pose proof (decisions_lengths E L c (t :: tags) HL) as Hlen.
  rewrite (Clean_decisions fuel E L c repo w w1 _ Hfetch Hne).
  destruct (len (snd (decisions E L c (t :: tags))) =? 0) eqn:Hdel.
  { apply len_0 in Hdel. rewrite Hdel in Hlen.
    eexists _, _. split; [reflexivity|].
    cbn [TotalTags FilteredTags KeptTags DeletedTags Errors TotalSize].
    rewrite addSizes_0. unfold len in *. simpl in *. repeat split; lia. }
  destruct (dryRun c).
  { eexists _, _. split; [reflexivity|].
    cbn [TotalTags FilteredTags KeptTags DeletedTags Errors TotalSize].
    rewrite addSizes_0, reportDeletions_names. unfold len in *.
    cbn [app]. rewrite List.length_map. cbn [length] in *. repeat split; lia. }
  unfold bind.
  destruct (deleteTags_accounts E (client c) repo (snd (decisions E L c (t :: tags))) [] [] w1)
    as (ds & es & w2 & -> & Hacc & _ & _).
  eexists _, _. split; [reflexivity|].
  cbn [TotalTags FilteredTags KeptTags DeletedTags Errors TotalSize fst snd app].
  rewrite addSizes_0. unfold len in *. cbn [length] in *. repeat split; lia.
Qed.

Lemma Clean_result_counts_witness :
  exists r w2,
    Clean 3 exampleEnv exampleLib (exampleCleaner true) "user/app" initial = (Done r, w2)
    /\ TotalTags r = 3
    /\ KeptTags r + len (DeletedTags r) + len (Errors r) = FilteredTags r
    /\ TotalSize r = 600.
Proof.
  pose proof exampleEnv_fetch as Hfst.
  destruct (ListTags 3 exampleEnv NewClient "user/app" initial) as [res w1] eqn:Hfetch.
  simpl in Hfst. subst res.
  destruct (Clean_result_counts 3 exampleEnv exampleLib (exampleCleaner true) "user/app"
              initial w1 [tagA; tagB; tagC] (contract_permutes _ exampleLib_contract) Hfetch)
    as (r & w2 & HClean & Htotal & _ & _ & Hsum & Hsize).
  exists r, w2. repeat split; assumption.
Defined.

(** ** The orchestrator: what is deleted *)

Lemma URL_withAuthorization (c : Client) (req : Request) :
  URL (withAuthorization c req) = URL req.
Proof. unfold withAuthorization. destruct (negb _); reflexivity. Qed.

Lemma append_inj_l (p a b : string) : p +:+ a = p +:+ b -> a = b.
Proof. induction p as [|x p IH]; simpl; intros H; [exact H|]. injection H as H. auto. Qed.

Lemma append_slash_inj (a : string) : forall b, a +:+ "/" = b +:+ "/" -> a = b.
Proof.
  induction a as [|x a IH]; intros [|y b]; simpl; intros H.
  - reflexivity.
  - injection H as _ H. destruct b; discriminate.
  - injection H as _ H. destruct a; discriminate.
  - injection H as -> H. f_equal. now apply IH.
Qed.

(** The URL of a deletion names its tag. *)
Lemma DeleteTag_url_inj (c : Client) (repo a b : string) :
  DeleteTag_url c repo a = DeleteTag_url c repo b -> a = b.
Proof.
  unfold DeleteTag_url. intros H.
  do 4 apply append_inj_l in H. now apply append_slash_inj.
Qed.

Lemma DeleteTag_sends (E : Env) (c : Client) (repo tag : string) (w : World) :
  sendsOnly (withAuthorization c (DeleteTag_request c repo tag)) w
    (snd (DeleteTag E c repo tag w)).
Proof.
  unfold DeleteTag, http_NewRequestWithContext, bind.
  destruct (url_Parse E (DeleteTag_url c repo tag)); [apply sendsOnly_refl|].
  destruct (doRequest_sends E c (NewRequest "DELETE" (DeleteTag_url c repo tag) None) w)
    as [_ Hs].
  fold (DeleteTag_request c repo tag) in *.
  destruct (doRequest E c _ w) as [[resp| |] w1]; simpl in *; try exact Hs.
  repeat match goal with
         | |- context [if ?b then _ else _] => destruct b
         end; exact Hs.
Qed.

Lemma deletesOnly_refl (c : Client) (repo : string) (del : list Tag) (w : World) :
  deletesOnly c repo del w w.
Proof. exists []. split; [now rewrite app_nil_r|constructor]. Qed.

Lemma deleteTags_deletesOnly (E : Env) (c : Client) (repo : string) (del : list Tag) :
  forall deleted errors w,
    deletesOnly c repo del w (snd (deleteTags E c repo del deleted errors w)).
Proof.
  induction del as [|t del IH]; intros deleted errors w; cbn [deleteTags].
  - apply deletesOnly_refl.
  - destruct (DeleteTag_sends E c repo (Name t) w) as (evs1 & Hlog1 & Hevs1).
    assert (Hstep : forall w1 deleted' errors',
               log w1 = log w ++ evs1 ->
               deletesOnly c repo (t :: del) w
                 (snd (deleteTags E c repo del deleted' errors' w1))).
    { intros w1 deleted' errors' Hw1.
      destruct (IH deleted' errors' w1) as (evs2 & Hlog2 & Hevs2).
      exists (evs1 ++ evs2). split; [now rewrite Hlog2, Hw1, app_assoc|].
      apply List.Forall_app. split.
      - eapply List.Forall_impl; [|exact Hevs1]. cbn beta.
        intros e He r Hr. exists t. split; [now left|now apply He].
      - eapply List.Forall_impl; [|exact Hevs2]. cbn beta.
        intros e He r Hr. destruct (He r Hr) as (t' & Hin & ->).
        exists t'. split; [now right|reflexivity]. }
    destruct (DeleteTag E c repo (Name t) w) as [[u| e |] w1]; cbn [snd] in *.
    + now apply Hstep.
    + now apply Hstep.
    + exists evs1. split; [exact Hlog1|].
      eapply List.Forall_impl; [|exact Hevs1]. cbn beta.
      intros e He r Hr. exists t. split; [now left|now apply He].
Qed.

(** After the listing, [Clean] sends nothing but DELETE requests for tags
    of its delete-list, and nothing at all in a dry run. *)
Lemma Clean_deletesOnly (fuel : nat) (E : Env) (L : GoLib) (c : Cleaner) (repo : string)
    (w w1 : World) (tags : list Tag) :
  ListTags fuel E (client c) repo w = (Done tags, w1) ->
  deletesOnly (client c) repo (snd (decisions E L c tags)) w1
    (snd (Clean fuel E L c repo w))
  /\ (dryRun c = true -> snd (Clean fuel E L c repo w) = w1).
Proof.
  intros Hfetch.
  destruct tags as [|t tags].
  { rewrite (Clean_empty_repository fuel E L c repo w w1 Hfetch).
    split; [apply deletesOnly_refl|reflexivity]. }
  destruct (filtered c (t :: tags)) as [|u us] eqn:Hf.
  { rewrite (Clean_nothing_matches fuel E L c repo w w1 _ Hfetch) by (discriminate || exact Hf).
    split; [apply deletesOnly_refl|reflexivity]. }
  rewrite (Clean_decisions fuel E L c repo w w1 _ Hfetch) by (rewrite Hf; discriminate).
  destruct (len _ =? 0); [split; [apply deletesOnly_refl|reflexivity]|].
  destruct (dryRun c); [split; [apply deletesOnly_refl|reflexivity]|].
  split; [|discriminate]. unfold bind.
  pose proof (deleteTags_deletesOnly E (client c) repo
                (snd (decisions E L c (t :: tags))) [] [] w1) as Hd.
  destruct (deleteTags E (client c) repo _ [] [] w1) as [[r| e |] w2]; exact Hd.
Qed.

Lemma NoDup_app_disjoint {A : Type} (l k : list A) :
  List.NoDup (l ++ k) -> forall x, In x l -> In x k -> False.
Proof.
  induction l as [|a l IH]; intros Hnd x Hl Hk; [destruct Hl|].
  simpl in Hnd. inversion Hnd as [|? ? Hnotin Hrest]; subst.
  destruct Hl as [->|Hl].
  - apply Hnotin, in_or_app. now right.
  - now apply (IH Hrest x).
Qed.

(** X18. A tag that the policy keeps is never deleted: when the names of
    the tags that passed the filter are pairwise distinct, no request that
    [Clean] sends after the listing has the URL of the deletion of a tag
    of the keep-list. *)
Theorem kept_tags_are_never_deleted
    (fuel : nat) (E : Env) (L : GoLib) (c : Cleaner) (repo : string)
    (w w1 : World) (tags : list Tag)
    (HL : sort_Slice_permutes L)
    (Hfetch : ListTags fuel E (client c) repo w = (Done tags, w1))
    (Hnames : List.NoDup (map Name (FilterTags tags (filter c)))) :
  exists evs,
    log (snd (Clean fuel E L c repo w)) = log w1 ++ evs
    /\ forall t r, In t (fst (decisions E L c tags)) -> In (EvDo r) evs ->
                   URL r <> DeleteTag_url (client c) repo (Name t).
Proof.
  destruct (Clean_deletesOnly fuel E L c repo w w1 tags Hfetch) as [(evs & Hlog & Hevs) _].
  exists evs. split; [exact Hlog|]. intros t r Hkeep Hr Hurl.
  rewrite List.Forall_forall in Hevs.
  destruct (Hevs _ Hr r eq_refl) as (t' & Hdel & ->).
  rewrite URL_withAuthorization in Hurl. cbn [DeleteTag_request NewRequest URL] in Hurl.
  apply DeleteTag_url_inj in Hurl.
  assert (HP : Permutation (fst (decisions E L c tags) ++ snd (decisions E L c tags))
                 (FilterTags tags (filter c))).
  { unfold decisions. rewrite <- filtered_FilterTags.
    etransitivity; [apply classify_partition|]. now apply sorted_permutes. }
  apply (Permutation_map Name) in HP. rewrite List.map_app in HP.
  apply (NoDup_app_disjoint (map Name (fst (decisions E L c tags)))
           (map Name (snd (decisions E L c tags)))) with (x := Name t).
  - eapply Permutation_NoDup; [symmetry; exact HP|exact Hnames].
  - now apply in_map.
  - rewrite <- Hurl. now apply in_map.
Qed.

Lemma kept_tags_are_never_deleted_witness :
  exists evs,
    log (snd (Clean 4 liveEnv exampleLib (exampleCleaner false) "user/app" initial))
    = log (snd (ListTags 4 liveEnv NewClient "user/app" initial)) ++ evs
    /\ forall r, In (EvDo r) evs ->
                 URL r <> "https://hub.docker.com/v2/repositories/user/app/tags/A/".
Proof.
  assert (Hfst : fst (ListTags 4 liveEnv NewClient "user/app" initial)
                 = Done [tagA; tagB; tagC]) by reflexivity.
  destruct (ListTags 4 liveEnv NewClient "user/app" initial) as [res w1] eqn:Hfetch.
  simpl in Hfst. subst res.
  destruct (kept_tags_are_never_deleted 4 liveEnv exampleLib (exampleCleaner false)
              "user/app" initial w1 [tagA; tagB; tagC]
              (contract_permutes _ exampleLib_contract) Hfetch)
    as (evs & Hlog & Hkept).
  - vm_compute. repeat constructor; intros H; vm_compute in H; intuition discriminate.
  - exists evs. split; [exact Hlog|]. intros r Hr.
    apply (Hkept tagA r); [|exact Hr]. vm_compute. auto.
Defined.

Lemma deleteTags_answers (E : Env) (c : Client) (repo : string) (del : list Tag) :
  forall deleted errors w,
    deleteTags E c repo del deleted errors w
    = (Done (deleted ++ deletedNames (fst (deletionAnswers E c repo del w)),
             errors ++ deletionErrors (fst (deletionAnswers E c repo del w))),
       snd (deletionAnswers E c repo del w))
    /\ map fst (fst (deletionAnswers E c repo del w)) = del.
Proof.
  induction del as [|t del IH]; intros deleted errors w; cbn [deleteTags deletionAnswers].
  - cbn. now rewrite !app_nil_r.
  - pose proof (DeleteTag_returns E c repo (Name t) w) as Hne.
    destruct (DeleteTag E c repo (Name t) w) as [[u| e |] w1]; simpl in Hne;
      [| |contradiction].
    + destruct (IH (deleted ++ [Name t]) errors w1) as [Hrun Hfst].
      rewrite Hrun. destruct (deletionAnswers E c repo del w1) as [answers w'].
      cbn [fst snd map] in *. unfold deletedNames, deletionErrors.
      cbn [flat_map fst snd app]. rewrite <- app_assoc. now rewrite Hfst.
    + destruct (IH deleted (errors ++ [Errorf ("failed to delete tag " +:+ Name t) e]) w1)
        as [Hrun Hfst].
      rewrite Hrun. destruct (deletionAnswers E c repo del w1) as [answers w'].
      cbn [fst snd map] in *. unfold deletedNames, deletionErrors.
      cbn [flat_map fst snd app]. rewrite <- app_assoc. now rewrite Hfst.
Qed.

Lemma deletionAnswers_app (E : Env) (c : Client) (repo : string) (l1 l2 : list Tag) :
  forall w,
    deletionAnswers E c repo (l1 ++ l2) w
    = (fst (deletionAnswers E c repo l1 w)
         ++ fst (deletionAnswers E c repo l2 (snd (deletionAnswers E c repo l1 w))),
       snd (deletionAnswers E c repo l2 (snd (deletionAnswers E c repo l1 w)))).
Proof.
  induction l1 as [|t l1 IH]; intros w; cbn [app deletionAnswers].
  - cbn. now destruct (deletionAnswers E c repo l2 w).
  - pose proof (DeleteTag_returns E c repo (Name t) w) as Hne.
    destruct (DeleteTag E c repo (Name t) w) as [[u| e |] w1]; simpl in Hne;
      [| |contradiction]; rewrite IH;
      destruct (deletionAnswers E c repo l1 w1) as [answers w']; reflexivity.
Qed.

(** X19. In a live run with a delete-list that is not empty, [Clean] calls
    [DeleteTag] for every tag of the list, in order, each call in the
    world the calls before it have left, and a call that fails does not
    stop the run.  The result follows the answers of these calls: a tag
    whose call succeeds is reported in [DeletedTags], a tag whose call
    fails with an error [e] adds "failed to delete tag <name>" wrapping
    [e] to [Errors], both in the order of the list.  [ReclaimedSize] is
    the int64 sum of the sizes of the whole delete-list, the tags whose
    deletion failed included. *)
Theorem live_run_records_failed_deletions
    (fuel : nat) (E : Env) (L : GoLib) (c : Cleaner) (repo : string)
    (w w1 : World) (tags : list Tag)
    (HL : sort_Slice_permutes L)
    (Hlive : dryRun c = false)
    (Hfetch : ListTags fuel E (client c) repo w = (Done tags, w1))
    (Hdel : snd (decisions E L c tags) <> []) :
  let del := snd (decisions E L c tags) in
  let answers := fst (deletionAnswers E (client c) repo del w1) in
  let before i := snd (deletionAnswers E (client c) repo (take i del) w1) in
  exists r,
    Clean fuel E L c repo w = (Done r, snd (deletionAnswers E (client c) repo del w1))
    /\ map fst answers = del
    /\ DeletedTags r = deletedNames answers
    /\ Errors r = deletionErrors answers
    /\ (forall i t, del !! i = Some t ->
          match fst (DeleteTag E (client c) repo (Name t) (before i)) with
          | Done _ => answers !! i = Some (t, None) /\ In (Name t) (DeletedTags r)
          | Fail e =>
              answers !! i = Some (t, Some e)
              /\ In (Errorf ("failed to delete tag " +:+ Name t) e) (Errors r)
          | OutOfFuel => False
          end)
    /\ sublist (DeletedTags r) (map Name del)
    /\ (length (DeletedTags r) + length (Errors r) = length del)%nat
    /\ ReclaimedSize r = Int64.wrap (totalSize del).
Proof.
  intros del answers before.
  pose proof (decisions_delete_nonempty E L c tags HL Hdel) as Hne.
  rewrite (Clean_decisions fuel E L c repo w w1 tags Hfetch Hne).
  fold del. rewrite (len_not_0 del Hdel), Hlive. unfold bind.
  destruct (deleteTags_answers E (client c) repo del [] [] w1) as [Hrun Hfst].
  destruct (deleteTags_accounts E (client c) repo del [] [] w1)
    as (ds & es & w2 & Hrun' & Hlen & Hsub & _).
  rewrite Hrun in Hrun'. injection Hrun' as Hds Hes _. cbn [app] in Hds, Hes.
  rewrite Hrun. fold answers in Hds, Hes, Hfst |- *.
  eexists. split; [reflexivity|].
  cbn [DeletedTags Errors ReclaimedSize fst snd app].
  split; [exact Hfst|]. split; [reflexivity|]. split; [reflexivity|].
  split; [|rewrite Hds, Hes; repeat split; try assumption; apply addSizes_0].
  intros i t Hi.
  pose proof (take_drop_middle del i t Hi) as Hsplit.
  assert (Hlen_i : length (take i del) = i).
  { apply length_take_le. apply lookup_lt_Some in Hi. lia. }
  assert (Hans : answers
                 = fst (deletionAnswers E (client c) repo (take i del) w1)
                     ++ fst (deletionAnswers E (client c) repo (t :: drop (S i) del)
                               (before i))).
  { subst answers before. rewrite <- Hsplit at 1. now rewrite deletionAnswers_app. }
  assert (Hpre : length (fst (deletionAnswers E (client c) repo (take i del) w1)) = i).
  { destruct (deleteTags_answers E (client c) repo (take i del) [] [] w1) as [_ H].
    rewrite <- Hlen_i at 2. rewrite <- H at 2. now rewrite length_map. }
  pose proof (DeleteTag_returns E (client c) repo (Name t) (before i)) as Hret.
  revert Hans. cbn [deletionAnswers].
  destruct (DeleteTag E (client c) repo (Name t) (before i)) as [[u| e |] wi];
    cbn [fst] in Hret |- *; [| |contradiction];
    destruct (deletionAnswers E (client c) repo (drop (S i) del) wi) as [rest w'];
    cbn [fst]; intros Hans; rewrite Hans; split.
  - rewrite lookup_app_r, Hpre, Nat.sub_diag by lia. reflexivity.
  - unfold deletedNames. rewrite flat_map_app. apply in_or_app. right.
    cbn [flat_map fst snd app]. now left.
  - rewrite lookup_app_r, Hpre, Nat.sub_diag by lia. reflexivity.
  - unfold deletionErrors. rewrite flat_map_app. apply in_or_app. right.
    cbn [flat_map fst snd app]. now left.
Qed.

Lemma live_run_records_failed_deletions_witness :
  let c := mkCleaner NewClient None None (Some LexicographicalSorter) false false in
  exists r w2,
    Clean 4 liveEnv exampleLib c "user/app" initial = (Done r, w2)
    /\ DeletedTags r = ["C"]
    /\ Errors r = [Errorf "failed to delete tag B" ErrNotFound;
                   Errorf "failed to delete tag A" (NetworkErrorf "EOF")]
    /\ ReclaimedSize r = 600.
Proof.
  intros c.
  destruct (live_run_records_failed_deletions 4 liveEnv exampleLib c "user/app" initial
              (snd (ListTags 4 liveEnv NewClient "user/app" initial))
              [tagA; tagB; tagC] (contract_permutes _ exampleLib_contract) eq_refl)
    as (r & HClean & _ & Hdeleted & Herrors & _ & _ & _ & Hsize).
  - vm_compute. reflexivity.
  - vm_compute. discriminate.
  - exists r. eexists. split; [exact HClean|].
    rewrite Hdeleted, Herrors, Hsize. repeat split.
Defined.

(** X20. A dry run sends nothing after the listing, whatever the listing
    returned: the world [Clean] leaves is the world the listing left. *)
Theorem dry_run_leaves_the_world_of_the_listing
    (fuel : nat) (E : Env) (L : GoLib) (c : Cleaner) (repo : string) (w : World)
    (Hdry : dryRun c = true) :
  snd (Clean fuel E L c repo w) = snd (ListTags fuel E (client c) repo w)
  /\ deleteCalls (log (snd (Clean fuel E L c repo w))) = deleteCalls (log w).
Proof.
  assert (Hw : snd (Clean fuel E L c repo w) = snd (ListTags fuel E (client c) repo w)).
  { destruct (ListTags fuel E (client c) repo w) as [[tags|err|] w1] eqn:Hfetch.
    - now apply (Clean_deletesOnly fuel E L c repo w w1 tags Hfetch).
    - unfold Clean. now rewrite Hfetch.
    - unfold Clean. now rewrite Hfetch. }
  split; [exact Hw|]. rewrite Hw. apply ListTags_loop_deleteCalls.
Qed.

Lemma dry_run_leaves_the_world_of_the_listing_witness :
  deleteCalls
    (log (snd (Clean 4 liveEnv exampleLib (exampleCleaner true) "user/app" initial)))
  = 0%nat.
Proof.
  apply (dry_run_leaves_the_world_of_the_listing 4 liveEnv exampleLib (exampleCleaner true)
           "user/app" initial eq_refl).
Defined.

(** ** [formatSize] *)

Lemma formatSize_loop_spec :
  forall (fuel : nat) (n div exp : Z),
    1 <= n -> n < 1024 ^ Z.of_nat fuel ->
    0 < div -> div * n <= Int64.max_signed ->
    0 <= exp -> exp + Z.of_nat fuel <= Int64.max_signed ->
    exists j : nat,
      (j < fuel)%nat
      /\ formatSize_loop fuel n div exp = Some (div * 1024 ^ Z.of_nat j, exp + Z.of_nat j)
      /\ 1024 ^ Z.of_nat j <= n < 1024 ^ (Z.of_nat j + 1).
Proof.
  induction fuel as [|fuel IH]; intros n div exp Hn Hfuel Hdiv Hmax Hexp Hexpmax.
  { simpl in Hfuel. lia. }
  cbn [formatSize_loop]. destruct (n >=? 1024) eqn:Hge.
  - apply Z.geb_le in Hge.
    assert (Hq : Z.quot n 1024 = n / 1024) by (apply Z.quot_div_nonneg; lia).
    assert (Hlow : 1 <= n / 1024) by (apply Z.div_le_lower_bound; lia).
    assert (Hmul : 1024 * (n / 1024) <= n) by (apply Z.mul_div_le; lia).
    assert (Hup : n / 1024 < 1024 ^ Z.of_nat fuel).
    { apply Z.div_lt_upper_bound; [lia|].
      rewrite Nat2Z.inj_succ, Z.pow_succ_r in Hfuel by lia. exact Hfuel. }
    assert (Hdiv' : Int64.mul div 1024 = div * 1024).
    { apply Int64_wrap_small.
      unfold Int64.in_range, Int64.min_signed, Int64.max_signed, Int64.half_modulus in *.
      nia. }
    assert (Hexp' : Int64.add exp 1 = exp + 1).
    { apply Int64_wrap_small.
      unfold Int64.in_range, Int64.min_signed, Int64.max_signed, Int64.half_modulus in *.
      lia. }
    rewrite Hq, Hdiv', Hexp'.
    destruct (IH (n / 1024) (div * 1024) (exp + 1)) as (j & Hj & Hrun & Hlo & Hhi);
      try lia; [nia|].
    exists (S j). split; [lia|].
    rewrite Hrun, Nat2Z.inj_succ, Z.pow_succ_r by lia.
    split; [f_equal; f_equal; lia|].
    replace (Z.succ (Z.of_nat j) + 1) with (Z.succ (Z.of_nat j + 1)) by lia.
    rewrite Z.pow_succ_r by lia.
    pose proof (Z.mod_pos_bound n 1024 ltac:(lia)) as Hmod.
    pose proof (Z.div_mod n 1024 ltac:(lia)) as Hdm.
    split; lia.
  - exists 0%nat. split; [lia|]. split; [f_equal; f_equal; simpl; lia|].
    rewrite Z.geb_leb in Hge. apply Z.leb_gt in Hge. simpl. lia.
Qed.

Lemma append_assoc (a b c : string) : (a +:+ b) +:+ c = a +:+ b +:+ c.
Proof.
  induction a as [|x a IH]; [reflexivity|].
  change (String x ((a +:+ b) +:+ c) = String x (a +:+ b +:+ c)). now rewrite IH.
Qed.

Lemma float64_of_int64_between (z a b : Z) :
  0 <= a -> 2 ^ a <= z < 2 ^ b ->
  2 ^ a <= float64_of_int64 z <= 2 ^ b.
Proof.
  intros Ha [Hlo Hhi].
  assert (Hpos : 0 < z) by (pose proof (Z.pow_pos_nonneg 2 a); lia).
  unfold float64_of_int64. rewrite Z.abs_eq, Z.sgn_pos by lia.
  destruct (z <? 2 ^ 53) eqn:Hsmall; [lia|]. apply Z.ltb_ge in Hsmall.
  destruct (Z.log2_spec z Hpos) as [Hk1 Hk2].
  replace (Z.succ (Z.log2 z)) with (Z.log2 z + 1) in Hk2 by lia.
  pose proof (Z.log2_nonneg z) as Hk0.
  set (k := Z.log2 z) in *.
  assert (Hk : 53 <= k).
  { assert (53 < k + 1); [|lia]. apply (Z.pow_lt_mono_r_iff 2); lia. }
  assert (Hak : a <= k).
  { assert (a < k + 1); [|lia]. apply (Z.pow_lt_mono_r_iff 2); lia. }
  assert (Hkb : k + 1 <= b).
  { assert (k < b); [|lia].
    apply (Z.pow_lt_mono_r_iff 2); [lia| |lia].
    destruct (Z_lt_le_dec b 0) as [Hb|Hb]; [|exact Hb].
    rewrite Z.pow_neg_r in Hhi by exact Hb. lia. }
  set (e := k - 52).
  assert (He : 0 < 2 ^ e) by (apply Z.pow_pos_nonneg; lia).
  assert (Hk_e : 2 ^ k = 2 ^ 52 * 2 ^ e).
  { rewrite <- Z.pow_add_r by lia. f_equal. lia. }
  assert (Hk1_e : 2 ^ (k + 1) = 2 ^ 53 * 2 ^ e).
  { rewrite <- Z.pow_add_r by lia. f_equal. lia. }
  assert (Hq1 : 2 ^ 52 <= z / 2 ^ e).
  { apply Z.div_le_lower_bound; [exact He|]. rewrite Z.mul_comm. lia. }
  assert (Hq2 : z / 2 ^ e < 2 ^ 53).
  { apply Z.div_lt_upper_bound; [exact He|]. rewrite Z.mul_comm. lia. }
  assert (Hlow : 2 ^ a <= 2 ^ k) by (apply Z.pow_le_mono_r; lia).
  assert (Hup : 2 ^ (k + 1) <= 2 ^ b) by (apply Z.pow_le_mono_r; lia).
  rewrite Z.mul_1_l.
  destruct ((2 ^ (e - 1) <? z mod 2 ^ e)
            || ((z mod 2 ^ e =? 2 ^ (e - 1)) && Z.odd (z / 2 ^ e))); nia.
Qed.

Lemma roundTenths_between (num den : Z) :
  0 < den -> den <= num <= 1024 * den ->
  10 <= roundTenths num den <= 10240.
Proof.
  intros Hden [Hlo Hhi]. unfold roundTenths.
  pose proof (Z.div_mod (10 * num) den ltac:(lia)) as Hdm.
  pose proof (Z.mod_pos_bound (10 * num) den Hden) as Hmod.
  assert (Hq1 : 10 <= 10 * num / den) by (apply Z.div_le_lower_bound; lia).
  destruct (Z_lt_le_dec num (1024 * den)) as [Hlt|Hge].
  - assert (Hq2 : 10 * num / den < 10240) by (apply Z.div_lt_upper_bound; lia).
    destruct ((den <? 2 * (10 * num mod den)) || _); lia.
  - assert (num = 1024 * den) as -> by lia.
    replace (10 * (1024 * den)) with (10240 * den) by lia.
    rewrite Z.div_mul, Z.mod_mul by lia.
    destruct (Z.ltb_spec den (2 * 0)); [lia|]. cbn [orb].
    destruct (Z.eqb_spec (2 * 0) den); [lia|]. cbn [andb]. lia.
Qed.

(** X21. [formatSize] on an int64 size of at least 1024 bytes never
    indexes outside ["KMGTPE"] and multiplies its divisor without
    overflow: the divisor is [1024 ^ (k + 1)] and the unit the [k]-th of
    the letters K, M, G, T, P, E, where [k <= 5] and
    [1024 ^ (k + 1) <= size < 1024 ^ (k + 2)].  The number it prints with
    one decimal is the float64 quotient rounded to the nearest tenth: at
    least 1.0 and at most 1024.0, and 1024.0 is printed for sizes just
    below the next unit, such as 1048575 bytes. *)
Theorem formatSize_picks_the_unit
    (bytes : Z) (Hrange : Int64.in_range bytes) (Hbig : 1024 <= bytes) :
  exists (k : nat) (u : ascii),
    let div := 1024 ^ (Z.of_nat k + 1) in
    let tenths := roundTenths (float64_of_int64 bytes) div in
    (k <= 5)%nat
    /\ String.get k "KMGTPE" = Some u
    /\ div <= bytes < 1024 * div
    /\ formatSize bytes
       = Text (fmt_d (tenths / 10) +:+ "." +:+ fmt_d (tenths mod 10)
                 +:+ " " +:+ String u "B")
    /\ 10 <= tenths <= 10240
    /\ formatSize 1048575 = Text "1024.0 KB".
Proof.
  unfold Int64.in_range, Int64.min_signed, Int64.max_signed, Int64.half_modulus in Hrange.
  assert (Hq : Z.quot bytes 1024 = bytes / 1024) by (apply Z.quot_div_nonneg; lia).
  assert (Hlow : 1 <= bytes / 1024) by (apply Z.div_le_lower_bound; lia).
  assert (Hmul : 1024 * (bytes / 1024) <= bytes) by (apply Z.mul_div_le; lia).
  assert (Hup : bytes / 1024 < 2 ^ 53) by (apply Z.div_lt_upper_bound; lia).
  destruct (formatSize_loop_spec 64 (bytes / 1024) 1024 0) as (j & Hj & Hrun & Hlo & Hhi);
    try (unfold Int64.max_signed, Int64.half_modulus; lia).
  assert (Hj5 : (j <= 5)%nat).
  { destruct (le_lt_dec j 5) as [H|H]; [exact H|exfalso].
    assert (1024 ^ 6 <= 1024 ^ Z.of_nat j) by (apply Z.pow_le_mono_r; lia).
    change (1024 ^ 6) with (2 ^ 60) in *. lia. }
  assert (Hunit : exists u, String.get j "KMGTPE" = Some u).
  { do 6 (destruct j as [|j]; [eexists; reflexivity|]). lia. }
  destruct Hunit as [u Hu].
  assert (Hdiv : 1024 * 1024 ^ Z.of_nat j = 1024 ^ (Z.of_nat j + 1)).
  { rewrite Z.pow_add_r by lia. lia. }
  assert (Hbounds : 1024 ^ (Z.of_nat j + 1) <= bytes < 1024 * 1024 ^ (Z.of_nat j + 1)).
  { rewrite <- Hdiv.
    pose proof (Z.mod_pos_bound bytes 1024 ltac:(lia)) as Hmod.
    pose proof (Z.div_mod bytes 1024 ltac:(lia)) as Hdm.
    replace (Z.of_nat j + 1) with (Z.succ (Z.of_nat j)) in Hhi by lia.
    rewrite Z.pow_succ_r in Hhi by lia. split; lia. }
  assert (Hpow : 1024 ^ (Z.of_nat j + 1) = 2 ^ (10 * (Z.of_nat j + 1))).
  { change 1024 with (2 ^ 10). now rewrite <- Z.pow_mul_r by lia. }
  assert (Hfdiv : float64_of_int64 (1024 ^ (Z.of_nat j + 1)) = 1024 ^ (Z.of_nat j + 1)).
  { unfold float64_of_int64.
    assert (0 < 1024 ^ (Z.of_nat j + 1)) by (apply Z.pow_pos_nonneg; lia).
    assert (1024 ^ (Z.of_nat j + 1) <= 1024 ^ 6) by (apply Z.pow_le_mono_r; lia).
    change (1024 ^ 6) with (2 ^ 60) in *.
    rewrite Z.abs_eq, Z.sgn_pos, Z.mul_1_l by lia.
    destruct (1024 ^ (Z.of_nat j + 1) <? 2 ^ 53) eqn:Hs; [reflexivity|].
    apply Z.ltb_ge in Hs. rewrite Hpow in *.
    assert (Hexp : 53 <= 10 * (Z.of_nat j + 1)).
    { apply (Z.pow_le_mono_r_iff 2); lia. }
    rewrite Z.log2_pow2 by lia.
    set (e := 10 * (Z.of_nat j + 1) - 52).
    assert (Hsplit : 2 ^ (10 * (Z.of_nat j + 1)) = 2 ^ 52 * 2 ^ e).
    { rewrite <- Z.pow_add_r by lia. f_equal. lia. }
    assert (He : 0 < 2 ^ e) by (apply Z.pow_pos_nonneg; lia).
    assert (He1 : 0 < 2 ^ (e - 1)) by (apply Z.pow_pos_nonneg; lia).
    rewrite Hsplit, Z.div_mul, Z.mod_mul by lia.
    destruct (Z.ltb_spec (2 ^ (e - 1)) 0); [lia|]. cbn [orb].
    destruct (Z.eqb_spec 0 (2 ^ (e - 1))); [lia|]. cbn [andb]. reflexivity. }
  assert (Hfloat : 1024 ^ (Z.of_nat j + 1) <= float64_of_int64 bytes
                   <= 1024 * 1024 ^ (Z.of_nat j + 1)).
  { replace (1024 * 1024 ^ (Z.of_nat j + 1)) with (2 ^ (10 * (Z.of_nat j + 1) + 10)).
    - rewrite Hpow in *. apply float64_of_int64_between; [lia|].
      rewrite Z.pow_add_r by lia. change (2 ^ 10) with 1024. lia.
    - rewrite Z.pow_add_r, <- Hpow by lia. change (2 ^ 10) with 1024. lia. }
  exists j, u. cbv zeta.
  split; [exact Hj5|]. split; [exact Hu|]. split; [exact Hbounds|]. split; [|split].
  - unfold formatSize. destruct (bytes <? 1024) eqn:Hlt; [apply Z.ltb_lt in Hlt; lia|].
    rewrite Hq, Hrun. unfold formatSize_unit.
    destruct (0 + Z.of_nat j <? 0) eqn:Hneg; [apply Z.ltb_lt in Hneg; lia|].
    replace (Z.to_nat (0 + Z.of_nat j)) with j by lia. rewrite Hu, Hdiv, Hfdiv.
    unfold fmt_1f. now rewrite !append_assoc.
  - apply roundTenths_between; [|exact Hfloat]. apply Z.pow_pos_nonneg; lia.
  - vm_compute. reflexivity.
Qed.

Lemma formatSize_picks_the_unit_witness :
  formatSize 1536 = Text "1.5 KB"
  /\ formatSize 5368709120 = Text "5.0 GB"
  /\ formatSize (2 ^ 60 - 1) = Text "1024.0 PB"
  /\ exists (k : nat) (u : ascii),
       (k <= 5)%nat
       /\ String.get k "KMGTPE" = Some u
       /\ 1024 ^ (Z.of_nat k + 1) <= 5368709120 < 1024 * 1024 ^ (Z.of_nat k + 1)
       /\ 10 <= roundTenths (float64_of_int64 5368709120) (1024 ^ (Z.of_nat k + 1)) <= 10240.
Proof.
  split; [vm_compute; reflexivity|]. split; [vm_compute; reflexivity|].
  split; [vm_compute; reflexivity|].
  destruct (formatSize_picks_the_unit 5368709120) as (k & u & Hk & Hu & Hb & _ & Ht & _).
  - vm_compute. split; discriminate.
  - lia.
  - exists k, u. repeat split; try assumption; lia.
Defined.

(** ** The command: [run] *)

(** [run] in stages: the three checks of the flags, the authentication,
    the filter, the sorter, and the rest. *)
Lemma run_stages (fuel : nat) (E : Env) (L : GoLib) (cli : Cli) (fl : Flags) (w : World) :
  let user := credential cli (flag_username fl) "username" in
  let pass := credential cli (flag_password fl) "password" in
  let tok := credential cli (flag_token fl) "token" in
  run fuel E L cli fl w
  = if String.eqb tok "" && (String.eqb user "" || String.eqb pass "") then
      (RunFail (UsageError "either --token or --username/--password must be provided"), w)
    else if String.eqb (flag_repository fl) "" then
      (RunFail (UsageError "--repository is required"), w)
    else if (flag_keepDays fl =? 0) && (flag_keepCount fl =? 0) then
      (RunFail (UsageError
         "at least one retention policy (--keep-days or --keep-count) must be specified"), w)
    else
      match
        (if negb (String.eqb tok "") then (Done (AuthenticateWithToken NewClient tok), w)
         else Authenticate E NewClient user pass w)
      with
      | (Fail err, w1) => (RunFail (RunErrorf "authentication failed" err), w1)
      | (OutOfFuel, w1) => (RunOutOfFuel, w1)
      | (Done client, w1) =>
          match run_filter cli fl with
          | inl e => (RunFail e, w1)
          | inr tagFilter =>
              match run_sorter cli fl with
              | inl e => (RunFail e, w1)
              | inr sorter => afterSetup fuel E L fl client tagFilter sorter w1
              end
          end
      end.
Proof.
  intros user pass tok. subst user pass tok. unfold run, credential, afterSetup.
  repeat match goal with
         | |- (if ?b then _ else _) = (if ?b then _ else _) => destruct b; [reflexivity|]
         end.
  reflexivity.
Qed.

(** X22. [run] checks the flags before it sends anything: missing
    credentials (no token, and no user name or no password), then a
    missing repository, then missing retention flags are each reported
    with the world untouched, whatever the other flags and whichever way
    the run would log in.  With a token, a pattern that does not compile
    or an unknown sort method is also reported before anything is sent;
    with a user name and a password, these two errors are reported after
    the login request. *)
Theorem run_reports_flag_errors
    (fuel : nat) (E : Env) (L : GoLib) (cli : Cli) (fl : Flags) (w : World) :
  let user := credential cli (flag_username fl) "username" in
  let pass := credential cli (flag_password fl) "password" in
  let tok := credential cli (flag_token fl) "token" in
  let noCredentials := tok = "" /\ (user = "" \/ pass = "") in
  let noRetention := flag_keepDays fl = 0 /\ flag_keepCount fl = 0 in
  let badSetup e :=
    run_filter cli fl = inl e
    \/ ((exists tf, run_filter cli fl = inr tf) /\ run_sorter cli fl = inl e) in
  (noCredentials ->
   run fuel E L cli fl w
   = (RunFail (UsageError "either --token or --username/--password must be provided"), w))
  /\ (~ noCredentials -> flag_repository fl = "" ->
      run fuel E L cli fl w = (RunFail (UsageError "--repository is required"), w))
  /\ (~ noCredentials -> flag_repository fl <> "" -> noRetention ->
      run fuel E L cli fl w
      = (RunFail (UsageError
           "at least one retention policy (--keep-days or --keep-count) must be specified"),
         w))
  /\ (forall e, tok <> "" -> flag_repository fl <> "" -> ~ noRetention ->
                badSetup e -> run fuel E L cli fl w = (RunFail e, w))
  /\ (forall e c1 w1, tok = "" -> user <> "" -> pass <> "" -> flag_repository fl <> "" ->
                ~ noRetention ->
                Authenticate E NewClient user pass w = (Done c1, w1) ->
                badSetup e -> run fuel E L cli fl w = (RunFail e, w1)).
Proof.
  intros user pass tok noCredentials noRetention badSetup.
  rewrite run_stages. fold user pass tok.
  assert (Hcred : String.eqb tok "" && (String.eqb user "" || String.eqb pass "") = true
                  <-> noCredentials).
  { unfold noCredentials.
    rewrite andb_true_iff, orb_true_iff, !String.eqb_eq. reflexivity. }
  assert (Hcred' : ~ noCredentials ->
                   String.eqb tok "" && (String.eqb user "" || String.eqb pass "") = false).
  { intros H. apply not_true_is_false. intros Hb. now apply H, Hcred. }
  assert (Hpolicy : (flag_keepDays fl =? 0) && (flag_keepCount fl =? 0) = true
                    <-> noRetention).
  { unfold noRetention. rewrite andb_true_iff, !Z.eqb_eq. reflexivity. }
  assert (Hpolicy' : ~ noRetention ->
                     (flag_keepDays fl =? 0) && (flag_keepCount fl =? 0) = false).
  { intros H. apply not_true_is_false. intros Hb. now apply H, Hpolicy. }
  assert (Hsetup : forall e c1 w1, badSetup e ->
            match run_filter cli fl with
            | inl e => (RunFail e, w1)
            | inr tagFilter =>
                match run_sorter cli fl with
                | inl e => (RunFail e, w1)
                | inr sorter => afterSetup fuel E L fl c1 tagFilter sorter w1
                end
            end = (RunFail e, w1)).
  { intros e c1 w1 [Hf|[[tf Hf] Hs]]; rewrite Hf; [reflexivity|now rewrite Hs]. }
  split; [|split; [|split; [|split]]].
  - intros Hno. apply Hcred in Hno. now rewrite Hno.
  - intros Hc Hrepo. now rewrite (Hcred' Hc), Hrepo.
  - intros Hc Hrepo Hret. apply String.eqb_neq in Hrepo. apply Hpolicy in Hret.
    now rewrite (Hcred' Hc), Hrepo, Hret.
  - intros e Htok Hrepo Hpol Hbad.
    apply String.eqb_neq in Htok, Hrepo. rewrite Htok, Hrepo, (Hpolicy' Hpol).
    cbn [andb negb]. now apply Hsetup.
  - intros e c1 w1 Htok Huser Hpass Hrepo Hpol Hauth Hbad.
    apply String.eqb_neq in Huser, Hpass, Hrepo.
    rewrite Htok, Huser, Hpass, Hrepo, (Hpolicy' Hpol). cbn [String.eqb andb orb negb].
    rewrite Hauth. now apply Hsetup.
Qed.

Lemma run_reports_flag_errors_witness :
  let byToken := mkFlags "" "" "t" "user/app" 30 0 "date" "" "" "" false false 5 in
  let byPassword := mkFlags "u" "p" "" "" 30 0 "semver" "" "" "" false false 5 in
  run 4 liveEnv exampleLib exampleCli byToken initial
  = (RunFail (UsageError "invalid sort method: date (must be 'lexicographical' or 'semver')"),
     initial)
  /\ run 4 liveEnv exampleLib exampleCli byPassword initial
     = (RunFail (UsageError "--repository is required"), initial).
Proof.
  intros byToken byPassword. split.
  - destruct (run_reports_flag_errors 4 liveEnv exampleLib exampleCli byToken initial)
      as (_ & _ & _ & H & _).
    apply H.
    + discriminate.
    + discriminate.
    + intros [H0 _]. discriminate.
    + right. split; [eexists; reflexivity|reflexivity].
  - destruct (run_reports_flag_errors 4 liveEnv exampleLib exampleCli byPassword initial)
      as (_ & H & _).
    apply H; [|reflexivity].
    intros [_ [H0|H0]]; discriminate.
Defined.

Lemma Authenticate_deleteCalls (E : Env) (c : Client) (user pass : string) (w : World) :
  deleteCalls (log (snd (Authenticate E c user pass w))) = deleteCalls (log w).
Proof.
  unfold Authenticate, http_NewRequestWithContext, bind.
  destruct (url_Parse E _); [reflexivity|].
  match goal with
  | |- context [doRequest E c ?req w] =>
      destruct (doRequest_sends E c req w) as [_ Hs];
      apply sendsOnly_deleteCalls in Hs;
      [|rewrite Method_withAuthorization; discriminate];
      destruct (doRequest E c req w) as [[resp| |] w1]
  end; simpl in *; try exact Hs.
  repeat match goal with
         | |- context [if ?b then _ else _] => destruct b
         | |- context [match ?o with Some _ => _ | None => _ end] => destruct o
         end; exact Hs.
Qed.

Lemma deletesOnly_nil_deleteCalls (c : Client) (repo : string) (w w' : World) :
  deletesOnly c repo [] w w' -> deleteCalls (log w') = deleteCalls (log w).
Proof.
  intros (evs & -> & Hevs). unfold deleteCalls.
  rewrite List.filter_app, length_app.
  assert (Hnone : List.filter isDeleteCall evs = []); [|rewrite Hnone; simpl; lia].
  induction Hevs as [|e evs He _ IH]; [reflexivity|]. simpl.
  destruct e as [|r|d]; simpl; try exact IH.
  destruct (He r eq_refl) as (t & [] & _).
Qed.

(** When the delete-list is empty whatever the tags, [Clean] deletes
    nothing and counts every tag that passed the filter as kept. *)
Lemma Clean_keeps_all (fuel : nat) (E : Env) (L : GoLib) (c : Cleaner) (repo : string)
    (w : World) :
  sort_Slice_permutes L ->
  (forall tags, snd (decisions E L c tags) = []) ->
  deleteCalls (log (snd (Clean fuel E L c repo w))) = deleteCalls (log w)
  /\ forall r, fst (Clean fuel E L c repo w) = Done r ->
               DeletedTags r = [] /\ Errors r = [] /\ KeptTags r = FilteredTags r.
Proof.
  intros HL Hall.
  pose proof (ListTags_loop_deleteCalls E (client c) repo fuel [] 1 w) as Hlist.
  fold (ListTags fuel E (client c) repo) in Hlist.
  destruct (ListTags fuel E (client c) repo w) as [[tags|err|] w1] eqn:Hfetch;
    cbn [snd] in Hlist.
  2, 3: unfold Clean; rewrite Hfetch; split; [exact Hlist|discriminate].
  split.
  - destruct (Clean_deletesOnly fuel E L c repo w w1 tags Hfetch) as [Hd _].
    rewrite Hall in Hd. apply deletesOnly_nil_deleteCalls in Hd. now rewrite Hd.
  - destruct tags as [|t tags].
    { rewrite (Clean_empty_repository fuel E L c repo w w1 Hfetch).
      intros r [= <-]. repeat split. }
    destruct (filtered c (t :: tags)) as [|u us] eqn:Hf.
    { rewrite (Clean_nothing_matches fuel E L c repo w w1 _ Hfetch)
        by (discriminate || exact Hf).
      intros r [= <-]. repeat split. }
    rewrite (Clean_decisions fuel E L c repo w w1 _ Hfetch) by (rewrite Hf; discriminate).
    pose proof (decisions_lengths E L c (t :: tags) HL) as Hlen.
    rewrite Hall in *. cbn [length] in Hlen. change (len [] =? 0) with true. cbv iota.
    intros r [= <-]. cbn [DeletedTags Errors KeptTags FilteredTags].
    repeat split. unfold len. lia.
Qed.

Lemma run_policy_not_positive (fl : Flags) (sortedTags : list Tag) :
  flag_keepDays fl <= 0 -> flag_keepCount fl <= 0 ->
  run_policy fl sortedTags = NewCompositePolicy PolicyModeOR [].
Proof.
  intros Hd Hc. unfold run_policy.
  destruct (Z.ltb_spec 0 (flag_keepDays fl)); [lia|].
  destruct (Z.ltb_spec 0 (flag_keepCount fl)); [lia|]. reflexivity.
Qed.

(** X23. A run in which neither [--keep-days] nor [--keep-count] is
    positive (one of them is negative, or the check of the flags would
    have stopped the run) deletes nothing: it sends no DELETE request,
    and its result counts every tag that passed the filter as kept. *)
Theorem run_without_positive_retention_deletes_nothing
    (fuel : nat) (E : Env) (L : GoLib) (cli : Cli) (fl : Flags) (w : World)
    (HL : sort_Slice_permutes L)
    (Hdays : flag_keepDays fl <= 0) (Hcount : flag_keepCount fl <= 0) :
  deleteCalls (log (snd (run fuel E L cli fl w))) = deleteCalls (log w)
  /\ forall r, fst (run fuel E L cli fl w) = RunDone r ->
               DeletedTags r = [] /\ Errors r = [] /\ KeptTags r = FilteredTags r.
Proof.
  rewrite run_stages.
  repeat match goal with
         | |- context [if ?b then (RunFail _, w) else _] =>
             destruct b; [split; [reflexivity|discriminate]|]
         end.
  assert (Hrest : forall c1 tf s w1,
             deleteCalls (log w1) = deleteCalls (log w) ->
             deleteCalls (log (snd (afterSetup fuel E L fl c1 tf s w1))) = deleteCalls (log w)
             /\ forall r, fst (afterSetup fuel E L fl c1 tf s w1) = RunDone r ->
                          DeletedTags r = [] /\ Errors r = [] /\ KeptTags r = FilteredTags r).
  { intros c1 tf s w1 Hw1. unfold afterSetup.
    pose proof (ListTags_loop_deleteCalls E c1 (flag_repository fl) fuel [] 1 w1) as Hlist.
    fold (ListTags fuel E c1 (flag_repository fl)) in Hlist.
    destruct (ListTags fuel E c1 (flag_repository fl) w1) as [[tags|err|] w2];
      cbn [snd] in Hlist.
    2, 3: split; [cbn [snd]; congruence|discriminate].
    cbv zeta. rewrite run_policy_not_positive by assumption.
    match goal with
    | |- context [Clean fuel E L ?c ?repo w2] =>
        destruct (Clean_keeps_all fuel E L c repo w2 HL) as [Hcalls Hres];
        [intros tags'; unfold decisions; cbn [policy];
         now rewrite classify_empty_composite|];
        destruct (Clean fuel E L c repo w2) as [[r|err|] w3]
    end; cbn [fst snd] in *.
    - split; [congruence|]. intros r' [= <-]. now apply Hres.
    - split; [congruence|discriminate].
    - split; [congruence|discriminate]. }
  destruct (negb _).
  - destruct (run_filter cli fl) as [e|tf]; [split; [reflexivity|discriminate]|].
    destruct (run_sorter cli fl) as [e|s]; [split; [reflexivity|discriminate]|].
    now apply Hrest.
  - match goal with
    | |- context [Authenticate E NewClient ?u ?p w] =>
        pose proof (Authenticate_deleteCalls E NewClient u p w) as Hauth;
        destruct (Authenticate E NewClient u p w) as [[c1|err|] w1]
    end; cbn [snd] in Hauth.
    2, 3: split; [exact Hauth|discriminate].
    destruct (run_filter cli fl) as [e|tf]; [split; [exact Hauth|discriminate]|].
    destruct (run_sorter cli fl) as [e|s]; [split; [exact Hauth|discriminate]|].
    now apply Hrest.
Qed.

Lemma run_without_positive_retention_deletes_nothing_witness :
  let fl := mkFlags "" "" "t" "user/app" (-1) 0 "lexicographical" "" "" "" false false 5 in
  deleteCalls (log (snd (run 4 twiceEnv exampleLib exampleCli fl initial))) = 0%nat
  /\ exists r, fst (run 4 twiceEnv exampleLib exampleCli fl initial) = RunDone r
               /\ TotalTags r = 3 /\ KeptTags r = FilteredTags r.
Proof.
  intros fl.
  destruct (run_without_positive_retention_deletes_nothing 4 twiceEnv exampleLib exampleCli
              fl initial (contract_permutes _ exampleLib_contract)) as [Hcalls Hres].
  - simpl. lia.
  - simpl. lia.
  - split; [exact Hcalls|].
    eexists. split; [vm_compute; reflexivity|]. split; [reflexivity|].
    apply Hres. vm_compute. reflexivity.
Defined.

(** A count policy keeps the tags named as one of the first [N] tags of
    the list given at construction. *)
Lemma count_policy_namedIn (now : time.Time) (N : Z) (sorted : list Tag) (tag : Tag) :
  ShouldKeep now (NewCountRetentionPolicy N sorted) tag
  = namedIn (map Name (take (Z.to_nat N) sorted)) tag.
Proof.
  apply eq_true_iff_eq. rewrite NewCountRetentionPolicy_keeps.
  unfold namedIn. rewrite existsb_exists. split.
  - intros (i & u & Hlt & Hi & Hname). exists (Name u). split.
    + apply in_map, list_elem_of_In, list_elem_of_lookup. exists i.
      apply lookup_take_Some. split; [exact Hi|lia].
    + apply String.eqb_eq. now symmetry.
  - intros (x & Hin & Heq). apply String.eqb_eq in Heq. subst x.
    apply in_map_iff in Hin. destruct Hin as (u & Hname & Hin).
    apply list_elem_of_In, list_elem_of_lookup in Hin. destruct Hin as [i Hi].
    apply lookup_take_Some in Hi. destruct Hi as [Hi Hlt].
    exists i, u. split; [|split; [exact Hi|exact Hname]].
    apply lookup_lt_Some in Hi. lia.
Qed.

Lemma run_policy_count_only (fl : Flags) (sortedTags : list Tag) :
  flag_keepDays fl <= 0 -> 0 < flag_keepCount fl ->
  run_policy fl sortedTags = NewCountRetentionPolicy (flag_keepCount fl) sortedTags.
Proof.
  intros Hd Hc. unfold run_policy.
  destruct (Z.ltb_spec 0 (flag_keepDays fl)); [lia|].
  destruct (Z.ltb_spec 0 (flag_keepCount fl)); [|lia]. reflexivity.
Qed.

Lemma Sort_nil (L : GoLib) (s : TagSorter) :
  sort_Slice_permutes L -> Sort L s [] = [].
Proof. intros HL. apply Permutation_nil. symmetry. now apply Sort_permutes. Qed.

(** X24. With [--keep-count N] alone, a run decides on its first listing:
    the count policy is built from the sorted tags of the listing that
    [run] makes, and [Clean] applies it to a second listing of its own.  A
    tag of the second listing is kept when its name is one of the first
    [N] names of the first listing, sorted; in a dry run the others are
    reported as deleted, in the order of the sorter. *)
Theorem run_keeps_by_the_first_listing
    (fuel : nat) (E : Env) (L : GoLib) (cli : Cli) (fl : Flags) (w : World)
    (tf : option TagFilter) (s : TagSorter) (tags1 tags2 : list Tag)
    (HL : sort_Slice_permutes L)
    (Htok : flag_token fl <> "")
    (Hrepo : flag_repository fl <> "")
    (Hdays : flag_keepDays fl <= 0) (Hcount : 0 < flag_keepCount fl)
    (Hfilter : run_filter cli fl = inr tf)
    (Hsorter : run_sorter cli fl = inr s)
    (Hfirst : fst (ListTags fuel E (AuthenticateWithToken NewClient (flag_token fl))
                     (flag_repository fl) w) = Done tags1)
    (Hsecond : fst (ListTags fuel E (AuthenticateWithToken NewClient (flag_token fl))
                      (flag_repository fl)
                      (snd (ListTags fuel E (AuthenticateWithToken NewClient (flag_token fl))
                              (flag_repository fl) w))) = Done tags2) :
  let snapshot :=
    map Name (take (Z.to_nat (flag_keepCount fl)) (Sort L s (FilterTags tags1 tf))) in
  let listed := Sort L s (FilterTags tags2 tf) in
  exists r,
    fst (run fuel E L cli fl w) = RunDone r
    /\ KeptTags r = len (List.filter (namedIn snapshot) listed)
    /\ (flag_dryRun fl = true ->
        DeletedTags r
        = map Name (List.filter (fun t => negb (namedIn snapshot t)) listed)).
Proof.
  intros snapshot listed. rewrite run_stages.
  apply String.eqb_neq in Htok, Hrepo.
  assert (Hcred : credential cli (flag_token fl) "token" = flag_token fl)
    by (unfold credential; now rewrite Htok).
  rewrite Hcred, Htok, Hrepo. cbn [andb negb].
  assert (Hpol : (flag_keepDays fl =? 0) && (flag_keepCount fl =? 0) = false).
  { destruct (Z.eqb_spec (flag_keepCount fl) 0); [lia|apply andb_false_r]. }
  rewrite Hpol, Hfilter, Hsorter. unfold afterSetup.
  set (c0 := AuthenticateWithToken NewClient (flag_token fl)) in *.
  destruct (ListTags fuel E c0 (flag_repository fl) w) as [res1 w1].
  cbn [fst snd] in Hfirst, Hsecond. subst res1. cbv beta iota zeta.
  rewrite run_policy_count_only by assumption.
  set (c := mkCleaner c0 tf _ (Some s) (flag_dryRun fl) (flag_verbose fl)).
  destruct (ListTags fuel E c0 (flag_repository fl) w1) as [res2 w2] eqn:Hfetch.
  cbn [fst] in Hsecond. subst res2.
  change c0 with (client c) in Hfetch.
  assert (Hdec : decisions E L c tags2
                 = (List.filter (namedIn snapshot) listed,
                    List.filter (fun t => negb (namedIn snapshot t)) listed)).
  { unfold decisions, sorted. rewrite filtered_FilterTags. cbn [policy sorter filter c].
    fold listed. rewrite classify_select. cbn [app]. f_equal.
    - rewrite <- (select_const (namedIn snapshot) listed 0). apply select_ext.
      intros i t. unfold keeps. apply count_policy_namedIn.
    - rewrite <- (select_const (fun t => negb (namedIn snapshot t)) listed 0).
      apply select_ext. intros i t. unfold keeps. f_equal. apply count_policy_namedIn. }
  assert (Hempty : filtered c tags2 = [] -> listed = []).
  { rewrite filtered_FilterTags. cbn [filter c]. intros H. subst listed.
    rewrite H. now apply Sort_nil. }
  destruct tags2 as [|t tags2].
  { rewrite (Clean_empty_repository fuel E L c _ w1 w2 Hfetch).
    rewrite Hempty by (rewrite filtered_FilterTags; now destruct (filter c)).
    eexists. split; [reflexivity|]. split; [reflexivity|]. intros _. reflexivity. }
  destruct (filtered c (t :: tags2)) as [|u us] eqn:Hf.
  { rewrite (Clean_nothing_matches fuel E L c _ w1 w2 _ Hfetch)
      by (discriminate || exact Hf).
    rewrite Hempty by reflexivity.
    eexists. split; [reflexivity|]. split; [reflexivity|]. intros _. reflexivity. }
  rewrite (Clean_decisions fuel E L c _ w1 w2 _ Hfetch) by (rewrite Hf; discriminate).
  rewrite Hdec. cbn [fst snd].
  destruct (len (List.filter (fun t0 => negb (namedIn snapshot t0)) listed) =? 0) eqn:Hdel.
  { apply len_0 in Hdel. rewrite Hdel.
    eexists. split; [reflexivity|]. split; [reflexivity|]. intros _. reflexivity. }
  cbn [dryRun c]. destruct (flag_dryRun fl).
  { eexists. split; [reflexivity|]. split; [reflexivity|]. intros _.
    cbn [DeletedTags]. now rewrite reportDeletions_names. }
  unfold bind.
  match goal with
  | |- context [deleteTags E ?cl ?repo ?del [] [] w2] =>
      destruct (deleteTags_returns E cl repo del [] [] w2) as (r & w3 & ->)
  end.
  eexists. split; [reflexivity|]. split; [reflexivity|]. discriminate.
Qed.

Lemma run_keeps_by_the_first_listing_witness :
  exists r,
    fst (run 4 snapshotEnv exampleLib exampleCli exampleFlags initial) = RunDone r
    /\ KeptTags r = 1
    /\ DeletedTags r = ["B"; "A"].
Proof.
  destruct (run_keeps_by_the_first_listing 4 snapshotEnv exampleLib exampleCli exampleFlags
              initial None LexicographicalSorter [tagC] [tagA; tagB; tagC]
              (contract_permutes _ exampleLib_contract))
    as (r & Hrun & Hkept & Hdeleted);
    try reflexivity; try (simpl; lia); try (simpl; discriminate).
  exists r. split; [exact Hrun|]. split; [exact Hkept|]. now apply Hdeleted.
Defined.

(** ** The sorters and the composite policy at their edges *)

(** X25. [normalizeVersion] gives a string that starts with "v", leaves
    such a string as it is (so it changes nothing when applied twice), and
    puts one "v" before any other string; hence, with no prefix pattern,
    the semver sorter compares a tag named [n] and a tag named ["v" + n] as
    the same version. *)
Theorem normalizeVersion_adds_v_once (v : string) :
  String.prefix "v" (normalizeVersion v) = true
  /\ normalizeVersion (normalizeVersion v) = normalizeVersion v
  /\ normalizeVersion ("v" +:+ v) = "v" +:+ v
  /\ (String.prefix "v" v = false -> normalizeVersion v = "v" +:+ v)
  /\ (forall a b : Tag,
        Name a = v -> Name b = "v" +:+ v -> String.prefix "v" v = false ->
        semverKey None a = semverKey None b).
Proof.
  assert (Hpre : forall u, String.prefix "v" ("v" +:+ u) = true)
    by (intros u; simpl; destruct u; reflexivity).
  assert (Hv : forall u, normalizeVersion ("v" +:+ u) = "v" +:+ u).
  { intros u. unfold normalizeVersion. now rewrite Hpre. }
  assert (Hnot : String.prefix "v" v = false -> normalizeVersion v = "v" +:+ v).
  { intros H. unfold normalizeVersion. now rewrite H. }
  assert (Hyes : String.prefix "v" v = true -> normalizeVersion v = v).
  { intros H. unfold normalizeVersion. now rewrite H. }
  split; [|split; [|split; [|split]]].
  - destruct (String.prefix "v" v) eqn:H; [now rewrite Hyes|now rewrite Hnot, Hpre].
  - destruct (String.prefix "v" v) eqn:H; [now rewrite !Hyes|now rewrite Hnot, Hv].
  - apply Hv.
  - exact Hnot.
  - intros a b Ha Hb H. unfold semverKey, stripPrefix. now rewrite Ha, Hb, Hv, Hnot.
Qed.

Lemma normalizeVersion_adds_v_once_witness :
  semverKey None (mkTag "1.2.3" 0 0 []) = semverKey None (mkTag "v1.2.3" 0 0 []).
Proof.
  apply (normalizeVersion_adds_v_once "1.2.3"); reflexivity.
Defined.

(** X26. The semver sorter on tags of which none is a valid version (after
    the prefix is stripped and "v" is added) sorts as the lexicographical
    sorter does; on tags that are all valid versions it is one call of
    [sort.Slice] with the comparison of versions. *)
Theorem semver_sorter_with_one_group
    (L : GoLib) (pat : option Regexp) (tags : list Tag)
    (HL : sort_Slice_permutes L) :
  ((forall t, In t tags -> semver_IsValid L (semverKey pat t) = false) ->
   Sort L (SemverSorter pat) tags = Sort L LexicographicalSorter tags)
  /\ ((forall t, In t tags -> semver_IsValid L (semverKey pat t) = true) ->
      Sort L (SemverSorter pat) tags = sort_Slice L (semverLess L pat) tags).
Proof.
  assert (Hnil : forall less, sort_Slice L less [] = []).
  { intros less. apply Permutation_nil. symmetry. apply HL. }
  unfold Sort. rewrite semverSplit_filter. cbn [app]. split; intros H.
  - rewrite (filter_none (fun t => semver_IsValid L (semverKey pat t)) tags) by exact H.
    rewrite (filter_all (fun t => negb (semver_IsValid L (semverKey pat t))) tags)
      by (intros t Ht; now rewrite (H t Ht)).
    now rewrite Hnil.
  - rewrite (filter_all (fun t => semver_IsValid L (semverKey pat t)) tags) by exact H.
    rewrite (filter_none (fun t => negb (semver_IsValid L (semverKey pat t))) tags)
      by (intros t Ht; now rewrite (H t Ht)).
    now rewrite Hnil, app_nil_r.
Qed.

Lemma semver_sorter_with_one_group_witness :
  let L := mkGoLib insertionSort (fun _ => false) stringCompare in
  Sort L (SemverSorter None) [tagA; tagC; tagB] = [tagC; tagB; tagA].
Proof.
  intros L.
  destruct (semver_sorter_with_one_group L None [tagA; tagC; tagB]
              (fun less l => insertionSort_perm less l)) as [Hlex _].
  rewrite Hlex; [reflexivity|]. intros t _. reflexivity.
Defined.

(** X27. A composite policy of one member decides as that member, in OR
    mode and in AND mode, and has its name: the single policy that [run]
    uses directly and the composite it would otherwise build agree.  With
    a mode that is neither OR nor AND a composite that has members keeps
    no tag, while its name joins the names of the members with "OR". *)
Theorem composite_policy_edges
    (now : time.Time) (tag : Tag) (p : RetentionPolicy) :
  ShouldKeep now (NewCompositePolicy PolicyModeOR [p]) tag = ShouldKeep now p tag
  /\ ShouldKeep now (NewCompositePolicy PolicyModeAND [p]) tag = ShouldKeep now p tag
  /\ (forall mode, PolicyName (NewCompositePolicy mode [p]) = PolicyName p)
  /\ (forall mode q qs,
        mode <> PolicyModeOR -> mode <> PolicyModeAND ->
        ShouldKeep now (NewCompositePolicy mode (q :: qs)) tag = false
        /\ PolicyName (NewCompositePolicy mode (q :: qs))
           = strings_Join (map PolicyName (q :: qs)) " OR ").
Proof.
  unfold NewCompositePolicy. split; [|split; [|split]].
  - cbn [ShouldKeep]. change (PolicyModeOR =? PolicyModeOR) with true.
    cbn [existsb]. apply orb_false_r.
  - cbn [ShouldKeep]. change (PolicyModeAND =? PolicyModeOR) with false.
    change (PolicyModeAND =? PolicyModeAND) with true.
    cbn [forallb]. apply andb_true_r.
  - intros mode. reflexivity.
  - intros mode q qs Hor Hand. apply Z.eqb_neq in Hor, Hand. split.
    + cbn [ShouldKeep]. now rewrite Hor, Hand.
    + cbn [PolicyName]. now rewrite Hand.
Qed.

Lemma composite_policy_edges_witness :
  ShouldKeep 0 (NewCompositePolicy 2 [NewDaysRetentionPolicy 1;
                                      NewCompositePolicy PolicyModeOR []])
    tagA = false
  /\ PolicyName (NewCompositePolicy 2 [NewDaysRetentionPolicy 1;
                                       NewCountRetentionPolicy 1 []])
     = "days OR count".
Proof.
  destruct (composite_policy_edges 0 tagA (NewDaysRetentionPolicy 1)) as (_ & _ & _ & H).
  split.
  - apply (H 2); discriminate.
  - apply (H 2); discriminate.
Defined.
